(** * Step / Release: execution and cascading rollback of release/core.py

    A shallow embedding of [release.Step] and [release.Release].  Python
    objects live in a store ([heap] for the steps, [rel] for the release),
    the collaborators of a step act on an abstract [World], and raising is
    an explicit [Raise] result.  Values of type [exc] are the instances of
    Python's [Exception]; that is what the two [except Exception] clauses
    of the module catch.

    The record [Sys] also carries a [journal]: a ghost list of the calls
    made, in the order they were made.  The source has no such list; it is
    what lets a theorem say that a collaborator was or was not invoked.

    The steps of fs.py ([Copy], [Symlink], [Unlink]) are embedded over
    the functions of [os], [shutil] and [tempfile] they call.
    [Step.check_call], [Step.check_output] and [print_command] run
    external commands and write to the step's sink on behalf of
    [git.Fetch]; they, and [git.Fetch], are not part of this
    development. *)

From Stdlib Require Import List String Ascii Bool Arith Lia.
Import ListNotations.

Set Implicit Arguments.

Local Open Scope string_scope.
Local Open Scope list_scope.

(** ** Phases (class Phase) *)

Inductive Phase : Type :=
| CHECK_INITIAL
| CHECK_FINAL
| CHECK_ROLLBACK
| EXECUTE
| ROLLBACK.

Definition Phase_eqb (p q : Phase) : bool :=
  match p, q with
  | CHECK_INITIAL, CHECK_INITIAL => true
  | CHECK_FINAL, CHECK_FINAL => true
  | CHECK_ROLLBACK, CHECK_ROLLBACK => true
  | EXECUTE, EXECUTE => true
  | ROLLBACK, ROLLBACK => true
  | _, _ => false
  end.

(** [phase.name] of the enumeration. *)
Definition Phase_name (p : Phase) : string :=
  match p with
  | CHECK_INITIAL => "CHECK_INITIAL"
  | CHECK_FINAL => "CHECK_FINAL"
  | CHECK_ROLLBACK => "CHECK_ROLLBACK"
  | EXECUTE => "EXECUTE"
  | ROLLBACK => "ROLLBACK"
  end.

(** References to step objects. *)
Definition addr := nat.

(** ['\n'] *)
Definition nl : string := String (ascii_of_nat 10) EmptyString.

(** The double quote character. *)
Definition dquote : string := String (ascii_of_nat 34) EmptyString.

(** [' ' * 2 * level] *)
Fixpoint spaces (level : nat) : string :=
  match level with
  | O => EmptyString
  | S l => String.append "  " (spaces l)
  end.

(** ['\n'.join(lines)] *)
Fixpoint join_lines (lines : list string) : string :=
  match lines with
  | [] => EmptyString
  | [l] => l
  | l :: rest => String.append l (String.append nl (join_lines rest))
  end.

(** ** Exceptions

    The four classes of the module, and any other instance of
    [Exception] a collaborator may raise.  [State] is the type of the
    Observed State: what [check] returns. *)

Inductive Exception (State : Type) : Type :=
| ExecutionError (name : string) (phase : Phase) (track : string)
| PreconditionError (name : string) (state : State)
| PostconditionError (name : string) (actual_state expected_state : State)
| RollbackPostconditionError (name : string)
                             (actual_state expected_state : State)
| OtherException (what : string).

Arguments ExecutionError {State} name phase track.
Arguments PreconditionError {State} name state.
Arguments PostconditionError {State} name actual_state expected_state.
Arguments RollbackPostconditionError {State} name actual_state expected_state.
Arguments OtherException {State} what.

Inductive result (State A : Type) : Type :=
| Ok (a : A)
| Raise (e : Exception State).

Arguments Ok {State A} a.
Arguments Raise {State A} e.

(** What the module is run against: the system the collaborators observe
    and change, the values a check may return with their [==], and the
    library functions [traceback.format_exc] (for the exception being
    handled), [termcolor.colored] and [str] of such a value.  [none] is
    Python's [None]: a value like the others, which [self.initial] holds
    until the first [execute()] and which a check may return too. *)
Class Platform : Type := {
  World : Type;
  State : Type;
  none : State;
  State_eq_dec : forall a b : State, {a = b} + {a <> b};
  format_exc : Exception State -> string;
  colored : string -> string -> string;
  str : State -> string
}.

Section Core.

Context {P : Platform}.

Definition exc : Type := Exception State.

(** Where a step sends the output of its commands. *)
Inductive channel : Type :=
| SysStdout
| ReleaseStdout.

(** ** Objects *)

(** An instance of [Step].  [check], [action] and [rollback_action] are
    the callables given to [__init__]; the attributes [check_initial],
    [check_final], [check_rollback], [self.action] and
    [self.rollback_action] are their wrapped forms, defined below.
    [action] and [rollback_action] are closures over [self] and may read
    [self.initial] (as [fs.Unlink] does): they receive its current
    value.  [initial] is [none] until [execute()] stores what the first
    check returned. *)
Record Step : Type := mkStep {
  name : string;
  check : World -> result State State * World;
  precondition : State -> result State bool;
  expected : State;
  action : State -> World -> result State unit * World;
  rollback_action : State -> World -> result State unit * World;
  initial : State;
  stdout : channel
}.

(** [Step.__init__] *)
Definition Step_init (name : string)
    (check : World -> result State State * World)
    (precondition : State -> result State bool)
    (expected : State)
    (action rollback_action : State -> World -> result State unit * World)
  : Step :=
  {| name := name; check := check; precondition := precondition;
     expected := expected; action := action;
     rollback_action := rollback_action;
     initial := none; stdout := SysStdout |}.

(** An instance of [Release].  [release_stdout] is the text written to
    [self.stdout] so far. *)
Record Release : Type := mkRelease {
  release_name : string;
  steps : list addr;
  executed_steps : list addr;
  exceptions : list exc;
  release_stdout : string;
  stdout_variable : bool
}.

(** [Release.__init__]: [given] is the text already in the sink passed by
    the caller, [None] when the caller passes no sink. *)
Definition Release_init (name : string) (steps : list addr)
    (given : option string) : Release :=
  {| release_name := name; steps := steps;
     executed_steps := []; exceptions := [];
     release_stdout := match given with None => EmptyString | Some t => t end;
     stdout_variable := match given with None => true | Some _ => false end |}.

(** Ghost record of the calls made. *)
Inductive event : Type :=
| EvExecute (a : addr)
| EvRollback (a : addr)
| EvCall (a : addr) (p : Phase)
| EvPrecondition (a : addr)
| EvObserved (a : addr) (p : Phase) (st : State)
| EvReleaseRollback.

Record Sys : Type := mkSys {
  world : World;
  heap : addr -> Step;
  rel : Release;
  console : string;
  journal : list event
}.

(** ** State and exception monad *)

Definition M (A : Type) : Type := Sys -> result State A * Sys.

Definition ret {A} (a : A) : M A := fun s => (Ok a, s).

Definition raise {A} (e : exc) : M A := fun s => (Raise e, s).

Definition bind {A B} (m : M A) (k : A -> M B) : M B :=
  fun s =>
    match m s with
    | (Ok a, s') => k a s'
    | (Raise e, s') => (Raise e, s')
    end.

(** [try: m  except Exception as e: h e] *)
Definition try_except {A} (m : M A) (h : exc -> M A) : M A :=
  fun s =>
    match m s with
    | (Ok a, s') => (Ok a, s')
    | (Raise e, s') => h e s'
    end.

Notation "x <- m ;; k" := (bind m (fun x => k))
  (at level 61, m at next level, right associativity).
Notation "m ;; k" := (bind m (fun _ => k))
  (at level 61, right associativity).

Definition get_step (a : addr) : M Step := fun s => (Ok (heap s a), s).

Definition get_rel : M Release := fun s => (Ok (rel s), s).

Definition put_rel (r : Release) : M unit :=
  fun s => (Ok tt, {| world := world s; heap := heap s; rel := r;
                      console := console s; journal := journal s |}).

Definition put_step (a : addr) (st : Step) : M unit :=
  fun s => (Ok tt, {| world := world s;
                      heap := fun b => if Nat.eqb b a then st else heap s b;
                      rel := rel s;
                      console := console s; journal := journal s |}).

Definition log (ev : event) : M unit :=
  fun s => (Ok tt, {| world := world s; heap := heap s; rel := rel s;
                      console := console s;
                      journal := journal s ++ [ev] |}).

(** Run a collaborator on the world. *)
Definition call {A} (f : World -> result State A * World) : M A :=
  fun s =>
    let (r, w) := f (world s) in
    (r, {| world := w; heap := heap s; rel := rel s;
           console := console s; journal := journal s |}).

(** Evaluate a function that has no effect but may raise. *)
Definition lift {A} (r : result State A) : M A := fun s => (r, s).

(** ** Helpers of the module *)

(** [print(text, end=end)] on the process's standard output. *)
Definition print (text : string) (end_ : string) : M unit :=
  fun s => (Ok tt, {| world := world s; heap := heap s; rel := rel s;
                      console := String.append (console s)
                                   (String.append text end_);
                      journal := journal s |}).

(** [print_indented(level, msg, newline, end)] *)
Definition print_indented (level : nat) (msg : string)
    (newline : bool) (end_ : string) : M unit :=
  (match level with
   | O => print msg end_
   | _ => print (String.append (spaces level) (String.append " " msg)) end_
   end) ;;
  if newline then print EmptyString nl else ret tt.

(** [stdout.write(message)] on the release's sink. *)
Definition write_release_stdout (message : string) : M unit :=
  r <- get_rel ;;
  put_rel {| release_name := release_name r; steps := steps r;
             executed_steps := executed_steps r;
             exceptions := exceptions r;
             release_stdout := String.append (release_stdout r) message;
             stdout_variable := stdout_variable r |}.

(** [print_step(name, stdout)] *)
Definition print_step (name : string) : M unit :=
  write_release_stdout
    (join_lines ["<";
                 String.append "| Executing step " (String.append name ".");
                 ">"]).

(** [explain_step(step_name)] *)
Definition explain_step (step_name : string) : M unit :=
  print_indented 0
    (String.append "- Error ocurred during step "
       (String.append (colored step_name "yellow") "."))
    true nl.

(** The [explain] method of each exception class; an exception of another
    class has none, and the attribute lookup raises. *)
Definition explain (e : exc) : M unit :=
  match e with
  | ExecutionError name phase track =>
      explain_step name ;;
      print_indented 1
        (String.append "Execution error during the "
           (String.append dquote
              (String.append (Phase_name phase)
                 (String.append dquote " phase:")))) true nl ;;
      print_indented 1 track true nl
  | PreconditionError name state =>
      explain_step name ;;
      print_indented 1 "Precondition error, the observed state was:" true nl ;;
      print_indented 1 (str state) true nl
  | PostconditionError name actual_state expected_state =>
      explain_step name ;;
      print_indented 1 "Postcondition error, the observed state was:" true nl ;;
      print_indented 1 (str actual_state) true nl ;;
      print_indented 1 "while the expected state was:" true nl ;;
      print_indented 1 (str expected_state) true nl
  | RollbackPostconditionError name actual_state expected_state =>
      explain_step name ;;
      print_indented 1
        "Rollback postcondition error, the observed state was:" true nl ;;
      print_indented 1 (str actual_state) true nl ;;
      print_indented 1 "while the expected state was:" true nl ;;
      print_indented 1 (str expected_state) true nl
  | OtherException _ => raise (OtherException "AttributeError")
  end.

(** ** Step *)

(** [Step.wrap]: the wrapped callable runs [action] and turns whatever it
    raises into an [ExecutionError] with the step's name, the phase of the
    call site and the formatted traceback.  The first line is the journal
    entry of the call. *)
Definition wrap {A} (self : addr) (phase : Phase) (action : M A) : M A :=
  log (EvCall self phase) ;;
  try_except action
    (fun e =>
       st <- get_step self ;;
       raise (ExecutionError (name st) phase (format_exc e))).

(** The five wrapped attributes set by [Step.__init__]. *)
Definition check_initial (self : addr) : M State :=
  wrap self CHECK_INITIAL (st <- get_step self ;; call (check st)).

Definition check_final (self : addr) : M State :=
  wrap self CHECK_FINAL (st <- get_step self ;; call (check st)).

Definition check_rollback (self : addr) : M State :=
  wrap self CHECK_ROLLBACK (st <- get_step self ;; call (check st)).

Definition self_action (self : addr) : M unit :=
  wrap self EXECUTE (st <- get_step self ;; call (action st (initial st))).

Definition self_rollback_action (self : addr) : M unit :=
  wrap self ROLLBACK
    (st <- get_step self ;; call (rollback_action st (initial st))).

(** [self.initial = initial], with the journal entry of the observation. *)
Definition record_initial (self : addr) (observed : State) : M unit :=
  fun s =>
    (Ok tt,
     {| world := world s;
        heap := fun b =>
          if Nat.eqb b self then
            {| name := name (heap s self); check := check (heap s self);
               precondition := precondition (heap s self);
               expected := expected (heap s self);
               action := action (heap s self);
               rollback_action := rollback_action (heap s self);
               initial := observed;
               stdout := stdout (heap s self) |}
          else heap s b;
        rel := rel s;
        console := console s;
        journal := journal s ++ [EvObserved self CHECK_INITIAL observed] |}).

(** [self.precondition(initial)], with the journal entry of the call. *)
Definition self_precondition (self : addr) (observed : State) : M bool :=
  log (EvPrecondition self) ;;
  st <- get_step self ;;
  lift (precondition st observed).

(** [Step.execute] *)
Definition Step_execute (self : addr) : M unit :=
  log (EvExecute self) ;;
  st <- get_step self ;;
  print_indented 0
    (String.append "- Executing step "
       (String.append (colored (name st) "yellow") ":")) false nl ;;
  initial <- check_initial self ;;
  record_initial self initial ;;
  print_indented 1 "Precondition:  " false EmptyString ;;
  holds <- self_precondition self initial ;;
  (if holds : bool
   then print_indented 0 (colored "SUCCESS" "green") false nl
   else print_indented 0 (colored "FAILURE" "red") false nl ;;
        raise (PreconditionError (name st) initial)) ;;
  self_action self ;;
  final <- check_final self ;;
  log (EvObserved self CHECK_FINAL final) ;;
  print_indented 1 "Postcondition: " false EmptyString ;;
  if State_eq_dec final (expected st)
  then print_indented 0 (colored "SUCCESS" "green") false nl
  else print_indented 0 (colored "FAILURE" "red") false nl ;;
       raise (PostconditionError (name st) final (expected st)).

(** [final == self.initial] *)
Definition eq_initial (final initial : State) : bool :=
  if State_eq_dec final initial then true else false.

(** [Step.rollback] *)
Definition Step_rollback (self : addr) : M unit :=
  log (EvRollback self) ;;
  self_rollback_action self ;;
  final <- check_rollback self ;;
  log (EvObserved self CHECK_ROLLBACK final) ;;
  st <- get_step self ;;
  if negb (eq_initial final (initial st))
  then raise (RollbackPostconditionError (name st) final (initial st))
  else ret tt.

(** [Step.set_stdout], called with the release's sink. *)
Definition set_stdout (self : addr) : M unit :=
  st <- get_step self ;;
  put_step self
    {| name := name st; check := check st;
       precondition := precondition st; expected := expected st;
       action := action st; rollback_action := rollback_action st;
       initial := initial st; stdout := ReleaseStdout |}.

(** ** Release *)

(** [self.executed_steps.append(step)] *)
Definition append_executed (step : addr) : M unit :=
  r <- get_rel ;;
  put_rel {| release_name := release_name r; steps := steps r;
             executed_steps := executed_steps r ++ [step];
             exceptions := exceptions r;
             release_stdout := release_stdout r;
             stdout_variable := stdout_variable r |}.

(** [self.exceptions.append(exception)] *)
Definition append_exception (exception : exc) : M unit :=
  r <- get_rel ;;
  put_rel {| release_name := release_name r; steps := steps r;
             executed_steps := executed_steps r;
             exceptions := exceptions r ++ [exception];
             release_stdout := release_stdout r;
             stdout_variable := stdout_variable r |}.

(** [self.exceptions.reverse()] *)
Definition reverse_exceptions : M unit :=
  r <- get_rel ;;
  put_rel {| release_name := release_name r; steps := steps r;
             executed_steps := executed_steps r;
             exceptions := rev (exceptions r);
             release_stdout := release_stdout r;
             stdout_variable := stdout_variable r |}.

(** [for exception in self.exceptions: exception.explain()] *)
Fixpoint explain_all (l : list exc) : M unit :=
  match l with
  | [] => ret tt
  | exception :: rest => explain exception ;; explain_all rest
  end.

(** [Release.explain_exceptions] *)
Definition explain_exceptions : M unit :=
  r <- get_rel ;;
  match exceptions r with
  | [] => ret tt
  | _ :: _ =>
      print_indented 0
        "The following errors ocurred during the release process." true nl ;;
      reverse_exceptions ;;
      r' <- get_rel ;;
      explain_all (exceptions r')
  end.

(** The loop of [Release.rollback]: [for step in self.executed_steps],
    leaving at the first [step.rollback()] that raises. *)
Fixpoint Release_rollback_loop (l : list addr) : M unit :=
  match l with
  | [] => ret tt
  | step :: rest =>
      broke <- try_except (Step_rollback step ;; ret false)
                          (fun _ => ret true) ;;
      if broke : bool then ret tt else Release_rollback_loop rest
  end.

(** [Release.rollback] *)
Definition Release_rollback : M unit :=
  log EvReleaseRollback ;;
  r <- get_rel ;;
  Release_rollback_loop (executed_steps r) ;;
  explain_exceptions.

(** The three [except] clauses of [Release.execute]; an exception of
    another class is not handled and leaves the loop as it is. *)
Definition handler (step : addr) (exception : exc) : M unit :=
  match exception with
  | PreconditionError _ _ =>
      append_exception exception ;;
      Release_rollback ;;
      raise exception
  | PostconditionError _ _ _ =>
      append_exception exception ;;
      append_executed step ;;
      Release_rollback ;;
      raise exception
  | ExecutionError _ phase _ =>
      append_exception exception ;;
      (if Phase_eqb phase CHECK_FINAL
       then append_executed step else ret tt) ;;
      Release_rollback ;;
      raise exception
  | _ => raise exception
  end.

(** The two lines before the [try] in the loop of [Release.execute]. *)
Definition announce (step : addr) : M unit :=
  set_stdout step ;;
  st <- get_step step ;;
  print_step (name st).

(** One turn of the loop of [Release.execute]. *)
Definition Release_execute_step (step : addr) : M unit :=
  announce step ;;
  try_except (Step_execute step ;; append_executed step) (handler step).

(** [for step in self.steps: ...] *)
Fixpoint Release_execute_loop (l : list addr) : M unit :=
  match l with
  | [] => ret tt
  | step :: rest => Release_execute_step step ;; Release_execute_loop rest
  end.

(** [Release.execute] *)
Definition Release_execute : M unit :=
  r <- get_rel ;;
  Release_execute_loop (steps r) ;;
  r' <- get_rel ;;
  if stdout_variable r'
  then print (join_lines ["<"; "| Log from stdout and stderr:"; ">"]) nl ;;
       print (release_stdout r') nl
  else ret tt.

(** ** Reading the journal *)

(** The steps whose [rollback()] was called, in the order of the calls. *)
Fixpoint rollback_calls (j : list event) : list addr :=
  match j with
  | [] => []
  | EvRollback a :: j' => a :: rollback_calls j'
  | _ :: j' => rollback_calls j'
  end.

(** The steps whose [execute()] was called, in the order of the calls. *)
Fixpoint execute_calls (j : list event) : list addr :=
  match j with
  | [] => []
  | EvExecute a :: j' => a :: execute_calls j'
  | _ :: j' => execute_calls j'
  end.

(** Entries made on behalf of [Step.execute]: the call itself, the
    precondition, and the collaborators at the sites CHECK_INITIAL,
    EXECUTE and CHECK_FINAL. *)
Definition execute_side (ev : event) : bool :=
  match ev with
  | EvExecute _ => true
  | EvPrecondition _ => true
  | EvCall _ p | EvObserved _ p _ =>
      match p with
      | CHECK_INITIAL | EXECUTE | CHECK_FINAL => true
      | CHECK_ROLLBACK | ROLLBACK => false
      end
  | EvRollback _ => false
  | EvReleaseRollback => false
  end.

(** Entries made on behalf of [Release.rollback]. *)
Definition rollback_side (ev : event) : bool := negb (execute_side ev).

(** Entries made inside one [Step.execute], after the entry of the call. *)
Definition inner_execute (ev : event) : bool :=
  match ev with
  | EvExecute _ => false
  | _ => execute_side ev
  end.

(** Entries made inside one [Step.rollback], after the entry of the
    call. *)
Definition inner_rollback (ev : event) : bool :=
  match ev with
  | EvCall _ p | EvObserved _ p _ =>
      match p with
      | CHECK_ROLLBACK | ROLLBACK => true
      | CHECK_INITIAL | EXECUTE | CHECK_FINAL => false
      end
  | _ => false
  end.

(** The observed state that the entry [ev] records as returned by a
    CHECK_INITIAL call of step [a], if it is such an entry. *)
Definition observed_initial (ev : event) (a : addr) : option State :=
  match ev with
  | EvObserved b CHECK_INITIAL st => if Nat.eqb b a then Some st else None
  | _ => None
  end.

(** The observed state returned by the latest CHECK_INITIAL call of step
    [a] that returned one. *)
Fixpoint last_initial (j : list event) (a : addr) : option State :=
  match j with
  | [] => None
  | ev :: j' =>
      match last_initial j' a with
      | Some st => Some st
      | None => observed_initial ev a
      end
  end.

(** The action of step [a] was invoked. *)
Definition action_invoked (j : list event) (a : addr) : bool :=
  existsb (fun ev => match ev with
                     | EvCall b EXECUTE => Nat.eqb b a
                     | _ => false
                     end) j.

(** [Release.rollback] was invoked. *)
Definition rollback_invoked (j : list event) : bool :=
  existsb (fun ev => match ev with
                     | EvReleaseRollback => true
                     | _ => false
                     end) j.

(** The classes that define [explain]. *)
Definition has_explain (e : exc) : bool :=
  match e with
  | OtherException _ => false
  | _ => true
  end.

(** The classes [Release.execute] has an [except] clause for. *)
Definition handled (e : exc) : bool :=
  match e with
  | ExecutionError _ _ _ => true
  | PreconditionError _ _ => true
  | PostconditionError _ _ _ => true
  | RollbackPostconditionError _ _ _ => false
  | OtherException _ => false
  end.

(** Whether the [except] clause that handles [e] appends the step to
    [executed_steps]. *)
Definition appends_step (e : exc) : bool :=
  match e with
  | PostconditionError _ _ _ => true
  | ExecutionError _ phase _ => Phase_eqb phase CHECK_FINAL
  | _ => false
  end.

(** ** The cascade, as the specification words it

    Call [rollback()] on the steps of [l] in turn and halt at the first
    call that fails.  The result is the list of the steps it was called
    on, with the state reached. *)
Fixpoint cascade (l : list addr) (s : Sys) : list addr * Sys :=
  match l with
  | [] => ([], s)
  | a :: rest =>
      match Step_rollback a s with
      | (Ok _, s1) => let (called, s') := cascade rest s1 in (a :: called, s')
      | (Raise _, s1) => ([a], s1)
      end
  end.

(** ** A successful pass, as the specification words it

    The check succeeds, the precondition holds on what it observed, the
    action succeeds, the second check succeeds and observes the expected
    state.  The result is the world after the pass. *)
Definition pass (st : Step) (w : World) : option World :=
  match check st w with
  | (Ok observed, w1) =>
      match precondition st observed with
      | Ok true =>
          match action st observed w1 with
          | (Ok _, w2) =>
              match check st w2 with
              | (Ok final, w3) =>
                  if State_eq_dec final (expected st) then Some w3 else None
              | (Raise _, _) => None
              end
          | (Raise _, _) => None
          end
      | _ => None
      end
  | (Raise _, _) => None
  end.

(** Every step of [l], taken in order, makes a successful pass. *)
Fixpoint all_pass (h : addr -> Step) (l : list addr) (w : World) : bool :=
  match l with
  | [] => true
  | a :: rest =>
      match pass (h a) w with
      | Some w' => all_pass h rest w'
      | None => false
      end
  end.

(** A run of the loop of [Release.execute] in which the steps [pre] go
    through and the [execute()] of the next step, [a], raises [e] and
    leaves the state [s2]. *)
Definition fails_at (s : Sys) (pre : list addr) (a : addr) (e : exc)
    (s2 : Sys) : Prop :=
  exists s1,
    Release_execute_loop pre s = (Ok tt, s1) /\
    Step_execute a (snd (announce a s1)) = (Raise e, s2).

(** The state a process starts a release in: nothing printed, nothing
    called yet. *)
Definition boot (w : World) (h : addr -> Step) (r : Release) : Sys :=
  {| world := w; heap := h; rel := r;
     console := EmptyString; journal := [] |}.

(** ** Vocabulary of the proofs *)

(** [preserves R m]: every run of [m] takes a state to one related to it
    by [R], whether it returns or raises. *)
Definition preserves {A} (R : Sys -> Sys -> Prop) (m : M A) : Prop :=
  forall s r s', m s = (r, s') -> R s s'.

(** The relations that are carried through a sequence. *)
Class Frame (R : Sys -> Sys -> Prop) : Prop := {
  frame_refl : forall s, R s s;
  frame_trans : forall s1 s2 s3, R s1 s2 -> R s2 s3 -> R s1 s3
}.

(** The release object is left alone. *)
Definition same_rel (s s' : Sys) : Prop := rel s' = rel s.

(** The step objects are left alone. *)
Definition same_heap (s s' : Sys) : Prop := heap s' = heap s.

(** The journal only grows, and by entries that satisfy [Q]. *)
Definition grows (Q : event -> bool) (s s' : Sys) : Prop :=
  exists t, journal s' = journal s ++ t /\ forallb Q t = true.

(** What [Step.execute] does after the journal entry of its call. *)
Definition Step_execute_body (self : addr) : M unit :=
  st <- get_step self ;;
  print_indented 0
    (String.append "- Executing step "
       (String.append (colored (name st) "yellow") ":")) false nl ;;
  initial <- check_initial self ;;
  record_initial self initial ;;
  print_indented 1 "Precondition:  " false EmptyString ;;
  holds <- self_precondition self initial ;;
  (if holds : bool
   then print_indented 0 (colored "SUCCESS" "green") false nl
   else print_indented 0 (colored "FAILURE" "red") false nl ;;
        raise (PreconditionError (name st) initial)) ;;
  self_action self ;;
  final <- check_final self ;;
  log (EvObserved self CHECK_FINAL final) ;;
  print_indented 1 "Postcondition: " false EmptyString ;;
  if State_eq_dec final (expected st)
  then print_indented 0 (colored "SUCCESS" "green") false nl
  else print_indented 0 (colored "FAILURE" "red") false nl ;;
       raise (PostconditionError (name st) final (expected st)).

(** What [Step.rollback] does after the journal entry of its call. *)
Definition Step_rollback_body (self : addr) : M unit :=
  self_rollback_action self ;;
  final <- check_rollback self ;;
  log (EvObserved self CHECK_ROLLBACK final) ;;
  st <- get_step self ;;
  if negb (eq_initial final (initial st))
  then raise (RollbackPostconditionError (name st) final (initial st))
  else ret tt.

(** An operation that never raises. *)
Definition returns {A} (m : M A) : Prop :=
  forall s, exists a s', m s = (Ok a, s').

(** An operation that never returns. *)
Definition ends_raising {A} (m : M A) : Prop :=
  forall s r s', m s = (r, s') -> exists e, r = Raise e.

(** The lists of steps of the release are left alone. *)
Definition same_lists (s s' : Sys) : Prop :=
  steps (rel s') = steps (rel s) /\
  executed_steps (rel s') = executed_steps (rel s).

(** Two step objects made from the same arguments of [Step.__init__]. *)
Definition same_static (st st' : Step) : Prop :=
  name st' = name st /\ check st' = check st /\
  precondition st' = precondition st /\ expected st' = expected st /\
  action st' = action st /\ rollback_action st' = rollback_action st.

(** The step objects keep what [Step.__init__] gave them. *)
Definition static_heap (s s' : Sys) : Prop :=
  forall b, same_static (heap s b) (heap s' b).

(** A step that made a CHECK_INITIAL call that returned holds in
    [initial] what the latest such call returned. *)
Definition initial_recorded (s : Sys) : Prop :=
  forall b i, last_initial (journal s) b = Some i ->
              initial (heap s b) = i.

(** Every executed step has made a CHECK_INITIAL call that returned. *)
Definition executed_observed (s : Sys) : Prop :=
  forall b, In b (executed_steps (rel s)) ->
            last_initial (journal s) b <> None.

(** [initial_recorded] is kept. *)
Definition tracks (s s' : Sys) : Prop :=
  initial_recorded s -> initial_recorded s'.

(** The recorded errors are left as they are, or reversed. *)
Definition same_or_reversed (s s' : Sys) : Prop :=
  exceptions (rel s') = exceptions (rel s) \/
  exceptions (rel s') = rev (exceptions (rel s)).

(** Of the step objects, nothing changes but [initial] of the one at
    [a]. *)
Definition only_initial (a : addr) (s s' : Sys) : Prop :=
  forall b,
    (b <> a -> heap s' b = heap s b) /\
    same_static (heap s b) (heap s' b) /\
    stdout (heap s' b) = stdout (heap s b).

(** Nothing is printed. *)
Definition same_console (s s' : Sys) : Prop := console s' = console s.

(** The release's sink is left alone. *)
Definition same_sink (s s' : Sys) : Prop :=
  release_stdout (rel s') = release_stdout (rel s) /\
  stdout_variable (rel s') = stdout_variable (rel s).

(** The collaborators' system is left alone. *)
Definition same_world (s s' : Sys) : Prop := world s' = world s.

(** The block that [print_step] writes for a step of name [name]. *)
Definition step_block (name : string) : string :=
  join_lines ["<";
              String.append "| Executing step " (String.append name ".");
              ">"].

(** The blocks of the steps of [l], one after the other. *)
Fixpoint transcript (h : addr -> Step) (l : list addr) : string :=
  match l with
  | [] => EmptyString
  | a :: rest => String.append (step_block (name (h a))) (transcript h rest)
  end.

(** The world after every step of [l], taken in order, has made a
    successful pass; [None] when one of them does not. *)
Fixpoint world_after (h : addr -> Step) (l : list addr) (w : World)
  : option World :=
  match l with
  | [] => Some w
  | a :: rest =>
      match pass (h a) w with
      | Some w' => world_after h rest w'
      | None => None
      end
  end.

End Core.

Notation "x <- m ;; k" := (bind m (fun x => k))
  (at level 61, m at next level, right associativity).
Notation "m ;; k" := (bind m (fun _ => k))
  (at level 61, right associativity).

(** ** Concrete steps, after test/core.py *)

Module Demo.

(** Dictionaries from names to numbers. *)
Definition dict : Type := list (string * nat).

Definition dict_eq_dec (a b : dict) : {a = b} + {a <> b}.
Proof.
  decide equality. decide equality.
  - apply Nat.eq_dec.
  - apply string_dec.
Defined.

(** The values of these steps: [None] and the dictionaries. *)
Inductive value : Type :=
| PyNone
| PyDict (d : dict).

Definition value_eq_dec (a b : value) : {a = b} + {a <> b}.
Proof. decide equality. apply dict_eq_dec. Defined.

(** The world is a number, which these steps leave as it is. *)
#[export] Instance platform : Platform :=
  {| World := nat;
     State := value;
     none := PyNone;
     State_eq_dec := value_eq_dec;
     format_exc := fun _ => "Traceback (most recent call last):";
     colored := fun text _ => text;
     str := fun v =>
       match v with PyNone => "None" | PyDict _ => "{...}" end |}.

(** [check=lambda: {}] *)
Definition check_empty (w : World) : result State State * World :=
  (Ok (PyDict []), w).

(** [check=lambda: None] *)
Definition check_none (w : World) : result State State * World :=
  (Ok PyNone, w).

(** [action=lambda: None], [rollback_action=lambda: None] *)
Definition no_action (_ : State) (w : World)
  : result State unit * World := (Ok tt, w).

(** [def action(): raise Exception] *)
Definition failing_action (_ : State) (w : World)
  : result State unit * World := (Raise (OtherException "Exception"), w).


(** The step of [test_success]. *)
Definition success : Step :=
  Step_init "success" check_empty (fun _ => Ok true) (PyDict []) no_action
    no_action.


(** The step of [test_failure_action]. *)
Definition failure_action : Step :=
  Step_init "success" check_empty (fun _ => Ok true) (PyDict [])
    failing_action no_action.

(** The step of [test_failure_rollback_action]. *)
Definition failure_rollback_action : Step :=
  Step_init "success" check_empty (fun _ => Ok true) (PyDict []) no_action
    failing_action.

(** The step of [test_failure_precondition]. *)
Definition failure_precondition : Step :=
  Step_init "success" check_empty (fun _ => Ok false) (PyDict []) no_action
    no_action.

(** The step of [test_failure_postcondition]. *)
Definition failure_postcondition : Step :=
  Step_init "success" check_empty (fun _ => Ok true) (PyDict [("a", 1)])
    no_action no_action.

(** A step whose postcondition fails and whose rollback action raises. *)
Definition failure_postcondition_rollback : Step :=
  Step_init "broken" check_empty (fun _ => Ok true) (PyDict [("a", 1)])
    no_action failing_action.

(** A step whose precondition predicate raises a [PreconditionError]
    of its own. *)
Definition precondition_raises : Step :=
  Step_init "raising" check_empty
    (fun st => Raise (PreconditionError "raising" st)) (PyDict []) no_action
    no_action.

(** A step whose precondition predicate raises a [ValueError]. *)
Definition precondition_raises_other : Step :=
  Step_init "raising" check_empty
    (fun _ => Raise (OtherException "ValueError")) (PyDict []) no_action
    no_action.

(** A step that observes [None] and expects it: [check=lambda: None],
    [expected=None]. *)
Definition observes_none : Step :=
  Step_init "nothing" check_none (fun _ => Ok true) PyNone no_action no_action.

(** A store: the objects at addresses 0, 1, 2, ... are those of [l], and
    [success] elsewhere. *)
Definition store (l : list Step) : addr -> Step :=
  fun a => nth a l success.

(** A release started afresh over the steps of [l], placed at the
    addresses 0, 1, 2, ... *)
Definition fresh_release (l : list Step) : Sys :=
  boot 0 (store l) (Release_init "test" (seq 0 (List.length l)) None).

End Demo.

(** * The steps of release/fs.py *)

Module Fs.

(** The values of the steps of fs.py: [None], which [self.initial] holds
    before the first [execute()], and the dictionaries
    [{'destination_exists': b}] of [Copy] and
    [{'file_exists': b, 'link': l}] of [Symlink] and [Unlink], where [l]
    is [None] or a path. *)
Inductive observed : Type :=
| no_state
| destination_state (destination_exists : bool)
| link_state (file_exists : bool) (link : option string).

Definition observed_eq_dec (a b : observed) : {a = b} + {a <> b}.
Proof.
  decide equality.
  - apply bool_dec.
  - decide equality. apply string_dec.
  - apply bool_dec.
Defined.

(** The functions of [os], [os.path], [shutil] and [tempfile] that fs.py
    calls, on a file system [Files]: library functions, taken as
    parameters.  [os.path.exists] and [os.path.islink] return a boolean
    and never raise; the others may raise.  [mkdtemp] is what
    [tempfile.TemporaryDirectory()] does on entry and [cleanup] what it
    does on exit.  The last three are the library functions of core.py
    for this type of observed state. *)
Class Host : Type := {
  Files : Type;
  os_path_exists : string -> Files -> bool;
  os_path_islink : string -> Files -> bool;
  os_readlink : string -> Files -> result observed string;
  os_remove : string -> Files -> result observed unit * Files;
  os_symlink : string -> string -> Files -> result observed unit * Files;
  os_path_join : string -> string -> string;
  mkdtemp : Files -> result observed string * Files;
  cleanup : string -> Files -> result observed unit * Files;
  shutil_copyfile : string -> string -> Files -> result observed unit * Files;
  shutil_move : string -> string -> Files -> result observed unit * Files;
  traceback_format_exc : Exception observed -> string;
  termcolor_colored : string -> string -> string;
  observed_str : observed -> string
}.

Section Steps.

Context {H : Host}.

#[export] Instance platform : Platform :=
  {| World := Files;
     State := observed;
     none := no_state;
     State_eq_dec := observed_eq_dec;
     format_exc := traceback_format_exc;
     colored := termcolor_colored;
     str := observed_str |}.

(** [state[key]] for a key the dictionary does not have; [state[key]]
    when [state] is [None]. *)
Definition KeyError : exc := OtherException "KeyError".
Definition TypeError : exc := OtherException "TypeError".

(** ** class Copy *)

Definition Copy_check (dest_path : string) (w : World)
  : result State State * World :=
  (Ok (destination_state (os_path_exists dest_path w)), w).

(** [lambda s: not s['destination_exists']] *)
Definition Copy_precondition (s : State) : result State bool :=
  match s with
  | destination_state destination_exists => Ok (negb destination_exists)
  | link_state _ _ => Raise KeyError
  | no_state => Raise TypeError
  end.

(** The [with tempfile.TemporaryDirectory()] block: the directory is
    cleaned up when the block is left, also when it is left by an
    exception, which is then raised again unless the clean-up raises. *)
Definition Copy_action (src_path dest_path : string) (_ : State)
    (w : World) : result State unit * World :=
  match mkdtemp w with
  | (Raise e, w1) => (Raise e, w1)
  | (Ok dir_path, w1) =>
      let tmp_path := os_path_join dir_path "temporary" in
      let (r, w3) :=
        match shutil_copyfile src_path tmp_path w1 with
        | (Ok _, w2) => shutil_move tmp_path dest_path w2
        | (Raise e, w2) => (Raise e, w2)
        end in
      match cleanup dir_path w3 with
      | (Ok _, w4) => (r, w4)
      | (Raise e, w4) => (Raise e, w4)
      end
  end.

Definition Copy_rollback_action (dest_path : string) (_ : State)
    (w : World) : result State unit * World :=
  os_remove dest_path w.

Definition Copy (src_path dest_path : string) : Step :=
  Step_init
    (String.append "copy "
       (String.append src_path (String.append " to " dest_path)))
    (Copy_check dest_path)
    Copy_precondition
    (destination_state true)
    (Copy_action src_path dest_path)
    (Copy_rollback_action dest_path).

(** ** class Symlink *)

(** The [check] of [Symlink] and of [Unlink]. *)
Definition link_check (link_path : string) (w : World)
  : result State State * World :=
  if os_path_exists link_path w then
    if os_path_islink link_path w then
      match os_readlink link_path w with
      | Ok target => (Ok (link_state true (Some target)), w)
      | Raise e => (Raise e, w)
      end
    else (Ok (link_state true None), w)
  else (Ok (link_state false None), w).

(** [return not state['file_exists']] *)
Definition Symlink_precondition (state : State) : result State bool :=
  match state with
  | link_state file_exists _ => Ok (negb file_exists)
  | destination_state _ => Raise KeyError
  | no_state => Raise TypeError
  end.

Definition Symlink_action (src_path link_path : string) (_ : State)
    (w : World) : result State unit * World :=
  os_symlink src_path link_path w.

Definition Symlink_rollback_action (link_path : string) (_ : State)
    (w : World) : result State unit * World :=
  os_remove link_path w.

Definition Symlink (src_path link_path : string) : Step :=
  Step_init
    (String.append "link "
       (String.append link_path (String.append " to " src_path)))
    (link_check link_path)
    Symlink_precondition
    (link_state true (Some src_path))
    (Symlink_action src_path link_path)
    (Symlink_rollback_action link_path).

(** ** class Unlink *)

(** [pred1 = not state['file_exists']],
    [pred2 = state['link'] is not None], [return pred1 or pred2] *)
Definition Unlink_precondition (state : State) : result State bool :=
  match state with
  | link_state file_exists link =>
      Ok (negb file_exists ||
          match link with Some _ => true | None => false end)
  | destination_state _ => Raise KeyError
  | no_state => Raise TypeError
  end.

(** [if self.initial['file_exists']: os.remove(link_path)] *)
Definition Unlink_action (link_path : string) (initial : State)
    (w : World) : result State unit * World :=
  match initial with
  | no_state => (Raise TypeError, w)
  | destination_state _ => (Raise KeyError, w)
  | link_state true _ => os_remove link_path w
  | link_state false _ => (Ok tt, w)
  end.

(** [if self.initial['file_exists']:
       os.symlink(self.initial['link'], link_path)];
    [os.symlink] raises a [TypeError] when given [None] for a path. *)
Definition Unlink_rollback_action (link_path : string)
    (initial : State) (w : World) : result State unit * World :=
  match initial with
  | no_state => (Raise TypeError, w)
  | destination_state _ => (Raise KeyError, w)
  | link_state true (Some target) => os_symlink target link_path w
  | link_state true None => (Raise TypeError, w)
  | link_state false _ => (Ok tt, w)
  end.

Definition Unlink (link_path : string) : Step :=
  Step_init
    (String.append "unlink " link_path)
    (link_check link_path)
    Unlink_precondition
    (link_state false None)
    (Unlink_action link_path)
    (Unlink_rollback_action link_path).

(** The step object at [a] was made by [Step.__init__] with the
    arguments of [st]. *)
Definition holds (s : Sys) (a : addr) (st : Step) : Prop :=
  name (heap s a) = name st /\ check (heap s a) = check st /\
  precondition (heap s a) = precondition st /\
  expected (heap s a) = expected st /\
  action (heap s a) = action st /\
  rollback_action (heap s a) = rollback_action st.

End Steps.

End Fs.

(** ** A small file system to run the steps of fs.py on *)

Module FsDemo.

Import Fs.

(** What is at a path: a regular file or a symbolic link to a path. *)
Inductive entry : Type :=
| File
| Link (target : string).

Definition files : Type := list (string * entry).

Fixpoint lookup (p : string) (fs : files) : option entry :=
  match fs with
  | [] => None
  | (q, e) :: rest => if String.eqb p q then Some e else lookup p rest
  end.

Fixpoint delete (p : string) (fs : files) : files :=
  match fs with
  | [] => []
  | (q, e) :: rest =>
      if String.eqb p q then delete p rest else (q, e) :: delete p rest
  end.

(** The path leads to a file, through at most one link. *)
Definition exists_ (p : string) (fs : files) : bool :=
  match lookup p fs with
  | Some File => true
  | Some (Link t) =>
      match lookup t fs with Some File => true | _ => false end
  | None => false
  end.

Definition islink (p : string) (fs : files) : bool :=
  match lookup p fs with Some (Link _) => true | _ => false end.

Definition readlink (p : string) (fs : files) : result observed string :=
  match lookup p fs with
  | Some (Link t) => Ok t
  | _ => Raise (OtherException "OSError")
  end.

Definition remove (p : string) (fs : files)
  : result observed unit * files :=
  match lookup p fs with
  | Some _ => (Ok tt, delete p fs)
  | None => (Raise (OtherException "FileNotFoundError"), fs)
  end.

Definition symlink (src p : string) (fs : files)
  : result observed unit * files :=
  match lookup p fs with
  | Some _ => (Raise (OtherException "FileExistsError"), fs)
  | None => (Ok tt, (p, Link src) :: fs)
  end.

Definition copyfile (src dst : string) (fs : files)
  : result observed unit * files :=
  if exists_ src fs then (Ok tt, (dst, File) :: delete dst fs)
  else (Raise (OtherException "FileNotFoundError"), fs).

Definition move (src dst : string) (fs : files)
  : result observed unit * files :=
  match lookup src fs with
  | Some e => (Ok tt, (dst, e) :: delete dst (delete src fs))
  | None => (Raise (OtherException "FileNotFoundError"), fs)
  end.

Definition join (a b : string) : string :=
  String.append a (String.append "/" b).

#[export] Instance host : Host :=
  {| Files := files;
     os_path_exists := exists_;
     os_path_islink := islink;
     os_readlink := readlink;
     os_remove := remove;
     os_symlink := symlink;
     os_path_join := join;
     mkdtemp := fun fs => (Ok "/tmp/tmpdir", fs);
     cleanup := fun dir fs => (Ok tt, delete (join dir "temporary") fs);
     shutil_copyfile := copyfile;
     shutil_move := move;
     traceback_format_exc := fun _ => "Traceback (most recent call last):";
     termcolor_colored := fun text _ => text;
     observed_str := fun _ => "{...}" |}.

(** A release started afresh on the file system [fs] over the steps of
    [l], placed at the addresses 0, 1, 2, ... *)
Definition fresh_release (fs : files) (l : list Step) : Sys :=
  boot fs (fun a => nth a l (Unlink "nowhere"))
    (Release_init "deploy" (seq 0 (List.length l)) None).

(** A directory with two versions and the link [current] on the first. *)
Definition two_versions : files :=
  [("current", Link "v1"); ("v1", File); ("v2", File)].

(** The steps that point [current] at the second version, followed by a
    copy onto a file that exists. *)
Definition link_swap : list Step :=
  [Unlink "current"; Symlink "v2" "current"; Copy "v2" "v1"].

End FsDemo.

(** * Properties *)

Section Properties.

Context {P : Platform}.

Lemma Phase_eqb_eq (p q : Phase) : Phase_eqb p q = true <-> p = q.
Proof. destruct p, q; simpl; split; intro H; congruence. Qed.

(** ** Running a sequence *)

Lemma bind_inv A B (m : M A) (k : A -> M B) s r s' :
  bind m k s = (r, s') ->
  (exists a s1, m s = (Ok a, s1) /\ k a s1 = (r, s')) \/
  (exists e, m s = (Raise e, s') /\ r = Raise e).
Proof.
  unfold bind. destruct (m s) as [[a|e] s1]; intro H.
  - left. exists a, s1. auto.
  - right. exists e. inversion H; subst. auto.
Qed.

Lemma bind_ok A B (m : M A) (k : A -> M B) s a s1 :
  m s = (Ok a, s1) -> bind m k s = k a s1.
Proof. unfold bind. intros ->. reflexivity. Qed.

Lemma bind_raise A B (m : M A) (k : A -> M B) s e s1 :
  m s = (Raise e, s1) -> bind m k s = (Raise e, s1).
Proof. unfold bind. intros ->. reflexivity. Qed.

(** ** Frames *)

Section Frames.

Variable R : Sys -> Sys -> Prop.
Context {FR : Frame R}.

Lemma preserves_ret A (a : A) : preserves R (ret a).
Proof. intros s r s' H. inversion H; subst. apply frame_refl. Qed.

Lemma preserves_raise A e : preserves R (@raise _ A e).
Proof. intros s r s' H. inversion H; subst. apply frame_refl. Qed.

Lemma preserves_lift A (x : result State A) : preserves R (lift x).
Proof. intros s r s' H. inversion H; subst. apply frame_refl. Qed.

Lemma preserves_get_step a : preserves R (get_step a).
Proof. intros s r s' H. inversion H; subst. apply frame_refl. Qed.

Lemma preserves_get_rel : preserves R get_rel.
Proof. intros s r s' H. inversion H; subst. apply frame_refl. Qed.

Lemma preserves_bind A B (m : M A) (k : A -> M B) :
  preserves R m -> (forall a, preserves R (k a)) -> preserves R (bind m k).
Proof.
  intros Hm Hk s r s' H.
  apply bind_inv in H. destruct H as [(a & s1 & H1 & H2) | (e & H1 & _)].
  - eapply frame_trans; [eapply Hm | eapply Hk]; eassumption.
  - eapply Hm; eassumption.
Qed.

Lemma preserves_try_except A (m : M A) (h : exc -> M A) :
  preserves R m -> (forall e, preserves R (h e)) ->
  preserves R (try_except m h).
Proof.
  intros Hm Hh s r s' H. unfold try_except in H.
  destruct (m s) as [[a|e] s1] eqn:E.
  - inversion H; subst. eapply Hm; eassumption.
  - eapply frame_trans; [eapply Hm | eapply Hh]; eassumption.
Qed.

End Frames.

(** Breaks a composed action down to its primitive operations. *)
Ltac frame_walk :=
  repeat match goal with
    | |- preserves _ (ret _) => apply preserves_ret; exact _
    | |- preserves _ (raise _) => apply preserves_raise; exact _
    | |- preserves _ (lift _) => apply preserves_lift; exact _
    | |- preserves _ (get_step _) => apply preserves_get_step; exact _
    | |- preserves _ get_rel => apply preserves_get_rel; exact _
    | |- preserves _ (bind _ _) =>
        apply preserves_bind; [ exact _ | | intros ]
    | |- preserves _ (try_except _ _) =>
        apply preserves_try_except; [ exact _ | | intros ]
    | |- preserves _ (if ?b then _ else _) => destruct b
    | |- preserves _ (match ?x with _ => _ end) => destruct x
    end.

(** Settles a primitive operation by running it. *)
Ltac frame_prim op :=
  intros ? ? ? H; unfold op in H;
  repeat match type of H with
         | context [match ?f ?w with _ => _ end] => destruct (f w)
         end;
  inversion H; subst; clear H; simpl.

(** *** The release object is left alone *)

#[local] Instance same_rel_frame : Frame same_rel.
Proof. split; unfold same_rel; intros; congruence. Qed.

Lemma same_rel_log ev : preserves same_rel (log ev).
Proof. frame_prim @log. reflexivity. Qed.

Lemma same_rel_call A (f : World -> result State A * World) :
  preserves same_rel (call f).
Proof. frame_prim @call. reflexivity. Qed.

Lemma same_rel_print t e : preserves same_rel (print t e).
Proof. frame_prim @print. reflexivity. Qed.

Lemma same_rel_record_initial a i : preserves same_rel (record_initial a i).
Proof. frame_prim @record_initial. reflexivity. Qed.

Lemma same_rel_put_step a st : preserves same_rel (put_step a st).
Proof. frame_prim @put_step. reflexivity. Qed.

Create HintDb frames.

#[local] Hint Resolve same_rel_log same_rel_call same_rel_print
  same_rel_record_initial same_rel_put_step : frames.

Lemma same_rel_print_indented l m n e :
  preserves same_rel (print_indented l m n e).
Proof. unfold print_indented. frame_walk; auto with frames. Qed.

#[local] Hint Resolve same_rel_print_indented : frames.

Lemma same_rel_wrap A a p (m : M A) :
  preserves same_rel m -> preserves same_rel (wrap a p m).
Proof. intro H. unfold wrap. frame_walk; auto with frames. Qed.

Lemma same_rel_Step_execute a : preserves same_rel (Step_execute a).
Proof.
  unfold Step_execute, check_initial, check_final, self_action,
    self_precondition.
  frame_walk; auto with frames;
    apply same_rel_wrap; frame_walk; auto with frames.
Qed.

Lemma same_rel_Step_rollback a : preserves same_rel (Step_rollback a).
Proof.
  unfold Step_rollback, check_rollback, self_rollback_action.
  frame_walk; auto with frames;
    apply same_rel_wrap; frame_walk; auto with frames.
Qed.

Lemma same_rel_explain e : preserves same_rel (explain e).
Proof.
  destruct e; unfold explain, explain_step; frame_walk; auto with frames.
Qed.

Lemma same_rel_explain_all l : preserves same_rel (explain_all l).
Proof.
  induction l as [|e l IH]; simpl; frame_walk; auto using same_rel_explain.
Qed.

(** *** The step objects are left alone *)

#[local] Instance same_heap_frame : Frame same_heap.
Proof. split; unfold same_heap; intros; congruence. Qed.

Lemma same_heap_log ev : preserves same_heap (log ev).
Proof. frame_prim @log. reflexivity. Qed.

Lemma same_heap_call A (f : World -> result State A * World) :
  preserves same_heap (call f).
Proof. frame_prim @call. reflexivity. Qed.

Lemma same_heap_print t e : preserves same_heap (print t e).
Proof. frame_prim @print. reflexivity. Qed.

Lemma same_heap_put_rel r : preserves same_heap (put_rel r).
Proof. frame_prim @put_rel. reflexivity. Qed.

#[local] Hint Resolve same_heap_log same_heap_call same_heap_print
  same_heap_put_rel : frames.

Lemma same_heap_print_indented l m n e :
  preserves same_heap (print_indented l m n e).
Proof. unfold print_indented. frame_walk; auto with frames. Qed.

#[local] Hint Resolve same_heap_print_indented : frames.

Lemma same_heap_wrap A a p (m : M A) :
  preserves same_heap m -> preserves same_heap (wrap a p m).
Proof. intro H. unfold wrap. frame_walk; auto with frames. Qed.

Lemma same_heap_Step_rollback a : preserves same_heap (Step_rollback a).
Proof.
  unfold Step_rollback, check_rollback, self_rollback_action.
  frame_walk; auto with frames;
    apply same_heap_wrap; frame_walk; auto with frames.
Qed.

Lemma same_heap_explain e : preserves same_heap (explain e).
Proof.
  destruct e; unfold explain, explain_step; frame_walk; auto with frames.
Qed.

Lemma same_heap_explain_all l : preserves same_heap (explain_all l).
Proof.
  induction l as [|e l IH]; simpl; frame_walk; auto using same_heap_explain.
Qed.

Lemma same_heap_explain_exceptions : preserves same_heap explain_exceptions.
Proof.
  unfold explain_exceptions, reverse_exceptions.
  frame_walk; auto using same_heap_explain_all with frames.
Qed.

Lemma same_heap_Release_rollback_loop l :
  preserves same_heap (Release_rollback_loop l).
Proof.
  induction l as [|a l IH]; simpl; frame_walk;
    auto using same_heap_Step_rollback.
Qed.

Lemma same_heap_Release_rollback : preserves same_heap Release_rollback.
Proof.
  unfold Release_rollback.
  frame_walk;
    auto using same_heap_Release_rollback_loop, same_heap_explain_exceptions
      with frames.
Qed.

(** *** The journal only grows, and by entries of one kind *)

#[local] Instance grows_frame Q : Frame (grows Q).
Proof.
  split.
  - intro s. exists []. rewrite app_nil_r. auto.
  - intros s1 s2 s3 (t1 & E1 & F1) (t2 & E2 & F2).
    exists (t1 ++ t2). rewrite E2, E1, app_assoc, forallb_app, F1, F2. auto.
Qed.

Lemma grows_same Q s s' : journal s' = journal s -> grows Q s s'.
Proof. intro E. exists []. rewrite app_nil_r. auto. Qed.

Lemma grows_log Q ev : Q ev = true -> preserves (grows Q) (log ev).
Proof.
  intro HQ. frame_prim @log. exists [ev]. simpl. rewrite HQ. auto.
Qed.

Lemma grows_call Q A (f : World -> result State A * World) :
  preserves (grows Q) (call f).
Proof. frame_prim @call. apply grows_same. reflexivity. Qed.

Lemma grows_print Q t e : preserves (grows Q) (print t e).
Proof. frame_prim @print. apply grows_same. reflexivity. Qed.

Lemma grows_put_rel Q r : preserves (grows Q) (put_rel r).
Proof. frame_prim @put_rel. apply grows_same. reflexivity. Qed.

Lemma grows_put_step Q a st : preserves (grows Q) (put_step a st).
Proof. frame_prim @put_step. apply grows_same. reflexivity. Qed.

Lemma grows_record_initial Q a i :
  Q (EvObserved a CHECK_INITIAL i) = true ->
  preserves (grows Q) (record_initial a i).
Proof.
  intro HQ. frame_prim @record_initial.
  exists [EvObserved a CHECK_INITIAL i]. simpl. rewrite HQ. auto.
Qed.

#[local] Hint Resolve grows_log grows_call grows_print grows_put_rel
  grows_put_step grows_record_initial : frames.

Lemma grows_print_indented Q l m n e :
  preserves (grows Q) (print_indented l m n e).
Proof. unfold print_indented. frame_walk; auto with frames. Qed.

#[local] Hint Resolve grows_print_indented : frames.

Lemma grows_wrap Q A a p (m : M A) :
  Q (EvCall a p) = true ->
  preserves (grows Q) m -> preserves (grows Q) (wrap a p m).
Proof. intros HQ H. unfold wrap. frame_walk; auto with frames. Qed.

Lemma grows_explain Q e : preserves (grows Q) (explain e).
Proof.
  destruct e; unfold explain, explain_step; frame_walk; auto with frames.
Qed.

Lemma grows_explain_all Q l : preserves (grows Q) (explain_all l).
Proof.
  induction l as [|e l IH]; simpl; frame_walk; auto using grows_explain.
Qed.

Lemma grows_explain_exceptions Q : preserves (grows Q) explain_exceptions.
Proof.
  unfold explain_exceptions, reverse_exceptions.
  frame_walk; auto using grows_explain_all with frames.
Qed.

Lemma Step_execute_unfold self :
  Step_execute self = (log (EvExecute self) ;; Step_execute_body self).
Proof. reflexivity. Qed.

Lemma grows_Step_execute_body a :
  preserves (grows inner_execute) (Step_execute_body a).
Proof.
  unfold Step_execute_body, check_initial, check_final, self_action,
    self_precondition.
  frame_walk; auto with frames;
    apply grows_wrap; auto; frame_walk; auto with frames.
Qed.

Lemma Step_rollback_unfold self :
  Step_rollback self = (log (EvRollback self) ;; Step_rollback_body self).
Proof. reflexivity. Qed.

Lemma grows_Step_rollback_body a :
  preserves (grows inner_rollback) (Step_rollback_body a).
Proof.
  unfold Step_rollback_body, check_rollback, self_rollback_action.
  frame_walk; auto with frames;
    apply grows_wrap; auto; frame_walk; auto with frames.
Qed.

(** ** Reading a journal that grew *)

Lemma rollback_calls_app j t :
  rollback_calls (j ++ t) = rollback_calls j ++ rollback_calls t.
Proof.
  induction j as [|ev j IH]; simpl; auto.
  destruct ev; simpl; rewrite IH; reflexivity.
Qed.

Lemma execute_calls_app j t :
  execute_calls (j ++ t) = execute_calls j ++ execute_calls t.
Proof.
  induction j as [|ev j IH]; simpl; auto.
  destruct ev; simpl; rewrite IH; reflexivity.
Qed.

Lemma rollback_calls_none Q t :
  (forall ev, Q ev = true -> match ev with EvRollback _ => False | _ => True end) ->
  forallb Q t = true -> rollback_calls t = [].
Proof.
  intros HQ. induction t as [|ev t IH]; simpl; auto.
  intro H. apply andb_prop in H. destruct H as [H1 H2].
  specialize (HQ ev H1). destruct ev; auto; contradiction.
Qed.

Lemma execute_calls_none Q t :
  (forall ev, Q ev = true -> match ev with EvExecute _ => False | _ => True end) ->
  forallb Q t = true -> execute_calls t = [].
Proof.
  intros HQ. induction t as [|ev t IH]; simpl; auto.
  intro H. apply andb_prop in H. destruct H as [H1 H2].
  specialize (HQ ev H1). destruct ev; auto; contradiction.
Qed.

Lemma forallb_weaken (Q Q' : event -> bool) t :
  (forall ev, Q ev = true -> Q' ev = true) ->
  forallb Q t = true -> forallb Q' t = true.
Proof.
  intros HQ. induction t as [|ev t IH]; simpl; auto.
  intro H. apply andb_prop in H. destruct H as [H1 H2].
  rewrite (HQ _ H1), (IH H2). reflexivity.
Qed.

Lemma inner_execute_side ev : inner_execute ev = true -> execute_side ev = true.
Proof. destruct ev; simpl; auto; discriminate. Qed.

Lemma inner_rollback_side ev :
  inner_rollback ev = true -> rollback_side ev = true.
Proof.
  unfold rollback_side. destruct ev as [| |a p| |a p st|]; simpl; auto;
    destruct p; simpl; auto.
Qed.

Lemma filter_none (Q Q' : event -> bool) t :
  (forall ev, Q ev = true -> Q' ev = false) ->
  forallb Q t = true -> filter Q' t = [].
Proof.
  intros HQ. induction t as [|ev t IH]; simpl; auto.
  intro H. apply andb_prop in H. destruct H as [H1 H2].
  rewrite (HQ _ H1). auto.
Qed.

Lemma filter_all (Q Q' : event -> bool) t :
  (forall ev, Q ev = true -> Q' ev = true) ->
  forallb Q t = true -> filter Q' t = t.
Proof.
  intros HQ. induction t as [|ev t IH]; simpl; auto.
  intro H. apply andb_prop in H. destruct H as [H1 H2].
  rewrite (HQ _ H1), (IH H2). reflexivity.
Qed.

Lemma existsb_none (Q Q' : event -> bool) t :
  (forall ev, Q ev = true -> Q' ev = false) ->
  forallb Q t = true -> existsb Q' t = false.
Proof.
  intros HQ. induction t as [|ev t IH]; simpl; auto.
  intro H. apply andb_prop in H. destruct H as [H1 H2].
  rewrite (HQ _ H1). auto.
Qed.

Lemma last_initial_app j t a :
  last_initial (j ++ t) a =
  match last_initial t a with
  | Some i => Some i
  | None => last_initial j a
  end.
Proof.
  induction j as [|ev j IH]; simpl.
  - destruct (last_initial t a); reflexivity.
  - rewrite IH. destruct (last_initial t a); reflexivity.
Qed.

Lemma last_initial_none Q t a :
  (forall ev, Q ev = true -> observed_initial ev a = None) ->
  forallb Q t = true -> last_initial t a = None.
Proof.
  intros HQ. induction t as [|ev t IH]; simpl; auto.
  intro H. apply andb_prop in H. destruct H as [H1 H2].
  rewrite (IH H2). auto.
Qed.

Lemma preserves_weaken A (R R' : Sys -> Sys -> Prop) (m : M A) :
  (forall s s', R s s' -> R' s s') -> preserves R m -> preserves R' m.
Proof. intros HR Hm s r s' H. apply HR. eapply Hm. eassumption. Qed.

(** ** Operations that always return *)

Lemma returns_ret A (a : A) : returns (ret a).
Proof. intro s. exists a, s. reflexivity. Qed.

Lemma returns_bind A B (m : M A) (k : A -> M B) :
  returns m -> (forall a, returns (k a)) -> returns (bind m k).
Proof.
  intros Hm Hk s. destruct (Hm s) as (a & s1 & E1).
  destruct (Hk a s1) as (b & s2 & E2).
  exists b, s2. rewrite (@bind_ok _ _ m k _ _ _ E1). exact E2.
Qed.

Lemma returns_print t e : returns (print t e).
Proof. intro s. eexists. eexists. reflexivity. Qed.

Lemma returns_print_indented l m n e : returns (print_indented l m n e).
Proof.
  unfold print_indented. apply returns_bind.
  - destruct l; apply returns_print.
  - intros _. destruct n; [apply returns_print | apply returns_ret].
Qed.

Lemma returns_explain e : has_explain e = true -> returns (explain e).
Proof.
  destruct e; intro H; try (simpl in H; discriminate H);
    unfold explain, explain_step;
    repeat match goal with
           | |- returns (bind _ _) => apply returns_bind; [ | intros _ ]
           end;
    apply returns_print_indented.
Qed.

Lemma returns_explain_all l :
  forallb has_explain l = true -> returns (explain_all l).
Proof.
  induction l as [|e l IH]; simpl; intro H.
  - apply returns_ret.
  - apply andb_prop in H. destruct H as [H1 H2].
    apply returns_bind; [apply returns_explain; exact H1 | intros _; auto].
Qed.

Lemma forallb_rev A (f : A -> bool) l :
  forallb f (rev l) = forallb f l.
Proof.
  induction l as [|x l IH]; simpl; auto.
  rewrite forallb_app, IH. simpl. rewrite andb_true_r. apply andb_comm.
Qed.

Lemma explain_exceptions_returns s :
  forallb has_explain (exceptions (rel s)) = true ->
  exists s', explain_exceptions s = (Ok tt, s').
Proof.
  intro H. unfold explain_exceptions.
  unfold bind at 1. simpl.
  destruct (exceptions (rel s)) as [|e l] eqn:E.
  - eexists. reflexivity.
  - destruct (returns_print_indented 0
      "The following errors ocurred during the release process." true nl s)
      as ([] & s1 & E1).
    assert (R1 : rel s1 = rel s) by (eapply same_rel_print_indented; eauto).
    unfold bind at 1. rewrite E1.
    unfold reverse_exceptions, get_rel, put_rel, bind at 1 2 3. simpl.
    rewrite R1, E.
    destruct (@returns_explain_all (rev (e :: l))
               ltac:(rewrite forallb_rev; exact H)
               {| world := world s1; heap := heap s1;
                  rel := {| release_name := release_name (rel s);
                            steps := steps (rel s);
                            executed_steps := executed_steps (rel s);
                            exceptions := rev (e :: l);
                            release_stdout := release_stdout (rel s);
                            stdout_variable := stdout_variable (rel s) |};
                  console := console s1; journal := journal s1 |})
      as ([] & s2 & E2).
    exists s2. exact E2.
Qed.

(** *** The lists of steps of the release are left alone *)

#[local] Instance same_lists_frame : Frame same_lists.
Proof.
  split; unfold same_lists.
  - auto.
  - intros s1 s2 s3 [A1 B1] [A2 B2]. split; congruence.
Qed.

Lemma same_lists_of_same_rel s s' : same_rel s s' -> same_lists s s'.
Proof. unfold same_rel, same_lists. intros ->. auto. Qed.

Lemma same_lists_reverse_exceptions : preserves same_lists reverse_exceptions.
Proof.
  intros s r s' H. unfold reverse_exceptions, bind, get_rel, put_rel in H.
  inversion H; subst. split; reflexivity.
Qed.

Lemma same_lists_explain_exceptions : preserves same_lists explain_exceptions.
Proof.
  unfold explain_exceptions. frame_walk.
  - apply preserves_weaken with (R := same_rel);
      [ exact same_lists_of_same_rel | ].
    apply same_rel_print_indented.
  - apply same_lists_reverse_exceptions.
  - apply preserves_weaken with (R := same_rel);
      [ exact same_lists_of_same_rel | ].
    apply same_rel_explain_all.
Qed.

Lemma same_rel_Release_rollback_loop l :
  preserves same_rel (Release_rollback_loop l).
Proof.
  induction l as [|a l IH]; simpl; frame_walk;
    auto using same_rel_Step_rollback.
Qed.

Lemma same_lists_Release_rollback : preserves same_lists Release_rollback.
Proof.
  unfold Release_rollback. frame_walk.
  - apply preserves_weaken with (R := same_rel);
      [ exact same_lists_of_same_rel | ]. apply same_rel_log.
  - apply preserves_weaken with (R := same_rel);
      [ exact same_lists_of_same_rel | ].
    apply same_rel_Release_rollback_loop.
  - apply same_lists_explain_exceptions.
Qed.

(** ** The cascade *)

Lemma Step_rollback_journal a s r s' :
  Step_rollback a s = (r, s') ->
  exists t, journal s' = journal s ++ EvRollback a :: t /\
            forallb inner_rollback t = true.
Proof.
  rewrite Step_rollback_unfold. unfold bind at 1, log at 1. intro H.
  apply grows_Step_rollback_body in H. destruct H as (t & E & F).
  exists t. split; [|exact F]. rewrite E. simpl.
  rewrite <- app_assoc. reflexivity.
Qed.

Lemma inner_rollback_no_call ev :
  inner_rollback ev = true ->
  match ev with EvRollback _ => False | _ => True end.
Proof. destruct ev; simpl; auto; discriminate. Qed.

Lemma Step_rollback_calls a s r s' :
  Step_rollback a s = (r, s') ->
  rollback_calls (journal s') = rollback_calls (journal s) ++ [a].
Proof.
  intro H. apply Step_rollback_journal in H. destruct H as (t & E & F).
  rewrite E, rollback_calls_app. simpl.
  rewrite (@rollback_calls_none inner_rollback t inner_rollback_no_call F). reflexivity.
Qed.

Lemma Release_rollback_loop_cascade l s :
  Release_rollback_loop l s = (Ok tt, snd (cascade l s)).
Proof.
  revert s. induction l as [|a l IH]; intro s; simpl.
  - reflexivity.
  - unfold bind at 1, try_except, bind at 1.
    destruct (Step_rollback a s) as [[[]|e] s1]; simpl.
    + rewrite IH. destruct (cascade l s1). reflexivity.
    + reflexivity.
Qed.

Lemma cascade_calls l s :
  rollback_calls (journal (snd (cascade l s))) =
  rollback_calls (journal s) ++ fst (cascade l s).
Proof.
  revert s. induction l as [|a l IH]; intro s; simpl.
  - rewrite app_nil_r. reflexivity.
  - destruct (Step_rollback a s) as [[[]|e] s1] eqn:E.
    + specialize (IH s1). destruct (cascade l s1) as [called s']. simpl in *.
      rewrite IH, (Step_rollback_calls a s E), <- app_assoc. reflexivity.
    + simpl. apply (Step_rollback_calls a s E).
Qed.

Lemma cascade_prefix l s :
  fst (cascade l s) = firstn (List.length (fst (cascade l s))) l.
Proof.
  revert s. induction l as [|a l IH]; intro s; simpl.
  - reflexivity.
  - destruct (Step_rollback a s) as [[[]|e] s1] eqn:E.
    + specialize (IH s1). destruct (cascade l s1) as [called s']. simpl in *.
      f_equal. exact IH.
    + reflexivity.
Qed.

Lemma grows_Step_rollback a :
  preserves (grows rollback_side) (Step_rollback a).
Proof.
  unfold Step_rollback, check_rollback, self_rollback_action.
  frame_walk; auto with frames;
    apply grows_wrap; auto; frame_walk; auto with frames.
Qed.

Lemma grows_Release_rollback_loop l :
  preserves (grows rollback_side) (Release_rollback_loop l).
Proof.
  induction l as [|a l IH]; simpl; frame_walk;
    auto using grows_Step_rollback.
Qed.

Lemma grows_Release_rollback :
  preserves (grows rollback_side) Release_rollback.
Proof.
  unfold Release_rollback.
  frame_walk;
    auto using grows_Release_rollback_loop, grows_explain_exceptions
      with frames.
Qed.

Lemma journal_explain_exceptions s r s' :
  explain_exceptions s = (r, s') -> journal s' = journal s.
Proof.
  intro H. apply (@grows_explain_exceptions (fun _ => false)) in H.
  destruct H as (t & E & F). destruct t as [|ev t].
  - rewrite E. apply app_nil_r.
  - discriminate F.
Qed.

Lemma Release_rollback_calls s :
  rollback_calls (journal (snd (Release_rollback s))) =
  rollback_calls (journal s) ++
  fst (cascade (executed_steps (rel s)) (snd (log EvReleaseRollback s))).
Proof.
  unfold Release_rollback.
  unfold bind at 1. unfold log at 1.
  unfold bind at 1. unfold get_rel at 1.
  unfold bind at 1. rewrite Release_rollback_loop_cascade.
  cbn [rel snd].
  set (s0 := {| world := world s; heap := heap s; rel := rel s;
                console := console s;
                journal := journal s ++ [EvReleaseRollback] |}).
  destruct (explain_exceptions (snd (cascade (executed_steps (rel s)) s0)))
    as [r s'] eqn:E.
  apply journal_explain_exceptions in E. cbn [snd]. rewrite E.
  rewrite cascade_calls. unfold s0 at 1. cbn [journal].
  rewrite rollback_calls_app. simpl. rewrite app_nil_r. reflexivity.
Qed.

Lemma Release_rollback_returns s :
  forallb has_explain (exceptions (rel s)) = true ->
  exists s', Release_rollback s = (Ok tt, s').
Proof.
  intro H. unfold Release_rollback.
  unfold bind at 1. unfold log at 1.
  unfold bind at 1. unfold get_rel at 1.
  unfold bind at 1. rewrite Release_rollback_loop_cascade.
  cbn [rel].
  set (s0 := {| world := world s; heap := heap s; rel := rel s;
                console := console s;
                journal := journal s ++ [EvReleaseRollback] |}).
  assert (R : rel (snd (cascade (executed_steps (rel s)) s0)) = rel s).
  { pose proof (Release_rollback_loop_cascade (executed_steps (rel s)) s0)
      as E.
    apply same_rel_Release_rollback_loop in E. exact E. }
  apply explain_exceptions_returns. rewrite R. exact H.
Qed.

(** ** The outcomes of [Step.execute] *)

(** Runs the straight-line part of a step on a symbolic state. *)
Ltac run_step :=
  unfold Step_execute, Step_rollback, check_initial, check_final,
    check_rollback, self_action, self_rollback_action, self_precondition,
    wrap, print_indented, bind, try_except, log, get_step, call, print,
    record_initial, lift, raise, ret;
  cbn [world heap rel console journal name check precondition expected
       action rollback_action initial stdout fst snd].

Ltac run_done :=
  rewrite ?Nat.eqb_refl;
  cbn [world heap rel console journal name check precondition expected
       action rollback_action initial stdout fst snd];
  eexists; split; [reflexivity|]; cbn;
  rewrite ?Nat.eqb_refl; repeat rewrite <- app_assoc; auto.

Ltac run_with H := rewrite ?Nat.eqb_refl; cbn [initial check precondition
  action expected rollback_action name]; rewrite H;
  cbn [world heap rel console journal name check precondition expected
       action rollback_action initial stdout fst snd].

Lemma Step_execute_check_raises a s e w1 :
  check (heap s a) (world s) = (Raise e, w1) ->
  exists s',
    Step_execute a s =
      (Raise (ExecutionError (name (heap s a)) CHECK_INITIAL (format_exc e)),
       s') /\
    journal s' = journal s ++ [EvExecute a; EvCall a CHECK_INITIAL] /\
    world s' = w1 /\ heap s' = heap s.
Proof.
  intro H. run_step. run_with H.
  run_done.
Qed.

Lemma Step_execute_precondition_raises a s i w1 e :
  check (heap s a) (world s) = (Ok i, w1) ->
  precondition (heap s a) i = Raise e ->
  exists s',
    Step_execute a s = (Raise e, s') /\
    journal s' = journal s ++ [EvExecute a; EvCall a CHECK_INITIAL;
                               EvObserved a CHECK_INITIAL i;
                               EvPrecondition a] /\
    world s' = w1 /\ initial (heap s' a) = i.
Proof.
  intros H1 H2. run_step. run_with H1. run_with H2.
  run_done.
Qed.

Lemma Step_execute_precondition_false a s i w1 :
  check (heap s a) (world s) = (Ok i, w1) ->
  precondition (heap s a) i = Ok false ->
  exists s',
    Step_execute a s = (Raise (PreconditionError (name (heap s a)) i), s') /\
    journal s' = journal s ++ [EvExecute a; EvCall a CHECK_INITIAL;
                               EvObserved a CHECK_INITIAL i;
                               EvPrecondition a] /\
    world s' = w1 /\ initial (heap s' a) = i.
Proof.
  intros H1 H2. run_step. run_with H1. run_with H2.
  run_done.
Qed.

Lemma Step_execute_action_raises a s i w1 e w2 :
  check (heap s a) (world s) = (Ok i, w1) ->
  precondition (heap s a) i = Ok true ->
  action (heap s a) i w1 = (Raise e, w2) ->
  exists s',
    Step_execute a s =
      (Raise (ExecutionError (name (heap s a)) EXECUTE (format_exc e)), s') /\
    journal s' = journal s ++ [EvExecute a; EvCall a CHECK_INITIAL;
                               EvObserved a CHECK_INITIAL i;
                               EvPrecondition a; EvCall a EXECUTE] /\
    world s' = w2 /\ initial (heap s' a) = i.
Proof.
  intros H1 H2 H3. run_step. run_with H1. run_with H2. run_with H3.
  run_done.
Qed.

Lemma Step_execute_check_final_raises a s i w1 w2 e w3 :
  check (heap s a) (world s) = (Ok i, w1) ->
  precondition (heap s a) i = Ok true ->
  action (heap s a) i w1 = (Ok tt, w2) ->
  check (heap s a) w2 = (Raise e, w3) ->
  exists s',
    Step_execute a s =
      (Raise (ExecutionError (name (heap s a)) CHECK_FINAL (format_exc e)),
       s') /\
    journal s' = journal s ++ [EvExecute a; EvCall a CHECK_INITIAL;
                               EvObserved a CHECK_INITIAL i;
                               EvPrecondition a; EvCall a EXECUTE;
                               EvCall a CHECK_FINAL] /\
    world s' = w3 /\ initial (heap s' a) = i.
Proof.
  intros H1 H2 H3 H4. run_step.
  run_with H1. run_with H2. run_with H3. run_with H4.
  run_done.
Qed.

Lemma Step_execute_postcondition_fails a s i w1 w2 final w3 :
  check (heap s a) (world s) = (Ok i, w1) ->
  precondition (heap s a) i = Ok true ->
  action (heap s a) i w1 = (Ok tt, w2) ->
  check (heap s a) w2 = (Ok final, w3) ->
  final <> expected (heap s a) ->
  exists s',
    Step_execute a s =
      (Raise (PostconditionError (name (heap s a)) final
                (expected (heap s a))), s') /\
    journal s' = journal s ++ [EvExecute a; EvCall a CHECK_INITIAL;
                               EvObserved a CHECK_INITIAL i;
                               EvPrecondition a; EvCall a EXECUTE;
                               EvCall a CHECK_FINAL;
                               EvObserved a CHECK_FINAL final] /\
    world s' = w3 /\ initial (heap s' a) = i.
Proof.
  intros H1 H2 H3 H4 H5. run_step.
  run_with H1. run_with H2. run_with H3. run_with H4.
  destruct (State_eq_dec final (expected (heap s a))) as [E|_];
    [contradiction|].
  run_done.
Qed.

Lemma Step_execute_succeeds a s i w1 w2 w3 :
  check (heap s a) (world s) = (Ok i, w1) ->
  precondition (heap s a) i = Ok true ->
  action (heap s a) i w1 = (Ok tt, w2) ->
  check (heap s a) w2 = (Ok (expected (heap s a)), w3) ->
  exists s',
    Step_execute a s = (Ok tt, s') /\
    journal s' = journal s ++ [EvExecute a; EvCall a CHECK_INITIAL;
                               EvObserved a CHECK_INITIAL i;
                               EvPrecondition a; EvCall a EXECUTE;
                               EvCall a CHECK_FINAL;
                               EvObserved a CHECK_FINAL
                                 (expected (heap s a))] /\
    world s' = w3 /\ initial (heap s' a) = i.
Proof.
  intros H1 H2 H3 H4. run_step.
  run_with H1. run_with H2. run_with H3. run_with H4.
  destruct (State_eq_dec (expected (heap s a)) (expected (heap s a)))
    as [_|N]; [|contradiction N; reflexivity].
  run_done.
Qed.

(** ** The outcomes of [Step.rollback] *)

Lemma Step_rollback_action_raises a s e w1 :
  rollback_action (heap s a) (initial (heap s a)) (world s) = (Raise e, w1) ->
  exists s',
    Step_rollback a s =
      (Raise (ExecutionError (name (heap s a)) ROLLBACK (format_exc e)), s') /\
    journal s' = journal s ++ [EvRollback a; EvCall a ROLLBACK] /\
    world s' = w1.
Proof.
  intro H1. run_step. run_with H1.
  run_done.
Qed.

Lemma Step_rollback_check_raises a s w1 e w2 :
  rollback_action (heap s a) (initial (heap s a)) (world s) = (Ok tt, w1) ->
  check (heap s a) w1 = (Raise e, w2) ->
  exists s',
    Step_rollback a s =
      (Raise (ExecutionError (name (heap s a)) CHECK_ROLLBACK (format_exc e)),
       s') /\
    journal s' = journal s ++ [EvRollback a; EvCall a ROLLBACK;
                               EvCall a CHECK_ROLLBACK] /\
    world s' = w2.
Proof.
  intros H1 H2. run_step. run_with H1. run_with H2.
  run_done.
Qed.

Lemma Step_rollback_verifies a s w1 final w2 :
  rollback_action (heap s a) (initial (heap s a)) (world s) = (Ok tt, w1) ->
  check (heap s a) w1 = (Ok final, w2) ->
  fst (Step_rollback a s) =
    if eq_initial final (initial (heap s a))
    then Ok tt
    else Raise (RollbackPostconditionError (name (heap s a)) final
                  (initial (heap s a))).
Proof.
  intros H1 H2. run_step. run_with H1. run_with H2.
  destruct (eq_initial final (initial (heap s a))); reflexivity.
Qed.

(** The comparison [final == self.initial] is equality of the two
    values. *)
Lemma eq_initial_true final o : eq_initial final o = true <-> o = final.
Proof.
  unfold eq_initial.
  destruct (State_eq_dec final o) as [->|N]; split; intro H;
    try reflexivity; try discriminate H.
  subst o. contradiction N. reflexivity.
Qed.

(** ** One turn of the loop of [Release.execute] *)

Lemma announce_returns a s : announce a s = (Ok tt, snd (announce a s)).
Proof. reflexivity. Qed.

Lemma announce_fields a s :
  world (snd (announce a s)) = world s /\
  journal (snd (announce a s)) = journal s /\
  console (snd (announce a s)) = console s /\
  steps (rel (snd (announce a s))) = steps (rel s) /\
  executed_steps (rel (snd (announce a s))) = executed_steps (rel s) /\
  exceptions (rel (snd (announce a s))) = exceptions (rel s) /\
  stdout_variable (rel (snd (announce a s))) = stdout_variable (rel s).
Proof. repeat split; reflexivity. Qed.

Lemma announce_heap a s b :
  name (heap (snd (announce a s)) b) = name (heap s b) /\
  check (heap (snd (announce a s)) b) = check (heap s b) /\
  precondition (heap (snd (announce a s)) b) = precondition (heap s b) /\
  expected (heap (snd (announce a s)) b) = expected (heap s b) /\
  action (heap (snd (announce a s)) b) = action (heap s b) /\
  rollback_action (heap (snd (announce a s)) b) =
    rollback_action (heap s b) /\
  initial (heap (snd (announce a s)) b) = initial (heap s b).
Proof.
  unfold announce, set_stdout, print_step, write_release_stdout, bind,
    get_step, put_step, get_rel, put_rel. cbn.
  destruct (Nat.eqb b a) eqn:E.
  - apply Nat.eqb_eq in E. subst b. repeat split; reflexivity.
  - repeat split; reflexivity.
Qed.

Lemma append_executed_run a s :
  append_executed a s =
    (Ok tt,
     {| world := world s; heap := heap s;
        rel := {| release_name := release_name (rel s);
                  steps := steps (rel s);
                  executed_steps := executed_steps (rel s) ++ [a];
                  exceptions := exceptions (rel s);
                  release_stdout := release_stdout (rel s);
                  stdout_variable := stdout_variable (rel s) |};
        console := console s; journal := journal s |}).
Proof. reflexivity. Qed.

Lemma append_exception_run e s :
  append_exception e s =
    (Ok tt,
     {| world := world s; heap := heap s;
        rel := {| release_name := release_name (rel s);
                  steps := steps (rel s);
                  executed_steps := executed_steps (rel s);
                  exceptions := exceptions (rel s) ++ [e];
                  release_stdout := release_stdout (rel s);
                  stdout_variable := stdout_variable (rel s) |};
        console := console s; journal := journal s |}).
Proof. reflexivity. Qed.

Lemma handled_has_explain e : handled e = true -> has_explain e = true.
Proof. destruct e; simpl; auto. Qed.

(** A handled exception: the clause records it, appends the step when it
    has to, and enters [Release.rollback]; [s_entry] is the state in
    which it does. *)
Lemma handler_enters step e s2 :
  handled e = true ->
  exists s_entry,
    handler step e s2 = (Release_rollback ;; raise e) s_entry /\
    world s_entry = world s2 /\ heap s_entry = heap s2 /\
    journal s_entry = journal s2 /\
    steps (rel s_entry) = steps (rel s2) /\
    executed_steps (rel s_entry) =
      executed_steps (rel s2) ++ (if appends_step e then [step] else []) /\
    exceptions (rel s_entry) = exceptions (rel s2) ++ [e].
Proof.
  intro H. destruct e as [n ph tr|n st|n ac ex|n ac ex|w];
    try discriminate H; unfold handler; unfold bind at 1;
    rewrite append_exception_run; cbn [appends_step].
  - destruct (Phase_eqb ph CHECK_FINAL); unfold bind at 1.
    + rewrite append_executed_run.
      eexists. split; [reflexivity|]. repeat split; reflexivity.
    + unfold ret at 1.
      eexists. split; [reflexivity|]. cbn. rewrite app_nil_r.
      repeat split; reflexivity.
  - eexists. split; [reflexivity|]. cbn. rewrite app_nil_r.
    repeat split; reflexivity.
  - unfold bind at 1. rewrite append_executed_run.
    eexists. split; [reflexivity|]. repeat split; reflexivity.
Qed.

Lemma rollback_then_raise e s :
  forallb has_explain (exceptions (rel s)) = true ->
  (Release_rollback ;; @raise _ unit e) s =
    (Raise e, snd (Release_rollback s)).
Proof.
  intro H. destruct (Release_rollback_returns s H) as (s' & E).
  unfold bind. rewrite E. reflexivity.
Qed.

Lemma handler_unhandled step e s2 :
  handled e = false -> handler step e s2 = (Raise e, s2).
Proof. destruct e; simpl; intro H; try discriminate H; reflexivity. Qed.

Lemma ends_raising_raise A e : ends_raising (@raise _ A e).
Proof. intros s r s' H. inversion H. eauto. Qed.

Lemma ends_raising_bind A B (m : M A) (k : A -> M B) :
  (forall a, ends_raising (k a)) -> ends_raising (bind m k).
Proof.
  intros Hk s r s' H. apply bind_inv in H.
  destruct H as [(a & s1 & _ & H2) | (e & _ & ->)].
  - eapply Hk. eassumption.
  - eauto.
Qed.

Lemma handler_ends_raising step e : ends_raising (handler step e).
Proof.
  destruct e; unfold handler;
    repeat match goal with
           | |- ends_raising (bind _ _) => apply ends_raising_bind; intros
           end;
    apply ends_raising_raise.
Qed.

Lemma Release_execute_step_cases a s :
  match Step_execute a (snd (announce a s)) with
  | (Ok _, s1) =>
      Release_execute_step a s = (Ok tt, snd (append_executed a s1))
  | (Raise e, s2) => Release_execute_step a s = handler a e s2
  end.
Proof.
  destruct (Step_execute a (snd (announce a s))) as [[[]|e] s1] eqn:E;
    lazy beta iota;
    unfold Release_execute_step; unfold bind at 1;
    rewrite announce_returns; lazy beta iota; unfold try_except.
  - unfold bind at 1. rewrite E. reflexivity.
  - unfold bind at 1. rewrite E. reflexivity.
Qed.

Lemma Release_execute_loop_app pre rest s :
  Release_execute_loop (pre ++ rest) s =
  match Release_execute_loop pre s with
  | (Ok _, s1) => Release_execute_loop rest s1
  | (Raise e, s1) => (Raise e, s1)
  end.
Proof.
  revert s. induction pre as [|a pre IH]; intro s.
  - reflexivity.
  - simpl. unfold bind.
    destruct (Release_execute_step a s) as [[[]|e] s1]; auto.
Qed.

Lemma Step_execute_journal a s r s' :
  Step_execute a s = (r, s') ->
  exists t, journal s' = journal s ++ EvExecute a :: t /\
            forallb inner_execute t = true.
Proof.
  rewrite Step_execute_unfold. unfold bind at 1, log at 1. intro H.
  apply grows_Step_execute_body in H. destruct H as (t & E & F).
  exists t. split; [|exact F]. rewrite E. simpl.
  rewrite <- app_assoc. reflexivity.
Qed.

Lemma inner_execute_no_call ev :
  inner_execute ev = true ->
  match ev with EvExecute _ => False | _ => True end.
Proof. destruct ev; simpl; auto; discriminate. Qed.

Lemma rollback_side_no_call ev :
  rollback_side ev = true ->
  match ev with EvExecute _ => False | _ => True end.
Proof. destruct ev; simpl; auto; discriminate. Qed.

Lemma execute_side_no_rollback ev :
  execute_side ev = true ->
  match ev with EvRollback _ => False | _ => True end.
Proof. destruct ev; simpl; auto; discriminate. Qed.

Lemma rollback_side_not_execute ev :
  rollback_side ev = true -> execute_side ev = false.
Proof. unfold rollback_side. destruct (execute_side ev); auto. Qed.

Lemma Step_execute_calls a s r s' :
  Step_execute a s = (r, s') ->
  execute_calls (journal s') = execute_calls (journal s) ++ [a] /\
  exists t, journal s' = journal s ++ t /\ forallb execute_side t = true.
Proof.
  intro H. apply Step_execute_journal in H. destruct H as (t & E & F).
  split.
  - rewrite E, execute_calls_app. simpl.
    rewrite (@execute_calls_none inner_execute t inner_execute_no_call F).
    reflexivity.
  - exists (EvExecute a :: t). split; [exact E|]. simpl.
    apply (@forallb_weaken inner_execute execute_side t inner_execute_side F).
Qed.

Lemma grows_handler step e : preserves (grows rollback_side) (handler step e).
Proof.
  destruct e; unfold handler, append_exception, append_executed;
    frame_walk; auto using grows_Release_rollback with frames.
Qed.

Lemma Release_execute_step_calls a s r s' :
  Release_execute_step a s = (r, s') ->
  execute_calls (journal s') = execute_calls (journal s) ++ [a].
Proof.
  intro H. pose proof (Release_execute_step_cases a s) as C.
  destruct (announce_fields a s) as (_ & J & _).
  destruct (Step_execute a (snd (announce a s))) as [[[]|e] s1] eqn:E.
  - rewrite C in H. inversion H; subst. cbn [journal snd append_executed].
    apply Step_execute_calls in E. destruct E as [E _].
    rewrite J in E. exact E.
  - rewrite C in H. apply Step_execute_calls in E. destruct E as [E _].
    apply grows_handler in H. destruct H as (t & Et & Ft).
    rewrite Et, execute_calls_app, E, J.
    rewrite (@execute_calls_none rollback_side t rollback_side_no_call Ft).
    apply app_nil_r.
Qed.

Lemma Release_execute_step_ok a s s' :
  Release_execute_step a s = (Ok tt, s') ->
  exists s1,
    Step_execute a (snd (announce a s)) = (Ok tt, s1) /\
    s' = snd (append_executed a s1).
Proof.
  intro H. pose proof (Release_execute_step_cases a s) as C.
  destruct (Step_execute a (snd (announce a s))) as [[[]|e] s1] eqn:E.
  - rewrite C in H. inversion H; subst. exists s1. auto.
  - rewrite C in H. apply handler_ends_raising in H.
    destruct H as (e' & H). discriminate H.
Qed.

Lemma Release_execute_loop_ok l s s1 :
  Release_execute_loop l s = (Ok tt, s1) ->
  steps (rel s1) = steps (rel s) /\
  executed_steps (rel s1) = executed_steps (rel s) ++ l /\
  exceptions (rel s1) = exceptions (rel s) /\
  stdout_variable (rel s1) = stdout_variable (rel s) /\
  execute_calls (journal s1) = execute_calls (journal s) ++ l /\
  exists t, journal s1 = journal s ++ t /\ forallb execute_side t = true.
Proof.
  revert s. induction l as [|a l IH]; intros s H.
  - inversion H; subst. rewrite !app_nil_r. repeat split.
    exists []. rewrite app_nil_r. auto.
  - simpl in H. apply bind_inv in H.
    destruct H as [([] & s0 & H1 & H2) | (e & _ & H)]; [|discriminate H].
    apply Release_execute_step_ok in H1. destruct H1 as (s' & E & ->).
    destruct (IH _ H2) as (A1 & A2 & A3 & A4 & A5 & (t & A6 & A7)).
    clear IH H2.
    destruct (announce_fields a s) as (_ & J & _ & B1 & B2 & B3 & B4).
    pose proof E as R. apply same_rel_Step_execute in R.
    unfold same_rel in R.
    apply Step_execute_calls in E. destruct E as (C1 & (t' & C2 & C3)).
    cbn [append_executed snd rel journal steps executed_steps exceptions
         stdout_variable bind get_rel put_rel] in *.
    rewrite R in *. rewrite J in *.
    rewrite A1, A2, A3, A4, A5, A6, B1, B2, B3, B4, C1.
    repeat split.
    + rewrite <- app_assoc. reflexivity.
    + rewrite <- app_assoc. reflexivity.
    + exists (t' ++ t). rewrite C2, <- app_assoc. split; [reflexivity|].
      rewrite forallb_app, C3, A7. reflexivity.
Qed.

(** ** A run that fails at some step *)

Lemma Release_execute_raises s e s3 :
  Release_execute_loop (steps (rel s)) s = (Raise e, s3) ->
  Release_execute s = (Raise e, s3).
Proof.
  intro H. unfold Release_execute. unfold bind at 1, get_rel at 1.
  unfold bind at 1. rewrite H. reflexivity.
Qed.

Lemma failure_outcome nm pre a post given s e s2 :
  rel s = Release_init nm (pre ++ a :: post) given ->
  fails_at s pre a e s2 ->
  (forall r s3, handler a e s2 = (r, s3) -> Release_execute s = (r, s3)) /\
  executed_steps (rel s2) = pre /\
  exceptions (rel s2) = [] /\
  execute_calls (journal s2) = execute_calls (journal s) ++ pre ++ [a] /\
  rollback_calls (journal s2) = rollback_calls (journal s) /\
  exists t, journal s2 = journal s ++ t /\ forallb execute_side t = true.
Proof.
  intros R (s1 & L & E).
  destruct (Release_execute_loop_ok _ _ L) as (A1 & A2 & A3 & _ & A5 & t & A6 & A7).
  destruct (announce_fields a s1) as (_ & J & _ & B1 & B2 & B3 & _).
  pose proof E as Q. apply same_rel_Step_execute in Q. unfold same_rel in Q.
  pose proof E as C. apply Step_execute_calls in C.
  destruct C as (C1 & t' & C2 & C3).
  rewrite R in A2, A3. cbn [Release_init executed_steps exceptions] in A2, A3.
  assert (G : exists t0, journal s2 = journal s ++ t0 /\
                         forallb execute_side t0 = true).
  { exists (t ++ t'). rewrite C2, J, A6, <- app_assoc. split; [reflexivity|].
    rewrite forallb_app, A7, C3. reflexivity. }
  split; [|repeat split].
  - intros r s3 H.
    pose proof H as H'. apply handler_ends_raising in H'.
    destruct H' as (e' & ->).
    apply Release_execute_raises. rewrite R. cbn [Release_init steps].
    rewrite Release_execute_loop_app, L. simpl. unfold bind.
    pose proof (Release_execute_step_cases a s1) as K. rewrite E in K.
    rewrite K, H. reflexivity.
  - rewrite Q, B2. exact A2.
  - rewrite Q, B3. exact A3.
  - rewrite C1, J, A5, <- app_assoc. reflexivity.
  - destruct G as (t0 & G1 & G2). rewrite G1, rollback_calls_app.
    rewrite (@rollback_calls_none execute_side t0 execute_side_no_rollback G2).
    apply app_nil_r.
  - exact G.
Qed.

Lemma handled_failure nm pre a post given s e s2 :
  rel s = Release_init nm (pre ++ a :: post) given ->
  fails_at s pre a e s2 ->
  handled e = true ->
  exists s_entry,
    Release_execute s = (Raise e, snd (Release_rollback s_entry)) /\
    world s_entry = world s2 /\ heap s_entry = heap s2 /\
    journal s_entry = journal s2 /\
    executed_steps (rel s_entry) =
      pre ++ (if appends_step e then [a] else []) /\
    exceptions (rel s_entry) = [e].
Proof.
  intros R F H.
  destruct (@failure_outcome nm pre a post given s e s2 R F)
    as (A & B1 & B2 & _).
  destruct (@handler_enters a e s2 H)
    as (s_entry & E & W & Hp & J & _ & X1 & X2).
  exists s_entry. rewrite B1 in X1. rewrite B2 in X2.
  repeat split; auto.
  apply A. rewrite E. apply rollback_then_raise.
  rewrite X2. simpl. rewrite (@handled_has_explain e H). reflexivity.
Qed.

Lemma Release_rollback_frame s :
  heap (snd (Release_rollback s)) = heap s /\
  steps (rel (snd (Release_rollback s))) = steps (rel s) /\
  executed_steps (rel (snd (Release_rollback s))) = executed_steps (rel s) /\
  exists t, journal (snd (Release_rollback s)) = journal s ++ t /\
            forallb rollback_side t = true.
Proof.
  destruct (Release_rollback s) as [r s'] eqn:E. cbn [snd].
  pose proof E as E1. apply same_heap_Release_rollback in E1.
  pose proof E as E2. apply same_lists_Release_rollback in E2.
  destruct E2 as [E2 E3].
  apply grows_Release_rollback in E. auto.
Qed.

Lemma filter_execute_side_app j t :
  forallb rollback_side t = true ->
  filter execute_side (j ++ t) = filter execute_side j.
Proof.
  intro F. rewrite filter_app.
  rewrite (@filter_none rollback_side execute_side t
             rollback_side_not_execute F).
  apply app_nil_r.
Qed.

Lemma failure_journal nm pre a post given s e s2 r s3 :
  rel s = Release_init nm (pre ++ a :: post) given ->
  fails_at s pre a e s2 ->
  handler a e s2 = (r, s3) ->
  execute_calls (journal s3) = execute_calls (journal s) ++ pre ++ [a] /\
  filter execute_side (journal s3) = filter execute_side (journal s2).
Proof.
  intros R F H.
  destruct (@failure_outcome nm pre a post given s e s2 R F)
    as (_ & _ & _ & B & _).
  apply grows_handler in H. destruct H as (t & Et & Ft).
  rewrite Et. split.
  - rewrite execute_calls_app, B.
    rewrite (@execute_calls_none rollback_side t rollback_side_no_call Ft).
    apply app_nil_r.
  - apply filter_execute_side_app. exact Ft.
Qed.

Lemma failure_raises nm pre a post given s e s2 :
  rel s = Release_init nm (pre ++ a :: post) given ->
  fails_at s pre a e s2 ->
  exists s3,
    Release_execute s = (Raise e, s3) /\ handler a e s2 = (Raise e, s3).
Proof.
  intros R F.
  destruct (@failure_outcome nm pre a post given s e s2 R F)
    as (A & _ & B2 & _).
  destruct (handled e) eqn:H.
  - destruct (@handler_enters a e s2 H) as (s_entry & E & _ & _ & _ & _ & _ & X).
    assert (G : handler a e s2 = (Raise e, snd (Release_rollback s_entry))).
    { rewrite E. apply rollback_then_raise. rewrite X, B2. simpl.
      rewrite (@handled_has_explain e H). reflexivity. }
    exists (snd (Release_rollback s_entry)). split; [apply A|]; exact G.
  - exists s2. pose proof (@handler_unhandled a e s2 H) as G.
    split; [apply A|]; exact G.
Qed.

(** The collaborators of a step and what it has stored are the same
    just before [step.execute()] as at the start of the turn. *)
Lemma announced a s :
  world (snd (announce a s)) = world s /\
  check (heap (snd (announce a s)) a) = check (heap s a) /\
  precondition (heap (snd (announce a s)) a) = precondition (heap s a) /\
  action (heap (snd (announce a s)) a) = action (heap s a) /\
  expected (heap (snd (announce a s)) a) = expected (heap s a) /\
  name (heap (snd (announce a s)) a) = name (heap s a).
Proof.
  destruct (announce_fields a s) as (W & _).
  destruct (announce_heap a s a) as (N & C & Pr & Ex & Ac & _).
  auto 10.
Qed.

Lemma cascade_stops l s :
  fst (cascade l s) = l \/
  exists k b e s1 s1',
    fst (cascade l s) = firstn (S k) l /\
    nth_error l k = Some b /\
    Step_rollback b s1 = (Raise e, s1').
Proof.
  revert s. induction l as [|a l IH]; intro s; simpl.
  - left. reflexivity.
  - destruct (Step_rollback a s) as [[[]|e] s1] eqn:E.
    + specialize (IH s1). destruct (cascade l s1) as [called s']. simpl in *.
      destruct IH as [-> | (k & b & e & t1 & t1' & H1 & H2 & H3)].
      * left. reflexivity.
      * right. exists (S k), b, e, t1, t1'. rewrite H1. auto.
    + right. exists 0, a, e, s, s1. simpl. destruct l; auto.
Qed.

(** ** The order of the calls *)

(** C3.  In a run of [Release.execute] in which the steps [pre] went
    through and the next step raises an [ExecutionError], that error is
    raised to the caller and the step is appended to [executed_steps]
    exactly when the phase of the error is CHECK_FINAL.  In particular,
    when the action of the first step raises, [Release.execute] raises an
    [ExecutionError] of phase EXECUTE, [executed_steps] has length 0, and
    the only [execute()] call made is that of the first step. *)
Theorem execution_error_commits_iff_check_final :
  (forall nm pre a post given s n ph tr s2,
     rel s = Release_init nm (pre ++ a :: post) given ->
     fails_at s pre a (ExecutionError n ph tr) s2 ->
     exists s3,
       Release_execute s = (Raise (ExecutionError n ph tr), s3) /\
       (ph = CHECK_FINAL -> executed_steps (rel s3) = pre ++ [a]) /\
       (ph <> CHECK_FINAL -> executed_steps (rel s3) = pre))
  /\
  (forall nm a post given s i w1 e w2,
     rel s = Release_init nm (a :: post) given ->
     check (heap s a) (world s) = (Ok i, w1) ->
     precondition (heap s a) i = Ok true ->
     action (heap s a) i w1 = (Raise e, w2) ->
     exists s3,
       Release_execute s =
         (Raise (ExecutionError (name (heap s a)) EXECUTE (format_exc e)),
          s3) /\
       List.length (executed_steps (rel s3)) = 0 /\
       execute_calls (journal s3) = execute_calls (journal s) ++ [a]).
Proof.
  assert (G : forall nm pre a post given s n ph tr s2,
     rel s = Release_init nm (pre ++ a :: post) given ->
     fails_at s pre a (ExecutionError n ph tr) s2 ->
     exists s3,
       Release_execute s = (Raise (ExecutionError n ph tr), s3) /\
       executed_steps (rel s3) =
         pre ++ (if Phase_eqb ph CHECK_FINAL then [a] else []) /\
       execute_calls (journal s3) = execute_calls (journal s) ++ pre ++ [a]).
  { intros nm pre a post given s n ph tr s2 R F.
    destruct (@handled_failure nm pre a post given s _ s2 R F eq_refl)
      as (s_entry & E & _ & _ & J & X1 & _).
    destruct (@failure_outcome nm pre a post given s _ s2 R F)
      as (A & _).
    destruct (@failure_raises nm pre a post given s _ s2 R F)
      as (s3 & E3 & H3).
    destruct (@failure_journal nm pre a post given s _ s2 _ s3 R F H3)
      as (C & _).
    rewrite E in E3. inversion E3 as [Q].
    destruct (Release_rollback_frame s_entry) as (_ & _ & F3 & _).
    exists (snd (Release_rollback s_entry)).
    split; [exact E|]. split; [rewrite F3; exact X1|].
    rewrite Q. exact C. }
  split.
  - intros nm pre a post given s n ph tr s2 R F.
    destruct (G nm pre a post given s n ph tr s2 R F) as (s3 & E & X & _).
    exists s3. split; [exact E|]. split; intro H.
    + rewrite X, H. reflexivity.
    + rewrite X. destruct (Phase_eqb ph CHECK_FINAL) eqn:Q.
      * apply Phase_eqb_eq in Q. contradiction.
      * apply app_nil_r.
  - intros nm a post given s i w1 e w2 R H1 H2 H3.
    destruct (announced a s) as (W & C & Pr & Ac & _ & N).
    destruct (@Step_execute_action_raises a (snd (announce a s)) i w1 e w2)
      as (s2 & E & _); try (rewrite ?W, ?C, ?Pr, ?Ac; assumption).
    rewrite N in E.
    destruct (G nm [] a post given s (name (heap s a)) EXECUTE
                (format_exc e) s2 R) as (s3 & E3 & X & Y).
    { exists s. split; [reflexivity | exact E]. }
    exists s3. split; [exact E3|]. split; [rewrite X; reflexivity|].
    exact Y.
Qed.

(** C7.  [Release.execute] calls [execute()] on the steps in the order of
    [self.steps]: in any run the calls made are an initial segment of the
    list, all of it when the run returns.  When the steps [pre] went
    through and the next step raises, whatever the exception, the run
    raises it, the calls made are those on [pre] and on that step, and
    nothing is entered in the journal on behalf of an [execute()] after
    the failure. *)
Theorem steps_in_order_halt_at_failure :
  (forall s r s',
     Release_execute s = (r, s') ->
     exists k,
       execute_calls (journal s') =
         execute_calls (journal s) ++ firstn k (steps (rel s)) /\
       (r = Ok tt -> k = List.length (steps (rel s))))
  /\
  (forall nm pre a post given s e s2,
     rel s = Release_init nm (pre ++ a :: post) given ->
     fails_at s pre a e s2 ->
     exists s3,
       Release_execute s = (Raise e, s3) /\
       execute_calls (journal s3) =
         execute_calls (journal s) ++ pre ++ [a] /\
       filter execute_side (journal s3) = filter execute_side (journal s2)).
Proof.
  split.
  - assert (L : forall l s r s',
      Release_execute_loop l s = (r, s') ->
      exists k,
        execute_calls (journal s') = execute_calls (journal s) ++ firstn k l /\
        (r = Ok tt -> k = List.length l)).
    { induction l as [|a l IH]; intros s r s' H.
      - inversion H; subst. exists 0. rewrite app_nil_r. auto.
      - simpl in H. apply bind_inv in H.
        destruct H as [([] & s1 & H1 & H2) | (e & H1 & ->)].
        + apply Release_execute_step_calls in H1.
          destruct (IH _ _ _ H2) as (k & E & K).
          exists (S k). simpl. rewrite E, H1, <- app_assoc. split; auto.
        + apply Release_execute_step_calls in H1.
          exists 1. simpl. split; [exact H1 | discriminate]. }
    intros s r s' H. unfold Release_execute in H.
    unfold bind at 1, get_rel at 1 in H.
    apply bind_inv in H.
    destruct H as [([] & s1 & H1 & H2) | (e & H1 & ->)].
    + destruct (L _ _ _ _ H1) as (k & E & K).
      exists k. split; [|intros _; auto].
      rewrite <- E. unfold bind, get_rel in H2.
      destruct (stdout_variable (rel s1)).
      * inversion H2; subst. reflexivity.
      * inversion H2; subst. reflexivity.
    + destruct (L _ _ _ _ H1) as (k & E & K).
      exists k. split; [exact E | discriminate].
  - intros nm pre a post given s e s2 R F.
    destruct (@failure_raises nm pre a post given s e s2 R F)
      as (s3 & E3 & H3).
    destruct (@failure_journal nm pre a post given s e s2 _ s3 R F H3)
      as (C1 & C2).
    exists s3. auto.
Qed.


Lemma Release_rollback_enters s :
  exists t,
    journal (snd (Release_rollback s)) = journal s ++ EvReleaseRollback :: t /\
    forallb rollback_side t = true.
Proof.
  assert (B : preserves (grows rollback_side)
                (r <- get_rel ;;
                 Release_rollback_loop (executed_steps r) ;;
                 explain_exceptions)).
  { frame_walk;
      auto using grows_Release_rollback_loop, grows_explain_exceptions. }
  unfold Release_rollback. unfold bind at 1, log at 1.
  match goal with
  | |- context [bind ?m ?k ?s0] => destruct (bind m k s0) as [r s'] eqn:E
  end.
  apply B in E. destruct E as (t & E & F). cbn [snd journal] in *.
  exists t. split; [|exact F]. rewrite E, <- app_assoc. reflexivity.
Qed.

Lemma action_invoked_app j t a :
  action_invoked (j ++ t) a = action_invoked j a || action_invoked t a.
Proof. unfold action_invoked. apply existsb_app. Qed.

Lemma rollback_invoked_app j t :
  rollback_invoked (j ++ t) = rollback_invoked j || rollback_invoked t.
Proof. unfold rollback_invoked. apply existsb_app. Qed.

Lemma rollback_invoked_execute_side t :
  forallb execute_side t = true -> rollback_invoked t = false.
Proof.
  unfold rollback_invoked. apply existsb_none.
  intros ev H. destruct ev; auto; discriminate H.
Qed.

(** C5.  When the check of a step succeeds and its precondition returns
    false on the state observed, [Step.execute] raises a
    [PreconditionError] with the step's name and that state, and the
    journal shows the check and the precondition and no call of the
    action.  In a run of [Release.execute] that reaches such a step after
    the steps [pre], the error is raised to the caller and
    [executed_steps] is [pre]: the step is not added. *)
Theorem precondition_failure_skips_action :
  (forall self s i w1,
     check (heap s self) (world s) = (Ok i, w1) ->
     precondition (heap s self) i = Ok false ->
     exists s',
       Step_execute self s =
         (Raise (PreconditionError (name (heap s self)) i), s') /\
       journal s' = journal s ++ [EvExecute self; EvCall self CHECK_INITIAL;
                                  EvObserved self CHECK_INITIAL i;
                                  EvPrecondition self] /\
       action_invoked (journal s') self = action_invoked (journal s) self)
  /\
  (forall nm pre a post given s s1 i w1,
     rel s = Release_init nm (pre ++ a :: post) given ->
     Release_execute_loop pre s = (Ok tt, s1) ->
     check (heap s1 a) (world s1) = (Ok i, w1) ->
     precondition (heap s1 a) i = Ok false ->
     exists s3,
       Release_execute s =
         (Raise (PreconditionError (name (heap s1 a)) i), s3) /\
       executed_steps (rel s3) = pre /\
       action_invoked (journal s3) a = action_invoked (journal s1) a).
Proof.
  split.
  - intros self s i w1 H1 H2.
    destruct (Step_execute_precondition_false _ _ H1 H2)
      as (s' & E & J & _).
    exists s'. split; [exact E|]. split; [exact J|].
    rewrite J, action_invoked_app. simpl. apply orb_false_r.
  - intros nm pre a post given s s1 i w1 R L H1 H2.
    destruct (announced a s1) as (W & C & Pr & Ac & _ & N).
    destruct (@Step_execute_precondition_false a (snd (announce a s1)) i w1)
      as (s2 & E & J & _); try (rewrite ?W, ?C, ?Pr; assumption).
    rewrite N in E.
    assert (F : fails_at s pre a (PreconditionError (name (heap s1 a)) i) s2).
    { exists s1. auto. }
    destruct (@handled_failure nm pre a post given s _ s2 R F eq_refl)
      as (s_entry & E3 & _ & _ & J3 & X1 & _).
    cbn [appends_step] in X1. rewrite app_nil_r in X1.
    destruct (Release_rollback_frame s_entry) as (_ & _ & F3 & t & F4 & F5).
    exists (snd (Release_rollback s_entry)).
    split; [exact E3|]. split; [rewrite F3; exact X1|].
    rewrite F4, J3, J, !action_invoked_app.
    destruct (announce_fields a s1) as (_ & -> & _).
    assert (Z : action_invoked t a = false).
    { unfold action_invoked.
      apply (@existsb_none rollback_side _ t); [|exact F5].
      intros ev Hev. destruct ev as [| |b p| | |]; auto.
      destruct p; auto; discriminate Hev. }
    rewrite Z. simpl. rewrite !orb_false_r. reflexivity.
Qed.

(** C6.  When the action of a step succeeds and the state observed after
    it differs from the expected one, [Step.execute] raises a
    [PostconditionError] with the step's name, the final state and the
    expected state.  In a run of [Release.execute] that reaches such a
    step after the steps [pre], [Release.rollback] is entered in a state
    [s_entry] where the error is recorded and the step is already the
    last element of [executed_steps]; the run ends in the state the
    rollback leaves, raising that error. *)
Theorem postcondition_failure_commits_step :
  (forall self s i w1 w2 final w3,
     check (heap s self) (world s) = (Ok i, w1) ->
     precondition (heap s self) i = Ok true ->
     action (heap s self) i w1 = (Ok tt, w2) ->
     check (heap s self) w2 = (Ok final, w3) ->
     final <> expected (heap s self) ->
     exists s',
       Step_execute self s =
         (Raise (PostconditionError (name (heap s self)) final
                   (expected (heap s self))), s'))
  /\
  (forall nm pre a post given s s1 i w1 w2 final w3,
     rel s = Release_init nm (pre ++ a :: post) given ->
     Release_execute_loop pre s = (Ok tt, s1) ->
     check (heap s1 a) (world s1) = (Ok i, w1) ->
     precondition (heap s1 a) i = Ok true ->
     action (heap s1 a) i w1 = (Ok tt, w2) ->
     check (heap s1 a) w2 = (Ok final, w3) ->
     final <> expected (heap s1 a) ->
     exists s_entry,
       Release_execute s =
         (Raise (PostconditionError (name (heap s1 a)) final
                   (expected (heap s1 a))),
          snd (Release_rollback s_entry)) /\
       executed_steps (rel s_entry) = pre ++ [a] /\
       exceptions (rel s_entry) =
         [PostconditionError (name (heap s1 a)) final
            (expected (heap s1 a))] /\
       executed_steps (rel (snd (Release_rollback s_entry))) = pre ++ [a] /\
       rollback_invoked (journal (snd (Release_rollback s_entry))) = true).
Proof.
  split.
  - intros self s i w1 w2 final w3 H1 H2 H3 H4 H5.
    destruct (Step_execute_postcondition_fails _ _ H1 H2 H3 H4 H5)
      as (s' & E & _).
    exists s'. exact E.
  - intros nm pre a post given s s1 i w1 w2 final w3 R L H1 H2 H3 H4 H5.
    destruct (announced a s1) as (W & C & Pr & Ac & Ex & N).
    destruct (@Step_execute_postcondition_fails a (snd (announce a s1))
                i w1 w2 final w3)
      as (s2 & E & _); try (rewrite ?W, ?C, ?Pr, ?Ac, ?Ex; assumption).
    rewrite N, Ex in E.
    assert (F : fails_at s pre a
                  (PostconditionError (name (heap s1 a)) final
                     (expected (heap s1 a))) s2).
    { exists s1. auto. }
    destruct (@handled_failure nm pre a post given s _ s2 R F eq_refl)
      as (s_entry & E3 & _ & _ & _ & X1 & X2).
    cbn [appends_step] in X1.
    destruct (Release_rollback_frame s_entry) as (_ & _ & F3 & _).
    exists s_entry.
    split; [exact E3|]. split; [exact X1|]. split; [exact X2|].
    split; [rewrite F3; exact X1|].
    destruct (Release_rollback_enters s_entry) as (t & G1 & _).
    rewrite G1, !rollback_invoked_app. simpl.
    rewrite orb_true_r. reflexivity.
Qed.

(** C9 (as amended).  When the precondition predicate of a step raises,
    [Step.execute] raises that exception as it is, after the check and
    with no call of the action.  When the exception is of none of the
    three classes that [Release.execute] has a clause for, a run that
    reaches the step after the steps [pre] raises it as it is, records no
    error, does not enter [Release.rollback], and [executed_steps] is
    [pre]. *)
Theorem precondition_exception_propagates :
  (forall self s i w1 e,
     check (heap s self) (world s) = (Ok i, w1) ->
     precondition (heap s self) i = Raise e ->
     exists s',
       Step_execute self s = (Raise e, s') /\
       journal s' = journal s ++ [EvExecute self; EvCall self CHECK_INITIAL;
                                  EvObserved self CHECK_INITIAL i;
                                  EvPrecondition self])
  /\
  (forall nm pre a post given s s1 i w1 e,
     rel s = Release_init nm (pre ++ a :: post) given ->
     Release_execute_loop pre s = (Ok tt, s1) ->
     check (heap s1 a) (world s1) = (Ok i, w1) ->
     precondition (heap s1 a) i = Raise e ->
     handled e = false ->
     exists s3,
       Release_execute s = (Raise e, s3) /\
       exceptions (rel s3) = [] /\
       executed_steps (rel s3) = pre /\
       rollback_invoked (journal s3) = rollback_invoked (journal s)).
Proof.
  split.
  - intros self s i w1 e H1 H2.
    destruct (Step_execute_precondition_raises _ _ H1 H2)
      as (s' & E & J & _).
    exists s'. auto.
  - intros nm pre a post given s s1 i w1 e R L H1 H2 H.
    destruct (announced a s1) as (W & C & Pr & _).
    destruct (@Step_execute_precondition_raises a (snd (announce a s1))
                i w1 e)
      as (s2 & E & _); try (rewrite ?W, ?C, ?Pr; assumption).
    assert (F : fails_at s pre a e s2) by (exists s1; auto).
    destruct (@failure_outcome nm pre a post given s e s2 R F)
      as (A & B1 & B2 & _ & _ & t & B5 & B6).
    exists s2. split; [apply A; apply handler_unhandled; exact H|].
    split; [exact B2|]. split; [exact B1|].
    rewrite B5, rollback_invoked_app.
    rewrite (rollback_invoked_execute_side _ B6). apply orb_false_r.
Qed.

(** ** A run in which every step passes *)

Lemma same_static_refl st : same_static st st.
Proof. repeat split. Qed.

Lemma same_static_trans st1 st2 st3 :
  same_static st1 st2 -> same_static st2 st3 -> same_static st1 st3.
Proof.
  unfold same_static.
  intros (A1 & A2 & A3 & A4 & A5 & A6) (B1 & B2 & B3 & B4 & B5 & B6).
  repeat split; congruence.
Qed.

#[local] Instance static_heap_frame : Frame static_heap.
Proof.
  split.
  - intros s b. apply same_static_refl.
  - intros s1 s2 s3 H1 H2 b. eapply same_static_trans; eauto.
Qed.

Lemma static_heap_of_same_heap s s' : same_heap s s' -> static_heap s s'.
Proof. unfold same_heap. intros E b. rewrite E. apply same_static_refl. Qed.

Lemma static_heap_log ev : preserves static_heap (log ev).
Proof. frame_prim @log. intro b. apply same_static_refl. Qed.

Lemma static_heap_call A (f : World -> result State A * World) :
  preserves static_heap (call f).
Proof. frame_prim @call. intro b. apply same_static_refl. Qed.

Lemma static_heap_print t e : preserves static_heap (print t e).
Proof. frame_prim @print. intro b. apply same_static_refl. Qed.

Lemma static_heap_record_initial a i :
  preserves static_heap (record_initial a i).
Proof.
  frame_prim @record_initial. intro b. simpl.
  destruct (Nat.eqb b a) eqn:E.
  - apply Nat.eqb_eq in E. subst b. repeat split.
  - apply same_static_refl.
Qed.

#[local] Hint Resolve static_heap_log static_heap_call static_heap_print
  static_heap_record_initial : frames.

Lemma static_heap_print_indented l m n e :
  preserves static_heap (print_indented l m n e).
Proof. unfold print_indented. frame_walk; auto with frames. Qed.

#[local] Hint Resolve static_heap_print_indented : frames.

Lemma static_heap_wrap A a p (m : M A) :
  preserves static_heap m -> preserves static_heap (wrap a p m).
Proof. intro H. unfold wrap. frame_walk; auto with frames. Qed.

Lemma static_heap_Step_execute a : preserves static_heap (Step_execute a).
Proof.
  unfold Step_execute, check_initial, check_final, self_action,
    self_precondition.
  frame_walk; auto with frames;
    apply static_heap_wrap; frame_walk; auto with frames.
Qed.

Lemma pass_static st st' w : same_static st st' -> pass st' w = pass st w.
Proof.
  intros (_ & A2 & A3 & A4 & A5 & _). unfold pass.
  rewrite A2, A3, A4, A5. reflexivity.
Qed.

Lemma all_pass_static h h' l w :
  (forall b, same_static (h b) (h' b)) -> all_pass h' l w = all_pass h l w.
Proof.
  intro H. revert w. induction l as [|a l IH]; intro w; simpl; auto.
  rewrite (@pass_static (h a) (h' a) w (H a)).
  destruct (pass (h a) w); auto.
Qed.

Lemma pass_inv st w w' :
  pass st w = Some w' ->
  exists i w1 w2,
    check st w = (Ok i, w1) /\ precondition st i = Ok true /\
    action st i w1 = (Ok tt, w2) /\
    check st w2 = (Ok (expected st), w').
Proof.
  unfold pass.
  destruct (check st w) as [[i|e] w1] eqn:E1; [|discriminate].
  destruct (precondition st i) as [[|]|e] eqn:E2; try discriminate.
  destruct (action st i w1) as [[[]|e] w2] eqn:E3; [|discriminate].
  destruct (check st w2) as [[f|e] w3] eqn:E4; [|discriminate].
  destruct (State_eq_dec f (expected st)) as [->|]; [|discriminate].
  intro H. inversion H; subst. exists i, w1, w2. auto.
Qed.

Lemma all_pass_run l s :
  all_pass (heap s) l (world s) = true ->
  exists s1, Release_execute_loop l s = (Ok tt, s1).
Proof.
  revert s. induction l as [|a l IH]; intros s H.
  - exists s. reflexivity.
  - simpl in H. destruct (pass (heap s a) (world s)) as [w'|] eqn:E;
      [|discriminate H].
    apply pass_inv in E. destruct E as (i & w1 & w2 & H1 & H2 & H3 & H4).
    destruct (announced a s) as (W & C & Pr & Ac & Ex & N).
    destruct (@Step_execute_succeeds a (snd (announce a s)) i w1 w2 w')
      as (s1 & E & _ & W1 & _); try (rewrite ?W, ?C, ?Pr, ?Ac, ?Ex; assumption).
    pose proof (Release_execute_step_cases a s) as K. rewrite E in K.
    assert (S1 : forall b, same_static (heap s b) (heap s1 b)).
    { intro b. apply same_static_trans with (heap (snd (announce a s)) b).
      - destruct (announce_heap a s b) as (X1 & X2 & X3 & X4 & X5 & X6 & _).
        repeat split; assumption.
      - apply static_heap_Step_execute in E. apply E. }
    destruct (IH (snd (append_executed a s1))) as (s2 & L).
    { cbn [append_executed bind get_rel put_rel snd heap world].
      rewrite (@all_pass_static (heap s) (heap s1) l (world s1) S1), W1.
      exact H. }
    exists s2. simpl. unfold bind. rewrite K. exact L.
Qed.

(** C8.  A release over steps that all pass, started afresh:
    [Release.execute] returns, [executed_steps] is the list of the steps,
    so of the same length, no error is recorded and [Release.rollback] is
    not entered. *)
Theorem all_steps_pass (w : World) (h : addr -> Step) (nm : string)
    (l : list addr) (given : option string) :
  all_pass h l w = true ->
  exists s',
    Release_execute (boot w h (Release_init nm l given)) = (Ok tt, s') /\
    executed_steps (rel s') = l /\
    List.length (executed_steps (rel s')) = List.length l /\
    exceptions (rel s') = [] /\
    rollback_invoked (journal s') = false /\
    rollback_calls (journal s') = [] /\
    execute_calls (journal s') = l.
Proof.
  intro H.
  destruct (@all_pass_run l (boot w h (Release_init nm l given)) H)
    as (s1 & L).
  destruct (Release_execute_loop_ok _ _ L)
    as (_ & A2 & A3 & _ & A5 & t & A6 & A7).
  cbn in A2, A3, A5, A6.
  assert (E : exists s',
    Release_execute (boot w h (Release_init nm l given)) = (Ok tt, s') /\
    rel s' = rel s1 /\ journal s' = journal s1).
  { unfold Release_execute. unfold bind at 1, get_rel at 1.
    cbn [boot rel Release_init steps]. unfold bind at 1. rewrite L.
    unfold bind, get_rel, print, ret.
    destruct (stdout_variable (rel s1)); eexists; repeat split. }
  destruct E as (s' & E & R & J).
  exists s'. rewrite R, J, A2, A3, A5, A6.
  repeat split; auto.
  - apply rollback_invoked_execute_side. exact A7.
  - apply (@rollback_calls_none execute_side t execute_side_no_rollback A7).
Qed.

(** ** What a step has stored in [initial] *)

#[local] Instance tracks_frame : Frame tracks.
Proof. split; unfold tracks; auto. Qed.

Lemma tracks_same s s' :
  heap s' = heap s -> journal s' = journal s -> tracks s s'.
Proof. intros H J I b i. rewrite H, J. apply I. Qed.

Lemma tracks_log ev :
  (forall b, observed_initial ev b = None) -> preserves tracks (log ev).
Proof.
  intro N. frame_prim @log. intros I b i. simpl.
  rewrite last_initial_app. simpl. rewrite N.
  destruct (last_initial (journal s) b) eqn:E; [|discriminate].
  intro H. apply I. rewrite E. exact H.
Qed.

Lemma tracks_call A (f : World -> result State A * World) :
  preserves tracks (call f).
Proof. frame_prim @call. apply tracks_same; reflexivity. Qed.

Lemma tracks_print t e : preserves tracks (print t e).
Proof. frame_prim @print. apply tracks_same; reflexivity. Qed.

Lemma tracks_record_initial a i : preserves tracks (record_initial a i).
Proof.
  frame_prim @record_initial. intros I b j. simpl.
  rewrite last_initial_app. simpl.
  destruct (Nat.eqb_spec b a) as [->|N].
  - rewrite Nat.eqb_refl. intro H. inversion H. reflexivity.
  - destruct (Nat.eqb_spec a b) as [->|_]; [contradiction N; reflexivity|].
    destruct (last_initial (journal s) b) eqn:E; [|discriminate].
    intro H. apply I. rewrite E. exact H.
Qed.

#[local] Hint Resolve tracks_call tracks_print tracks_record_initial
  : frames.

Lemma tracks_print_indented l m n e :
  preserves tracks (print_indented l m n e).
Proof. unfold print_indented. frame_walk; auto with frames. Qed.

#[local] Hint Resolve tracks_print_indented : frames.

Lemma tracks_wrap A a p (m : M A) :
  preserves tracks m -> preserves tracks (wrap a p m).
Proof.
  intro H. unfold wrap. frame_walk; auto with frames.
  apply tracks_log. reflexivity.
Qed.

Lemma tracks_Step_execute a : preserves tracks (Step_execute a).
Proof.
  unfold Step_execute, check_initial, check_final, self_action,
    self_precondition.
  frame_walk; auto with frames;
    try (apply tracks_log; reflexivity);
    apply tracks_wrap; frame_walk; auto with frames.
Qed.

Lemma same_heap_handler step e : preserves same_heap (handler step e).
Proof.
  destruct e; unfold handler, append_exception, append_executed;
    frame_walk; auto using same_heap_Release_rollback with frames.
Qed.

Lemma last_initial_rollback_side t b :
  forallb rollback_side t = true -> last_initial t b = None.
Proof.
  apply last_initial_none. intros ev H.
  destruct ev as [| | | |c p st|]; auto. destruct p; auto; discriminate H.
Qed.

Lemma last_initial_grows j t b :
  last_initial j b <> None -> last_initial (j ++ t) b <> None.
Proof.
  intro H. rewrite last_initial_app.
  destruct (last_initial t b); [discriminate | exact H].
Qed.

Lemma Step_execute_observed a s r s' :
  Step_execute a s = (r, s') ->
  (exists n tr, r = Raise (ExecutionError n CHECK_INITIAL tr)) \/
  last_initial (journal s') a <> None.
Proof.
  intro H.
  assert (G : forall i t,
    journal s' = journal s ++ EvExecute a :: EvCall a CHECK_INITIAL ::
                 EvObserved a CHECK_INITIAL i :: t ->
    last_initial (journal s') a <> None).
  { intros i t E. rewrite E.
    change (journal s ++ EvExecute a :: EvCall a CHECK_INITIAL ::
              EvObserved a CHECK_INITIAL i :: t)
      with (journal s ++ [EvExecute a; EvCall a CHECK_INITIAL;
                          EvObserved a CHECK_INITIAL i] ++ t).
    rewrite app_assoc. apply last_initial_grows.
    rewrite last_initial_app. simpl. rewrite Nat.eqb_refl. discriminate. }
  destruct (check (heap s a) (world s)) as [[i|e] w1] eqn:C1.
  - right.
    destruct (precondition (heap s a) i) as [[|]|e] eqn:C2.
    + destruct (action (heap s a) i w1) as [[[]|e] w2] eqn:C3.
      * destruct (check (heap s a) w2) as [[f|e] w3] eqn:C4.
        -- destruct (State_eq_dec f (expected (heap s a))) as [->|N].
           ++ destruct (Step_execute_succeeds _ _ C1 C2 C3 C4)
                as (x & E & J & _).
              rewrite E in H. inversion H; subst. eapply G, J.
           ++ destruct (Step_execute_postcondition_fails _ _ C1 C2 C3 C4 N)
                as (x & E & J & _).
              rewrite E in H. inversion H; subst. eapply G, J.
        -- destruct (Step_execute_check_final_raises _ _ C1 C2 C3 C4)
             as (x & E & J & _).
           rewrite E in H. inversion H; subst. eapply G, J.
      * destruct (Step_execute_action_raises _ _ C1 C2 C3)
          as (x & E & J & _).
        rewrite E in H. inversion H; subst. eapply G, J.
    + destruct (Step_execute_precondition_false _ _ C1 C2)
        as (x & E & J & _).
      rewrite E in H. inversion H; subst. eapply G, J.
    + destruct (Step_execute_precondition_raises _ _ C1 C2)
        as (x & E & J & _).
      rewrite E in H. inversion H; subst. eapply G, J.
  - left. destruct (Step_execute_check_raises _ _ C1) as (x & E & _).
    rewrite E in H. inversion H; subst. eauto.
Qed.

Lemma Release_execute_step_recorded a s r s' :
  Release_execute_step a s = (r, s') ->
  initial_recorded s /\ executed_observed s ->
  initial_recorded s' /\ executed_observed s'.
Proof.
  intros H [I1 I2].
  pose proof (Release_execute_step_cases a s) as K.
  destruct (announce_fields a s) as (_ & J & _ & _ & B2 & _).
  assert (I1' : initial_recorded (snd (announce a s))).
  { intro b. destruct (announce_heap a s b) as (_ & _ & _ & _ & _ & _ & X).
    rewrite X, J. apply I1. }
  destruct (Step_execute a (snd (announce a s))) as [[[]|e] s1] eqn:E.
  - rewrite K in H. inversion H; subst r s'. clear H K.
    pose proof E as T. apply tracks_Step_execute in T.
    pose proof E as Q. apply same_rel_Step_execute in Q. unfold same_rel in Q.
    pose proof E as O. apply Step_execute_observed in O.
    apply Step_execute_calls in E. destruct E as (_ & t & Et & _).
    split.
    + intro b. apply (T I1' b).
    + intros b Hb. cbn in Hb. rewrite Q, B2 in Hb.
      cbn [append_executed bind get_rel put_rel snd journal].
      apply in_app_or in Hb. destruct Hb as [Hb | [<- | []]].
      * rewrite Et, J. apply last_initial_grows. apply I2. exact Hb.
      * destruct O as [(n & tr & O) | O]; [discriminate O | exact O].
  - rewrite K in H. clear K.
    pose proof E as T. apply tracks_Step_execute in T.
    pose proof E as Q. apply same_rel_Step_execute in Q. unfold same_rel in Q.
    pose proof E as O. apply Step_execute_observed in O.
    apply Step_execute_calls in E. destruct E as (_ & t & Et & _).
    pose proof H as Hh. apply same_heap_handler in Hh.
    pose proof H as Hg. apply grows_handler in Hg.
    destruct Hg as (t' & Et' & Ft').
    split.
    + intro b. rewrite Hh, Et', last_initial_app.
      rewrite (last_initial_rollback_side _ b Ft'). apply (T I1' b).
    + intros b Hb. rewrite Et'. apply last_initial_grows.
      destruct (handled e) eqn:Hd.
      * destruct (@handler_enters a e s1 Hd)
          as (s_entry & X & _ & _ & _ & _ & X1 & _).
        assert (Z : executed_steps (rel s') = executed_steps (rel s_entry)).
        { rewrite X in H. unfold bind in H.
          destruct (Release_rollback s_entry) as [[[]|e'] s''] eqn:RR;
            inversion H; subst;
            apply same_lists_Release_rollback in RR; apply RR. }
        rewrite Z, X1, Q, B2 in Hb.
        apply in_app_or in Hb. destruct Hb as [Hb | Hb].
        -- rewrite Et, J. apply last_initial_grows. apply I2. exact Hb.
        -- destruct (appends_step e) eqn:Ap; [|destruct Hb].
           destruct Hb as [<- | []].
           destruct O as [(n & tr & O) | O]; [|exact O].
           inversion O; subst e. discriminate Ap.
      * rewrite (@handler_unhandled a e s1 Hd) in H. inversion H; subst s'.
        rewrite Q, B2 in Hb.
        rewrite Et, J. apply last_initial_grows. apply I2. exact Hb.
Qed.

Lemma Release_execute_loop_recorded l s r s' :
  Release_execute_loop l s = (r, s') ->
  initial_recorded s /\ executed_observed s ->
  initial_recorded s' /\ executed_observed s'.
Proof.
  revert s. induction l as [|a l IH]; intros s H I.
  - inversion H; subst. exact I.
  - simpl in H. apply bind_inv in H.
    destruct H as [([] & s1 & H1 & H2) | (e & H1 & _)].
    + eapply IH; [exact H2|].
      eapply Release_execute_step_recorded; eassumption.
    + eapply Release_execute_step_recorded; eassumption.
Qed.

Lemma Release_execute_recorded s r s' :
  Release_execute s = (r, s') ->
  initial_recorded s /\ executed_observed s ->
  initial_recorded s' /\ executed_observed s'.
Proof.
  intros H I. unfold Release_execute in H.
  unfold bind at 1, get_rel at 1 in H. apply bind_inv in H.
  destruct H as [([] & s1 & H1 & H2) | (e & H1 & _)].
  - apply (@Release_execute_loop_recorded _ _ _ _ H1) in I.
    assert (E : heap s' = heap s1 /\ journal s' = journal s1 /\
                rel s' = rel s1).
    { unfold bind, get_rel, print, ret in H2.
      destruct (stdout_variable (rel s1)); inversion H2; subst; auto. }
    destruct E as (E1 & E2 & E3). destruct I as [I1 I2].
    split; intro b; rewrite ?E1, ?E2, ?E3; auto.
  - eapply Release_execute_loop_recorded; eassumption.
Qed.

(** C10 (as amended).  In a release started afresh, whatever
    [Release.execute] does, every step in [executed_steps] holds in
    [initial] the value that its latest CHECK_INITIAL call returned, which
    is the state observed before its action ran; it is no longer [None]
    unless that check returned [None].  [Step.rollback] and
    [Release.rollback] leave the step objects and [executed_steps] as
    they are, and, once the rollback action and the check have gone
    through, the verification of [Step.rollback] passes exactly when the
    state observed is equal to that [initial]: the call returns when the
    two are equal and raises a [RollbackPostconditionError] carrying both
    when they differ. *)
Theorem executed_steps_hold_initial :
  (forall w h nm l given r s',
     Release_execute (boot w h (Release_init nm l given)) = (r, s') ->
     forall a, In a (executed_steps (rel s')) ->
       exists i,
         last_initial (journal s') a = Some i /\
         initial (heap s' a) = i /\
         (i <> none -> initial (heap s' a) <> none))
  /\
  (forall a s, heap (snd (Step_rollback a s)) = heap s)
  /\
  (forall s,
     heap (snd (Release_rollback s)) = heap s /\
     executed_steps (rel (snd (Release_rollback s))) =
       executed_steps (rel s))
  /\
  (forall a s w1 final w2,
     rollback_action (heap s a) (initial (heap s a)) (world s) =
       (Ok tt, w1) ->
     check (heap s a) w1 = (Ok final, w2) ->
     (final = initial (heap s a) -> fst (Step_rollback a s) = Ok tt) /\
     (final <> initial (heap s a) ->
      fst (Step_rollback a s) =
        Raise (RollbackPostconditionError (name (heap s a)) final
                 (initial (heap s a))))).
Proof.
  split; [|split; [|split]].
  - intros w h nm l given r s' H a Ha.
    apply Release_execute_recorded in H.
    + destruct H as [I1 I2]. specialize (I2 a Ha).
      destruct (last_initial (journal s') a) as [i|] eqn:E;
        [|contradiction I2; reflexivity].
      specialize (I1 a i E). exists i.
      split; [reflexivity|]. split; [exact I1|].
      intro N. rewrite I1. exact N.
    + split.
      * intros b i Hb. discriminate Hb.
      * intros b Hb. destruct Hb.
  - intros a s. destruct (Step_rollback a s) as [r s'] eqn:E.
    apply same_heap_Step_rollback in E. exact E.
  - intro s. destruct (Release_rollback_frame s) as (A1 & _ & A3 & _).
    split; assumption.
  - intros a s w1 final w2 C1 C2.
    rewrite (Step_rollback_verifies _ _ C1 C2).
    destruct (eq_initial final (initial (heap s a))) eqn:Q.
    + split; [reflexivity|].
      intro N. apply eq_initial_true in Q. contradiction N.
      symmetry. exact Q.
    + split; [|reflexivity].
      intro N. symmetry in N. apply eq_initial_true in N.
      rewrite N in Q. discriminate Q.
Qed.

(** ** What [Release.rollback] does to the recorded errors *)

#[local] Instance same_or_reversed_frame : Frame same_or_reversed.
Proof.
  split; unfold same_or_reversed.
  - auto.
  - intros s1 s2 s3 [A|A] [B|B]; rewrite B, A;
      [ left; reflexivity | right; reflexivity | right; reflexivity
      | left; apply rev_involutive ].
Qed.

Lemma same_or_reversed_of_same_rel s s' :
  same_rel s s' -> same_or_reversed s s'.
Proof. unfold same_rel. intro E. left. rewrite E. reflexivity. Qed.

Lemma same_or_reversed_Release_rollback :
  preserves same_or_reversed Release_rollback.
Proof.
  unfold Release_rollback, explain_exceptions. frame_walk;
    try solve [ apply preserves_weaken with (R := same_rel);
                [ exact same_or_reversed_of_same_rel | ];
                auto using same_rel_log, same_rel_Release_rollback_loop,
                  same_rel_print_indented, same_rel_explain_all ].
  intros s r s' H. unfold reverse_exceptions, bind, get_rel, put_rel in H.
  inversion H; subst. unfold same_or_reversed. right. reflexivity.
Qed.

(** * Further properties of the module *)

(** ** [Step.execute] and [Step.rollback] taken alone *)

Lemma Step_execute_pass_cases (a : addr) (s : Sys) :
  match pass (heap s a) (world s) with
  | Some w' =>
      exists s' i w1,
        Step_execute a s = (Ok tt, s') /\ world s' = w' /\
        check (heap s a) (world s) = (Ok i, w1) /\
        initial (heap s' a) = i
  | None => exists e s', Step_execute a s = (Raise e, s')
  end.
Proof.
  unfold pass.
  destruct (check (heap s a) (world s)) as [[i|e] w1] eqn:C1.
  - destruct (precondition (heap s a) i) as [[|]|e] eqn:C2.
    + destruct (action (heap s a) i w1) as [[[]|e] w2] eqn:C3.
      * destruct (check (heap s a) w2) as [[f|e] w3] eqn:C4.
        -- destruct (State_eq_dec f (expected (heap s a))) as [->|N].
           ++ destruct (Step_execute_succeeds _ _ C1 C2 C3 C4)
                as (x & E & _ & W & I).
              exists x, i, w1. auto.
           ++ destruct (Step_execute_postcondition_fails _ _ C1 C2 C3 C4 N)
                as (x & E & _).
              eauto.
        -- destruct (Step_execute_check_final_raises _ _ C1 C2 C3 C4)
             as (x & E & _).
           eauto.
      * destruct (Step_execute_action_raises _ _ C1 C2 C3) as (x & E & _).
        eauto.
    + destruct (Step_execute_precondition_false _ _ C1 C2) as (x & E & _).
      eauto.
    + destruct (Step_execute_precondition_raises _ _ C1 C2) as (x & E & _).
      eauto.
  - destruct (Step_execute_check_raises _ _ C1) as (x & E & _). eauto.
Qed.

(** X1.  [Step.execute] returns exactly when the step makes a successful
    pass: the check succeeds, the precondition holds on what it observed,
    the action succeeds and the second check observes the expected state.
    The world is then the one the pass leaves and [initial] holds the
    first observation; in every other case [Step.execute] raises. *)
Theorem Step_execute_returns_iff_pass (a : addr) (s : Sys) :
  (forall w',
     pass (heap s a) (world s) = Some w' <->
     exists s', Step_execute a s = (Ok tt, s') /\ world s' = w')
  /\
  (forall s',
     Step_execute a s = (Ok tt, s') ->
     exists i w1,
       check (heap s a) (world s) = (Ok i, w1) /\
       initial (heap s' a) = i)
  /\
  (pass (heap s a) (world s) = None <->
   exists e s', Step_execute a s = (Raise e, s')).
Proof.
  pose proof (Step_execute_pass_cases a s) as C.
  destruct (pass (heap s a) (world s)) as [w|].
  - destruct C as (x & i & w1 & E & W & C1 & I).
    split; [|split].
    + intro w'. split.
      * intro Q. inversion Q; subst w'. exists x. auto.
      * intros (s' & E' & W'). rewrite E in E'. inversion E'; subst s'.
        rewrite <- W', W. reflexivity.
    + intros s' E'. rewrite E in E'. inversion E'; subst s'.
      exists i, w1. auto.
    + split; [discriminate|].
      intros (e & s' & E'). rewrite E in E'. discriminate E'.
  - destruct C as (e & x & E).
    split; [|split].
    + intro w'. split; [discriminate|].
      intros (s' & E' & _). rewrite E in E'. discriminate E'.
    + intros s' E'. rewrite E in E'. discriminate E'.
    + split; [eauto | reflexivity].
Qed.

(** X2.  What [Step.execute] can raise: an [ExecutionError] with the
    step's name and one of the phases CHECK_INITIAL, EXECUTE and
    CHECK_FINAL, a [PreconditionError] with the step's name and the state
    it has just stored in [initial], a [PostconditionError] with the
    step's name, a final state that differs from the expected one and the
    expected state, or what the precondition predicate raised. *)
Theorem Step_execute_raises_only (a : addr) (s : Sys) (e : exc) (s' : Sys) :
  Step_execute a s = (Raise e, s') ->
  (exists p tr,
     e = ExecutionError (name (heap s a)) p tr /\
     (p = CHECK_INITIAL \/ p = EXECUTE \/ p = CHECK_FINAL)) \/
  (exists i,
     e = PreconditionError (name (heap s a)) i /\
     initial (heap s' a) = i) \/
  (exists final,
     e = PostconditionError (name (heap s a)) final (expected (heap s a)) /\
     final <> expected (heap s a)) \/
  (exists i, precondition (heap s a) i = Raise e).
Proof.
  intro H.
  destruct (check (heap s a) (world s)) as [[i|e1] w1] eqn:C1.
  - destruct (precondition (heap s a) i) as [[|]|e1] eqn:C2.
    + destruct (action (heap s a) i w1) as [[[]|e1] w2] eqn:C3.
      * destruct (check (heap s a) w2) as [[f|e1] w3] eqn:C4.
        -- destruct (State_eq_dec f (expected (heap s a))) as [->|N].
           ++ destruct (Step_execute_succeeds _ _ C1 C2 C3 C4)
                as (x & E & _).
              rewrite E in H. discriminate H.
           ++ destruct (Step_execute_postcondition_fails _ _ C1 C2 C3 C4 N)
                as (x & E & _).
              rewrite E in H. inversion H; subst.
              right. right. left. eauto.
        -- destruct (Step_execute_check_final_raises _ _ C1 C2 C3 C4)
             as (x & E & _).
           rewrite E in H. inversion H; subst. left. eauto 6.
      * destruct (Step_execute_action_raises _ _ C1 C2 C3) as (x & E & _).
        rewrite E in H. inversion H; subst. left. eauto 6.
    + destruct (Step_execute_precondition_false _ _ C1 C2)
        as (x & E & _ & _ & I).
      rewrite E in H. inversion H; subst. right. left. eauto.
    + destruct (Step_execute_precondition_raises _ _ C1 C2) as (x & E & _).
      rewrite E in H. inversion H; subst. right. right. right. eauto.
  - destruct (Step_execute_check_raises _ _ C1) as (x & E & _).
    rewrite E in H. inversion H; subst. left. eauto 6.
Qed.

(** X3.  What [Step.rollback] can do.  When it returns, the rollback
    action and the check were each called once and the state observed is
    equal to [initial].  When it raises, it raises an [ExecutionError]
    with the step's name and the phase ROLLBACK or CHECK_ROLLBACK, or a
    [RollbackPostconditionError] with the step's name, the state observed
    and [initial], which differ.  Once the rollback action and the check
    have gone through, it returns exactly when the state observed is
    equal to [initial]; so a step that was never executed, whose
    [initial] is still [None], is rolled back without error exactly when
    its check returns [None]. *)
Theorem Step_rollback_outcomes (a : addr) (s : Sys) :
  (forall s',
     Step_rollback a s = (Ok tt, s') ->
     journal s' = journal s ++ [EvRollback a; EvCall a ROLLBACK;
                                EvCall a CHECK_ROLLBACK;
                                EvObserved a CHECK_ROLLBACK
                                  (initial (heap s a))])
  /\
  (forall e s',
     Step_rollback a s = (Raise e, s') ->
     (exists tr, e = ExecutionError (name (heap s a)) ROLLBACK tr) \/
     (exists tr, e = ExecutionError (name (heap s a)) CHECK_ROLLBACK tr) \/
     (exists final,
        e = RollbackPostconditionError (name (heap s a)) final
              (initial (heap s a)) /\
        final <> initial (heap s a)))
  /\
  (forall w1 final w2,
     rollback_action (heap s a) (initial (heap s a)) (world s) =
       (Ok tt, w1) ->
     check (heap s a) w1 = (Ok final, w2) ->
     ((exists s', Step_rollback a s = (Ok tt, s')) <->
      final = initial (heap s a)) /\
     (initial (heap s a) = none ->
      ((exists s', Step_rollback a s = (Ok tt, s')) <-> final = none))).
Proof.
  assert (G : forall w1 f w2,
    rollback_action (heap s a) (initial (heap s a)) (world s) =
      (Ok tt, w1) ->
    check (heap s a) w1 = (Ok f, w2) ->
    exists s1,
      Step_rollback a s =
        (if eq_initial f (initial (heap s a))
         then Ok tt
         else Raise (RollbackPostconditionError (name (heap s a)) f
                       (initial (heap s a))), s1) /\
      journal s1 = journal s ++ [EvRollback a; EvCall a ROLLBACK;
                                 EvCall a CHECK_ROLLBACK;
                                 EvObserved a CHECK_ROLLBACK f]).
  { intros w1 f w2 C1 C2. run_step. run_with C1. run_with C2.
    destruct (eq_initial f (initial (heap s a))); cbn [negb];
      (eexists; split; [reflexivity|]); cbn;
      repeat rewrite <- app_assoc; reflexivity. }
  assert (K : forall w1 final w2,
    rollback_action (heap s a) (initial (heap s a)) (world s) =
      (Ok tt, w1) ->
    check (heap s a) w1 = (Ok final, w2) ->
    ((exists s', Step_rollback a s = (Ok tt, s')) <->
     final = initial (heap s a))).
  { intros w1 final w2 C1 C2.
    destruct (G _ _ _ C1 C2) as (s1 & E & _).
    destruct (eq_initial final (initial (heap s a))) eqn:Q.
    - apply eq_initial_true in Q. split; [auto | eauto].
    - split.
      + intros (s' & H). rewrite E in H. discriminate H.
      + intro N. symmetry in N. apply eq_initial_true in N.
        rewrite N in Q. discriminate Q. }
  split; [|split].
  - clear K. intros s' H.
    destruct (rollback_action (heap s a) (initial (heap s a)) (world s))
      as [[[]|e1] w1] eqn:C1.
    + destruct (check (heap s a) w1) as [[f|e1] w2] eqn:C2.
      * destruct (G _ _ _ eq_refl C2) as (s1 & E & J).
        destruct (eq_initial f (initial (heap s a))) eqn:Q;
          rewrite E in H; [|discriminate H].
        apply eq_initial_true in Q. inversion H; subst s'.
        rewrite J, Q. reflexivity.
      * destruct (Step_rollback_check_raises _ _ C1 C2) as (x & E & _).
        rewrite E in H. discriminate H.
    + destruct (Step_rollback_action_raises _ _ C1) as (x & E & _).
      rewrite E in H. discriminate H.
  - clear K. intros e s' H.
    destruct (rollback_action (heap s a) (initial (heap s a)) (world s))
      as [[[]|e1] w1] eqn:C1.
    + destruct (check (heap s a) w1) as [[f|e1] w2] eqn:C2.
      * destruct (G _ _ _ eq_refl C2) as (s1 & E & _).
        destruct (eq_initial f (initial (heap s a))) eqn:Q;
          rewrite E in H; [discriminate H|].
        inversion H; subst. right. right. exists f.
        split; [reflexivity|].
        intro N. symmetry in N. apply eq_initial_true in N.
        rewrite N in Q. discriminate Q.
      * destruct (Step_rollback_check_raises _ _ C1 C2) as (x & E & _).
        rewrite E in H. inversion H; subst. eauto.
    + destruct (Step_rollback_action_raises _ _ C1) as (x & E & _).
      rewrite E in H. inversion H; subst. eauto.
  - intros w1 final w2 C1 C2. split.
    + exact (K _ _ _ C1 C2).
    + intro N. rewrite <- N. exact (K _ _ _ C1 C2).
Qed.

#[local] Instance only_initial_frame a : Frame (only_initial a).
Proof.
  split.
  - intros s b. repeat split.
  - intros s1 s2 s3 H1 H2 b.
    destruct (H1 b) as (A1 & A2 & A3). destruct (H2 b) as (B1 & B2 & B3).
    split; [|split].
    + intro N. rewrite (B1 N). apply A1. exact N.
    + eapply same_static_trans; eassumption.
    + congruence.
Qed.

Lemma only_initial_same a s s' : heap s' = heap s -> only_initial a s s'.
Proof. intros E b. rewrite E. repeat split. Qed.

Lemma only_initial_log a ev : preserves (only_initial a) (log ev).
Proof. frame_prim @log. apply only_initial_same. reflexivity. Qed.

Lemma only_initial_call a A (f : World -> result State A * World) :
  preserves (only_initial a) (call f).
Proof. frame_prim @call. apply only_initial_same. reflexivity. Qed.

Lemma only_initial_print a t e : preserves (only_initial a) (print t e).
Proof. frame_prim @print. apply only_initial_same. reflexivity. Qed.

Lemma only_initial_record_initial a i :
  preserves (only_initial a) (record_initial a i).
Proof.
  frame_prim @record_initial. intro b. simpl.
  destruct (Nat.eqb_spec b a) as [->|N].
  - split; [intro N; contradiction N; reflexivity|]. repeat split.
  - repeat split.
Qed.

#[local] Hint Resolve only_initial_log only_initial_call only_initial_print
  only_initial_record_initial : frames.

Lemma only_initial_print_indented a l m n e :
  preserves (only_initial a) (print_indented l m n e).
Proof. unfold print_indented. frame_walk; auto with frames. Qed.

#[local] Hint Resolve only_initial_print_indented : frames.

Lemma only_initial_wrap a A b p (m : M A) :
  preserves (only_initial a) m -> preserves (only_initial a) (wrap b p m).
Proof. intro H. unfold wrap. frame_walk; auto with frames. Qed.

Lemma only_initial_Step_execute a :
  preserves (only_initial a) (Step_execute a).
Proof.
  unfold Step_execute, check_initial, check_final, self_action,
    self_precondition.
  frame_walk; auto with frames;
    apply only_initial_wrap; frame_walk; auto with frames.
Qed.

#[local] Instance same_console_frame : Frame same_console.
Proof. split; unfold same_console; intros; congruence. Qed.

Lemma same_console_log ev : preserves same_console (log ev).
Proof. frame_prim @log. reflexivity. Qed.

Lemma same_console_call A (f : World -> result State A * World) :
  preserves same_console (call f).
Proof. frame_prim @call. reflexivity. Qed.

#[local] Hint Resolve same_console_log same_console_call : frames.

Lemma same_console_wrap A a p (m : M A) :
  preserves same_console m -> preserves same_console (wrap a p m).
Proof. intro H. unfold wrap. frame_walk; auto with frames. Qed.

Lemma same_console_Step_rollback a : preserves same_console (Step_rollback a).
Proof.
  unfold Step_rollback, check_rollback, self_rollback_action.
  frame_walk; auto with frames;
    apply same_console_wrap; frame_walk; auto with frames.
Qed.

(** X4.  What the two methods leave alone.  [Step.execute] does not
    touch the release object nor any other step object, and of its own
    step object it changes nothing but [initial].  [Step.rollback]
    changes no step object, not the release object, and prints
    nothing.  This is what the two methods do themselves: the
    collaborators act on the world only. *)
Theorem Step_methods_leave_the_rest (a : addr) (s : Sys) :
  (forall r s',
     Step_execute a s = (r, s') ->
     rel s' = rel s /\
     (forall b, b <> a -> heap s' b = heap s b) /\
     same_static (heap s a) (heap s' a) /\
     stdout (heap s' a) = stdout (heap s a))
  /\
  (forall r s',
     Step_rollback a s = (r, s') ->
     rel s' = rel s /\ heap s' = heap s /\ console s' = console s).
Proof.
  split; intros r s' H.
  - pose proof H as H1. apply same_rel_Step_execute in H1.
    apply only_initial_Step_execute in H.
    split; [exact H1|]. split; [intro b; apply (H b)|].
    destruct (H a) as (_ & H2 & H3). auto.
  - pose proof H as H1. apply same_rel_Step_rollback in H1.
    pose proof H as H2. apply same_heap_Step_rollback in H2.
    apply same_console_Step_rollback in H. auto.
Qed.

(** ** [Release.rollback] taken alone *)

(** X5.  [Release.rollback] does not raise, whatever the rollbacks of the
    steps do, as long as every recorded error is of a class that defines
    [explain] (the classes that [Release.execute] records).  It calls no
    [execute()], and it leaves the step objects and the two lists of
    steps as they are. *)
Theorem Release_rollback_never_raises (s : Sys) :
  forallb has_explain (exceptions (rel s)) = true ->
  exists s',
    Release_rollback s = (Ok tt, s') /\
    heap s' = heap s /\
    steps (rel s') = steps (rel s) /\
    executed_steps (rel s') = executed_steps (rel s) /\
    filter execute_side (journal s') = filter execute_side (journal s).
Proof.
  intro H. destruct (Release_rollback_returns s H) as (s' & E).
  exists s'. split; [exact E|].
  destruct (Release_rollback_frame s) as (A1 & A2 & A3 & t & A4 & A5).
  rewrite E in A1, A2, A3, A4. cbn [snd] in A1, A2, A3, A4.
  repeat split; auto.
  rewrite A4. apply filter_execute_side_app. exact A5.
Qed.

(** ** Every run of [Release.execute] *)

Lemma Release_execute_loop_fails l s e s' :
  Release_execute_loop l s = (Raise e, s') ->
  exists pre a post s1 e0 s2,
    l = pre ++ a :: post /\
    Release_execute_loop pre s = (Ok tt, s1) /\
    Step_execute a (snd (announce a s1)) = (Raise e0, s2) /\
    handler a e0 s2 = (Raise e, s').
Proof.
  revert s. induction l as [|a l IH]; intros s H.
  - discriminate H.
  - simpl in H. apply bind_inv in H.
    destruct H as [([] & s0 & H1 & H2) | (e1 & H1 & H2)].
    + destruct (IH _ H2) as (pre & b & post & s1 & e0 & s2 & L & A & B & C).
      exists (a :: pre), b, post, s1, e0, s2. subst l.
      split; [reflexivity|]. split; [|auto].
      simpl. unfold bind. rewrite H1. exact A.
    + inversion H2; subst e1. clear H2.
      pose proof (Release_execute_step_cases a s) as K.
      destruct (Step_execute a (snd (announce a s))) as [[[]|e0] s2] eqn:E.
      * rewrite K in H1. discriminate H1.
      * exists [], a, l, s, e0, s2.
        split; [reflexivity|]. split; [reflexivity|].
        split; [exact E|]. rewrite <- K. exact H1.
Qed.

Lemma Release_execute_inv s r s' :
  Release_execute s = (r, s') ->
  (r = Ok tt /\
   exists s1,
     Release_execute_loop (steps (rel s)) s = (Ok tt, s1) /\
     world s' = world s1 /\ heap s' = heap s1 /\ rel s' = rel s1 /\
     journal s' = journal s1) \/
  (exists e,
     r = Raise e /\ Release_execute_loop (steps (rel s)) s = (Raise e, s')).
Proof.
  intro H. unfold Release_execute in H.
  unfold bind at 1, get_rel at 1 in H. apply bind_inv in H.
  destruct H as [([] & s1 & H1 & H2) | (e & H1 & ->)].
  - left. unfold bind, get_rel, print, ret in H2.
    destruct (stdout_variable (rel s1)); injection H2 as Hr Hs;
      (split; [symmetry; exact Hr|]); exists s1; rewrite <- Hs; auto.
  - right. eauto.
Qed.

(** A run of [Release.execute] that raises is a run that fails at some
    step, and it raises what that step raised. *)
Lemma Release_execute_fails nm l given s e s' :
  rel s = Release_init nm l given ->
  Release_execute s = (Raise e, s') ->
  exists pre a post s2,
    l = pre ++ a :: post /\
    fails_at s pre a e s2 /\
    handler a e s2 = (Raise e, s').
Proof.
  intros R H. apply Release_execute_inv in H.
  destruct H as [(H & _) | (e1 & H1 & H2)]; [discriminate H|].
  inversion H1; subst e1. clear H1.
  rewrite R in H2. cbn [Release_init steps] in H2.
  apply Release_execute_loop_fails in H2.
  destruct H2 as (pre & a & post & s1 & e0 & s2 & L & A & B & C).
  subst l.
  assert (F : fails_at s pre a e0 s2) by (exists s1; auto).
  destruct (@failure_raises nm pre a post given s e0 s2 R F)
    as (s3 & _ & H3).
  rewrite C in H3. inversion H3; subst.
  exists pre, a, post, s2. auto.
Qed.

(** X6.  In a release started afresh, every run of [Release.execute]
    that raises is a run in which some steps went through and the
    [execute()] of the next one raised; what [Release.execute] raises is
    that very exception, never one of its own nor one raised during the
    rollback.  At most one error is recorded: the exception raised when
    it is of a class [Release.execute] has a clause for, and none
    otherwise or when the run returns. *)
Theorem Release_execute_raises_what_a_step_raised
    (nm : string) (l : list addr) (given : option string) (s : Sys)
    (r : result State unit) (s' : Sys) :
  rel s = Release_init nm l given ->
  Release_execute s = (r, s') ->
  match r with
  | Ok _ => exceptions (rel s') = []
  | Raise e =>
      (exists pre a post s2,
         l = pre ++ a :: post /\ fails_at s pre a e s2) /\
      exceptions (rel s') = (if handled e then [e] else [])
  end.
Proof.
  intros R H. destruct r as [[]|e].
  - apply Release_execute_inv in H.
    destruct H as [(_ & s1 & L & _ & _ & Q & _) | (e & H & _)];
      [|discriminate H].
    apply Release_execute_loop_ok in L. destruct L as (_ & _ & X & _).
    rewrite Q, X, R. reflexivity.
  - destruct (@Release_execute_fails nm l given s e s' R H)
      as (pre & a & post & s2 & L & F & Hh).
    split; [exists pre, a, post, s2; split; assumption|]. subst l.
    destruct (@failure_outcome nm pre a post given s e s2 R F)
      as (_ & _ & B2 & _).
    destruct (handled e) eqn:Hd.
    + destruct (@handler_enters a e s2 Hd)
        as (s_entry & X & _ & _ & _ & _ & _ & X2).
      rewrite X in Hh. rewrite B2 in X2. simpl in X2.
      unfold bind in Hh.
      destruct (Release_rollback s_entry) as [[[]|e'] s''] eqn:RR;
        inversion Hh; subst;
        apply same_or_reversed_Release_rollback in RR;
        destruct RR as [Q|Q]; rewrite Q, X2; reflexivity.
    + rewrite (@handler_unhandled a e s2 Hd) in Hh.
      inversion Hh; subst. exact B2.
Qed.

(** X7.  In a release started afresh, after any run of
    [Release.execute], [executed_steps] is an initial segment of the list
    of steps: the whole list when the run returns, and when it raises the
    steps before the failing one, with the failing one when its clause
    appends it. *)
Theorem executed_steps_is_initial_segment
    (nm : string) (l : list addr) (given : option string) (s : Sys)
    (r : result State unit) (s' : Sys) :
  rel s = Release_init nm l given ->
  Release_execute s = (r, s') ->
  steps (rel s') = l /\
  exists k,
    k <= List.length l /\
    executed_steps (rel s') = firstn k l /\
    (r = Ok tt -> k = List.length l).
Proof.
  intros R H. destruct r as [[]|e].
  - apply Release_execute_inv in H.
    destruct H as [(_ & s1 & L & _ & _ & Q & _) | (e & H & _)];
      [|discriminate H].
    apply Release_execute_loop_ok in L. destruct L as (X0 & X & _).
    rewrite Q, X0, X, R. cbn [Release_init steps executed_steps app].
    split; [reflexivity|]. exists (List.length l).
    rewrite firstn_all. auto.
  - destruct (@Release_execute_fails nm l given s e s' R H)
      as (pre & a & post & s2 & L & F & Hh).
    subst l.
    destruct (@failure_outcome nm pre a post given s e s2 R F)
      as (_ & B1 & _).
    assert (S2 : steps (rel s2) = pre ++ a :: post).
    { destruct F as (s1 & L1 & E1).
      apply Release_execute_loop_ok in L1. destruct L1 as (X0 & _).
      apply same_rel_Step_execute in E1. unfold same_rel in E1.
      destruct (announce_fields a s1) as (_ & _ & _ & Y & _).
      rewrite E1, Y, X0, R. reflexivity. }
    assert (G : steps (rel s') = steps (rel s2) /\
                executed_steps (rel s') =
                  pre ++ (if appends_step e && handled e then [a] else [])).
    { destruct (handled e) eqn:Hd.
      - destruct (@handler_enters a e s2 Hd)
          as (s_entry & X & _ & _ & _ & Y0 & Y1 & _).
        rewrite X in Hh. unfold bind in Hh. rewrite B1 in Y1.
        rewrite andb_true_r.
        destruct (Release_rollback s_entry) as [[[]|e'] s''] eqn:RR;
          inversion Hh; subst;
          apply same_lists_Release_rollback in RR;
          destruct RR as [Q0 Q1]; rewrite Q0, Q1, Y0, Y1; auto.
      - rewrite (@handler_unhandled a e s2 Hd) in Hh.
        inversion Hh; subst. rewrite andb_false_r, app_nil_r. auto. }
    destruct G as (G0 & G1). rewrite G0, S2, G1.
    split; [reflexivity|].
    destruct (appends_step e && handled e).
    + exists (S (List.length pre)). split; [|split; [|discriminate]].
      * rewrite length_app. simpl. lia.
      * change (pre ++ a :: post) with (pre ++ [a] ++ post).
        rewrite app_assoc.
        replace (S (List.length pre)) with (List.length (pre ++ [a]) + 0)
          by (rewrite length_app; simpl; lia).
        rewrite firstn_app_2. simpl. rewrite app_nil_r. reflexivity.
    + exists (List.length pre). split; [|split; [|discriminate]].
      * rewrite length_app. lia.
      * rewrite app_nil_r.
        replace (List.length pre) with (List.length pre + 0) by lia.
        rewrite firstn_app_2. simpl. rewrite app_nil_r. reflexivity.
Qed.

(** X8.  In a release started afresh, [Release.rollback] is entered in
    a run of [Release.execute] exactly when the run raises an exception of
    a class that has a clause, and the steps whose [rollback()] is called
    are then an initial segment of [executed_steps]: a step that is not in
    [executed_steps] is never rolled back, and nothing is rolled back in
    a run that returns. *)
Theorem rollback_only_of_executed_steps
    (nm : string) (l : list addr) (given : option string) (s : Sys)
    (r : result State unit) (s' : Sys) :
  rel s = Release_init nm l given ->
  Release_execute s = (r, s') ->
  rollback_invoked (journal s') =
    rollback_invoked (journal s) ||
    match r with Ok _ => false | Raise e => handled e end /\
  exists m,
    rollback_calls (journal s') =
      rollback_calls (journal s) ++ firstn m (executed_steps (rel s')) /\
    (r = Ok tt -> m = 0).
Proof.
  intros R H. destruct r as [[]|e].
  - apply Release_execute_inv in H.
    destruct H as [(_ & s1 & L & _ & _ & _ & J) | (e & H & _)];
      [|discriminate H].
    apply Release_execute_loop_ok in L.
    destruct L as (_ & _ & _ & _ & _ & t & E & F).
    rewrite J, E, rollback_invoked_app, rollback_calls_app.
    rewrite (rollback_invoked_execute_side _ F).
    rewrite (@rollback_calls_none execute_side t execute_side_no_rollback F).
    split; [reflexivity|]. exists 0. auto.
  - destruct (@Release_execute_fails nm l given s e s' R H)
      as (pre & a & post & s2 & L & F & Hh).
    subst l.
    destruct (@failure_outcome nm pre a post given s e s2 R F)
      as (_ & _ & _ & _ & B & t & E & Ft).
    destruct (handled e) eqn:Hd.
    + destruct (@handler_enters a e s2 Hd)
        as (s_entry & X & _ & _ & J & _ & _ & _).
      rewrite X in Hh. unfold bind in Hh.
      pose proof (Release_rollback_calls s_entry) as C.
      destruct (Release_rollback_enters s_entry) as (t' & E' & _).
      destruct (Release_rollback_frame s_entry) as (_ & _ & Q & _).
      assert (Z : snd (Release_rollback s_entry) = s').
      { destruct (Release_rollback s_entry) as [[[]|e'] s''];
          inversion Hh; reflexivity. }
      rewrite Z in C, E', Q. split.
      * rewrite E', J, !rollback_invoked_app. simpl.
        rewrite !orb_true_r. reflexivity.
      * exists (List.length
                  (fst (cascade (executed_steps (rel s_entry))
                          (snd (log EvReleaseRollback s_entry))))).
        split; [|discriminate].
        rewrite C, J, B, Q. f_equal. apply cascade_prefix.
    + rewrite (@handler_unhandled a e s2 Hd) in Hh.
      inversion Hh; subst s'. split.
      * rewrite E, rollback_invoked_app.
        rewrite (rollback_invoked_execute_side _ Ft). reflexivity.
      * exists 0. split; [|discriminate].
        rewrite B. simpl. rewrite app_nil_r. reflexivity.
Qed.

Lemma Step_execute_ok_pass a s s' :
  Step_execute a s = (Ok tt, s') -> pass (heap s a) (world s) = Some (world s').
Proof.
  intro H. pose proof (Step_execute_pass_cases a s) as C.
  destruct (pass (heap s a) (world s)) as [w'|].
  - destruct C as (x & i & w1 & E & W & _).
    rewrite E in H. inversion H; subst. reflexivity.
  - destruct C as (e & x & E). rewrite E in H. discriminate H.
Qed.

Lemma world_after_static h h' l w :
  (forall b, same_static (h b) (h' b)) ->
  world_after h' l w = world_after h l w.
Proof.
  intro H. revert w. induction l as [|a l IH]; intro w; simpl; auto.
  rewrite (@pass_static (h a) (h' a) w (H a)).
  destruct (pass (h a) w); auto.
Qed.

Lemma all_pass_world_after h l w :
  all_pass h l w = true <-> exists w', world_after h l w = Some w'.
Proof.
  revert w. induction l as [|a l IH]; intro w; simpl.
  - split; eauto.
  - destruct (pass (h a) w) as [w1|].
    + apply IH.
    + split; [discriminate | intros (w' & H); discriminate H].
Qed.

Lemma Release_execute_loop_world l s s1 :
  Release_execute_loop l s = (Ok tt, s1) ->
  world_after (heap s) l (world s) = Some (world s1).
Proof.
  revert s. induction l as [|a l IH]; intros s H.
  - inversion H; subst. reflexivity.
  - simpl in H. apply bind_inv in H.
    destruct H as [([] & s0 & H1 & H2) | (e & _ & H)]; [|discriminate H].
    apply Release_execute_step_ok in H1. destruct H1 as (x & E & ->).
    pose proof E as St. apply static_heap_Step_execute in St.
    apply Step_execute_ok_pass in E.
    destruct (announced a s) as (W & C & Pr & Ac & Ex & _).
    assert (Pa : pass (heap s a) (world s) = Some (world x)).
    { rewrite <- E. unfold pass. rewrite W, C, Pr, Ac, Ex. reflexivity. }
    simpl. rewrite Pa. rewrite <- (IH _ H2).
    cbn [append_executed bind get_rel put_rel snd heap world].
    symmetry. apply world_after_static. intro b.
    apply same_static_trans with (heap (snd (announce a s)) b).
    + destruct (announce_heap a s b) as (X1 & X2 & X3 & X4 & X5 & X6 & _).
      repeat split; assumption.
    + apply St.
Qed.

(** X9.  [Release.execute] returns exactly when every step, taken in
    order, makes a successful pass from the world the previous one left;
    the world it leaves is then the world after the last pass. *)
Theorem Release_execute_returns_iff_all_pass (s : Sys) :
  ((exists s', Release_execute s = (Ok tt, s')) <->
   all_pass (heap s) (steps (rel s)) (world s) = true)
  /\
  (forall s',
     Release_execute s = (Ok tt, s') ->
     world_after (heap s) (steps (rel s)) (world s) = Some (world s')).
Proof.
  assert (G : forall s',
    Release_execute s = (Ok tt, s') ->
    world_after (heap s) (steps (rel s)) (world s) = Some (world s')).
  { intros s' H. apply Release_execute_inv in H.
    destruct H as [(_ & s1 & L & W & _) | (e & H & _)]; [|discriminate H].
    rewrite W. apply Release_execute_loop_world. exact L. }
  split; [|exact G]. split.
  - intros (s' & H). apply all_pass_world_after. eauto.
  - intro H. apply all_pass_run in H. destruct H as (s1 & L).
    unfold Release_execute. unfold bind at 1, get_rel at 1.
    unfold bind at 1. rewrite L.
    unfold bind, get_rel, print, ret.
    destruct (stdout_variable (rel s1)); eexists; reflexivity.
Qed.

(** ** The transcript *)

Lemma string_append_assoc (x y z : string) :
  String.append (String.append x y) z = String.append x (String.append y z).
Proof. induction x as [|c x IH]; simpl; [reflexivity | rewrite IH; reflexivity]. Qed.

Lemma string_append_empty (x : string) : String.append x EmptyString = x.
Proof. induction x as [|c x IH]; simpl; [reflexivity | rewrite IH; reflexivity]. Qed.

#[local] Instance same_sink_frame : Frame same_sink.
Proof.
  split; unfold same_sink.
  - auto.
  - intros s1 s2 s3 [A1 A2] [B1 B2]. split; congruence.
Qed.

Lemma same_sink_of_same_rel s s' : same_rel s s' -> same_sink s s'.
Proof. unfold same_rel, same_sink. intros ->. auto. Qed.

Lemma same_sink_Release_rollback : preserves same_sink Release_rollback.
Proof.
  unfold Release_rollback, explain_exceptions. frame_walk;
    try solve [ apply preserves_weaken with (R := same_rel);
                [ exact same_sink_of_same_rel | ];
                auto using same_rel_log, same_rel_Release_rollback_loop,
                  same_rel_print_indented, same_rel_explain_all ].
  intros s r s' H. unfold reverse_exceptions, bind, get_rel, put_rel in H.
  inversion H; subst. split; reflexivity.
Qed.

Lemma same_sink_handler step e : preserves same_sink (handler step e).
Proof.
  assert (A : forall x, preserves same_sink (append_exception x)).
  { intros x s r s' H. rewrite append_exception_run in H.
    inversion H; subst. split; reflexivity. }
  assert (B : forall x, preserves same_sink (append_executed x)).
  { intros x s r s' H. rewrite append_executed_run in H.
    inversion H; subst. split; reflexivity. }
  destruct e; unfold handler; frame_walk;
    auto using same_sink_Release_rollback.
Qed.

Lemma static_heap_Release_execute_step a :
  preserves static_heap (Release_execute_step a).
Proof.
  intros s r s' H b.
  pose proof (Release_execute_step_cases a s) as K.
  assert (S0 : same_static (heap s b) (heap (snd (announce a s)) b)).
  { destruct (announce_heap a s b) as (X1 & X2 & X3 & X4 & X5 & X6 & _).
    repeat split; assumption. }
  destruct (Step_execute a (snd (announce a s))) as [[[]|e] s1] eqn:E;
    rewrite K in H; apply static_heap_Step_execute in E.
  - inversion H; subst. eapply same_static_trans; [exact S0 | apply E].
  - apply same_heap_handler in H. rewrite H.
    eapply same_static_trans; [exact S0 | apply E].
Qed.

Lemma transcript_static h h' l :
  (forall b, same_static (h b) (h' b)) -> transcript h' l = transcript h l.
Proof.
  intro H. induction l as [|a l IH]; cbn [transcript]; auto.
  destruct (H a) as (N & _). rewrite N, IH. reflexivity.
Qed.

Lemma transcript_app h l1 l2 :
  transcript h (l1 ++ l2) =
  String.append (transcript h l1) (transcript h l2).
Proof.
  induction l1 as [|a l1 IH]; cbn [transcript app]; auto.
  rewrite IH, string_append_assoc. reflexivity.
Qed.

Lemma announce_sink a s :
  release_stdout (rel (snd (announce a s))) =
    String.append (release_stdout (rel s)) (step_block (name (heap s a))).
Proof.
  unfold announce, set_stdout, print_step, write_release_stdout, bind,
    get_step, put_step, get_rel, put_rel, step_block.
  cbn. rewrite Nat.eqb_refl. reflexivity.
Qed.

Lemma Release_execute_step_sink a s r s' :
  Release_execute_step a s = (r, s') ->
  release_stdout (rel s') =
    String.append (release_stdout (rel s)) (step_block (name (heap s a))) /\
  stdout_variable (rel s') = stdout_variable (rel s).
Proof.
  intro H. pose proof (Release_execute_step_cases a s) as K.
  destruct (announce_fields a s) as (_ & _ & _ & _ & _ & _ & V).
  rewrite <- announce_sink, <- V.
  destruct (Step_execute a (snd (announce a s))) as [[[]|e] s1] eqn:E;
    rewrite K in H; apply same_rel_Step_execute in E; unfold same_rel in E.
  - inversion H; subst. cbn. rewrite E. auto.
  - apply same_sink_handler in H. destruct H as [H1 H2].
    rewrite H1, H2, E. auto.
Qed.

Lemma Release_execute_loop_sink l s r s' :
  Release_execute_loop l s = (r, s') ->
  exists k,
    execute_calls (journal s') = execute_calls (journal s) ++ firstn k l /\
    release_stdout (rel s') =
      String.append (release_stdout (rel s)) (transcript (heap s) (firstn k l))
    /\
    stdout_variable (rel s') = stdout_variable (rel s) /\
    (r = Ok tt -> k = List.length l).
Proof.
  revert s. induction l as [|a l IH]; intros s H.
  - inversion H; subst. exists 0. cbn [firstn transcript].
    rewrite app_nil_r, string_append_empty. auto.
  - cbn [Release_execute_loop] in H. apply bind_inv in H.
    destruct H as [([] & s1 & H1 & H2) | (e & H1 & ->)].
    + pose proof H1 as C. apply Release_execute_step_calls in C.
      pose proof H1 as St. apply static_heap_Release_execute_step in St.
      apply Release_execute_step_sink in H1. destruct H1 as [S1 V1].
      destruct (IH _ H2) as (k & E & S2 & V2 & K).
      exists (S k). cbn [firstn transcript List.length].
      rewrite E, C, <- app_assoc, S2, S1, V2, V1, string_append_assoc.
      rewrite (@transcript_static (heap s) (heap s1) (firstn k l) St).
      repeat split; auto.
    + pose proof H1 as C. apply Release_execute_step_calls in C.
      apply Release_execute_step_sink in H1. destruct H1 as [S1 V1].
      exists 1. cbn [firstn transcript]. rewrite string_append_empty.
      repeat split; auto. discriminate.
Qed.

(** X10.  In any run of [Release.execute] the release writes to its sink
    one block [< | Executing step <name>. >] for each step whose
    [execute()] is called, in the order of the calls, and nothing else;
    the collaborators of the steps are taken not to write to the sink
    ([Step.check_call] and [Step.check_output], through which they would,
    are not part of this development).  When the run returns and the
    release owns its sink, the last thing printed is the heading of the
    log followed by the whole text of the sink. *)
Theorem sink_gets_one_block_per_attempt (s : Sys) (r : result State unit)
    (s' : Sys) :
  Release_execute s = (r, s') ->
  (exists k,
     execute_calls (journal s') =
       execute_calls (journal s) ++ firstn k (steps (rel s)) /\
     release_stdout (rel s') =
       String.append (release_stdout (rel s))
         (transcript (heap s) (firstn k (steps (rel s)))))
  /\
  (r = Ok tt -> stdout_variable (rel s) = true ->
   exists before,
     console s' =
       String.append before
         (String.append
            (String.append
               (join_lines ["<"; "| Log from stdout and stderr:"; ">"]) nl)
            (String.append (release_stdout (rel s')) nl))).
Proof.
  intro H. unfold Release_execute in H.
  unfold bind at 1, get_rel at 1 in H. apply bind_inv in H.
  destruct H as [([] & s1 & H1 & H2) | (e & H1 & ->)].
  - destruct (Release_execute_loop_sink _ _ H1) as (k & E & S1 & V & _).
    unfold bind, get_rel, print, ret in H2. rewrite V in H2.
    destruct (stdout_variable (rel s)) eqn:Q; inversion H2; subst; cbn.
    + split; [eauto|]. intros _ _. exists (console s1).
      rewrite string_append_assoc. reflexivity.
    + split; [eauto|]. intros _ N. discriminate N.
  - destruct (Release_execute_loop_sink _ _ H1) as (k & E & S1 & _).
    split; [eauto|]. intro N. discriminate N.
Qed.

(** ** [Step.rollback] with the world it leaves *)

Lemma Step_rollback_succeeds a s w1 final w2 :
  rollback_action (heap s a) (initial (heap s a)) (world s) = (Ok tt, w1) ->
  check (heap s a) w1 = (Ok final, w2) ->
  initial (heap s a) = final ->
  exists s', Step_rollback a s = (Ok tt, s') /\ world s' = w2.
Proof.
  intros H1 H2 H3. run_step. run_with H1. run_with H2.
  assert (Q : eq_initial final (initial (heap s a)) = true)
    by (apply eq_initial_true; exact H3).
  rewrite Q. cbn [negb]. eexists. split; reflexivity.
Qed.

Lemma Step_rollback_mismatch a s w1 final w2 :
  rollback_action (heap s a) (initial (heap s a)) (world s) = (Ok tt, w1) ->
  check (heap s a) w1 = (Ok final, w2) ->
  initial (heap s a) <> final ->
  exists s',
    Step_rollback a s =
      (Raise (RollbackPostconditionError (name (heap s a)) final
                (initial (heap s a))), s') /\
    world s' = w2.
Proof.
  intros H1 H2 H3. run_step. run_with H1. run_with H2.
  destruct (eq_initial final (initial (heap s a))) eqn:Q.
  - apply eq_initial_true in Q. contradiction.
  - cbn [negb]. eexists. split; reflexivity.
Qed.

(** ** [Release.rollback] with the world it leaves *)

#[local] Instance same_world_frame : Frame same_world.
Proof. split; unfold same_world; intros; congruence. Qed.

Lemma same_world_print t e : preserves same_world (print t e).
Proof. frame_prim @print. reflexivity. Qed.

Lemma same_world_put_rel r : preserves same_world (put_rel r).
Proof. frame_prim @put_rel. reflexivity. Qed.

#[local] Hint Resolve same_world_print same_world_put_rel : frames.

Lemma same_world_print_indented l m n e :
  preserves same_world (print_indented l m n e).
Proof. unfold print_indented. frame_walk; auto with frames. Qed.

#[local] Hint Resolve same_world_print_indented : frames.

Lemma same_world_explain e : preserves same_world (explain e).
Proof.
  destruct e; unfold explain, explain_step; frame_walk; auto with frames.
Qed.

Lemma same_world_explain_all l : preserves same_world (explain_all l).
Proof.
  induction l as [|e l IH]; simpl; frame_walk; auto using same_world_explain.
Qed.

Lemma same_world_explain_exceptions : preserves same_world explain_exceptions.
Proof.
  unfold explain_exceptions, reverse_exceptions.
  frame_walk; auto using same_world_explain_all with frames.
Qed.

(** [Release.rollback] changes the world through the cascade only. *)
Lemma Release_rollback_world s :
  world (snd (Release_rollback s)) =
  world (snd (cascade (executed_steps (rel s))
                (snd (log EvReleaseRollback s)))).
Proof.
  unfold Release_rollback.
  unfold bind at 1. unfold log at 1.
  unfold bind at 1. unfold get_rel at 1.
  unfold bind at 1. rewrite Release_rollback_loop_cascade.
  cbn [rel snd].
  set (s0 := {| world := world s; heap := heap s; rel := rel s;
                console := console s;
                journal := journal s ++ [EvReleaseRollback] |}).
  destruct (explain_exceptions (snd (cascade (executed_steps (rel s)) s0)))
    as [r s'] eqn:E.
  apply same_world_explain_exceptions in E. exact E.
Qed.

Lemma Release_rollback_first_raises s a rest e s1 :
  executed_steps (rel s) = a :: rest ->
  Step_rollback a (snd (log EvReleaseRollback s)) = (Raise e, s1) ->
  world (snd (Release_rollback s)) = world s1 /\
  rollback_calls (journal (snd (Release_rollback s))) =
    rollback_calls (journal s) ++ [a].
Proof.
  intros X E.
  rewrite Release_rollback_world, Release_rollback_calls, X.
  cbn [cascade]. rewrite E. split; reflexivity.
Qed.

Lemma Release_rollback_action_raises s a rest e w1 :
  executed_steps (rel s) = a :: rest ->
  rollback_action (heap s a) (initial (heap s a)) (world s) = (Raise e, w1) ->
  world (snd (Release_rollback s)) = w1 /\
  rollback_calls (journal (snd (Release_rollback s))) =
    rollback_calls (journal s) ++ [a].
Proof.
  intros X E.
  destruct (@Step_rollback_action_raises a (snd (log EvReleaseRollback s))
              e w1 E) as (s1 & R & _ & W).
  rewrite <- W. exact (Release_rollback_first_raises s X R).
Qed.

(** X11.  [Release.rollback] stops at the first executed step whose
    rollback fails, and undoes nothing after it: when the rollback action
    of the first executed step raises, when the check after it raises, or
    when that check observes a state other than the one stored in
    [initial], the only call of [rollback()] is the one on that step, and
    the world is left as that call left it, whatever the steps after it
    have done. *)
Theorem Release_rollback_halts_at_first_failure
    (s : Sys) (a : addr) (rest : list addr) :
  executed_steps (rel s) = a :: rest ->
  (forall e w1,
     rollback_action (heap s a) (initial (heap s a)) (world s) =
       (Raise e, w1) ->
     world (snd (Release_rollback s)) = w1 /\
     rollback_calls (journal (snd (Release_rollback s))) =
       rollback_calls (journal s) ++ [a])
  /\
  (forall w1 e w2,
     rollback_action (heap s a) (initial (heap s a)) (world s) =
       (Ok tt, w1) ->
     check (heap s a) w1 = (Raise e, w2) ->
     world (snd (Release_rollback s)) = w2 /\
     rollback_calls (journal (snd (Release_rollback s))) =
       rollback_calls (journal s) ++ [a])
  /\
  (forall w1 final w2,
     rollback_action (heap s a) (initial (heap s a)) (world s) =
       (Ok tt, w1) ->
     check (heap s a) w1 = (Ok final, w2) ->
     initial (heap s a) <> final ->
     world (snd (Release_rollback s)) = w2 /\
     rollback_calls (journal (snd (Release_rollback s))) =
       rollback_calls (journal s) ++ [a]).
Proof.
  intro X. split; [|split].
  - intros e w1 E. exact (Release_rollback_action_raises s X E).
  - intros w1 e w2 E1 E2.
    destruct (@Step_rollback_check_raises a (snd (log EvReleaseRollback s))
                w1 e w2 E1 E2) as (s1 & R & _ & W).
    rewrite <- W. exact (Release_rollback_first_raises s X R).
  - intros w1 final w2 E1 E2 N.
    destruct (@Step_rollback_mismatch a (snd (log EvReleaseRollback s))
                w1 final w2 E1 E2 N) as (s1 & R & W).
    rewrite <- W. exact (Release_rollback_first_raises s X R).
Qed.

(** ** A step object during the turns of the other steps *)

Lemma Release_execute_step_other a b s r s' :
  b <> a ->
  Release_execute_step b s = (r, s') ->
  initial (heap s' a) = initial (heap s a).
Proof.
  intros N H. pose proof (Release_execute_step_cases b s) as K.
  destruct (announce_heap b s a) as (_ & _ & _ & _ & _ & _ & I).
  destruct (Step_execute b (snd (announce b s))) as [[[]|e] s1] eqn:E;
    rewrite K in H; apply only_initial_Step_execute in E;
    destruct (E a) as (Q & _);
    assert (Na : a <> b) by (intro Z; apply N; symmetry; exact Z);
    specialize (Q Na).
  - inversion H; subst. cbn. rewrite Q. exact I.
  - apply same_heap_handler in H. rewrite H, Q. exact I.
Qed.

Lemma Release_execute_loop_other a l s r s' :
  ~ In a l ->
  Release_execute_loop l s = (r, s') ->
  initial (heap s' a) = initial (heap s a).
Proof.
  revert s. induction l as [|b l IH]; intros s N H.
  - inversion H; subst. reflexivity.
  - cbn [Release_execute_loop] in H. apply bind_inv in H.
    assert (Nb : b <> a) by (intro Z; apply N; left; exact Z).
    assert (Nl : ~ In a l) by (intro Z; apply N; right; exact Z).
    destruct H as [([] & s1 & H1 & H2) | (e & H1 & _)].
    + rewrite (IH _ Nl H2).
      exact (@Release_execute_step_other a b s (Ok tt) s1 Nb H1).
    + exact (@Release_execute_step_other a b s (Raise e) s' Nb H1).
Qed.

Lemma static_heap_Release_execute_loop l :
  preserves static_heap (Release_execute_loop l).
Proof.
  induction l as [|b l IH]; intros s r s' H.
  - inversion H; subst. intro c. repeat split.
  - cbn [Release_execute_loop] in H. apply bind_inv in H.
    destruct H as [([] & s1 & H1 & H2) | (e & H1 & _)].
    + apply static_heap_Release_execute_step in H1. apply IH in H2.
      intro c. eapply same_static_trans; [apply H1 | apply H2].
    + apply static_heap_Release_execute_step in H1. exact H1.
Qed.

(** A step that went through holds in [initial] what its check observed
    at the start of its turn. *)
Lemma Release_execute_step_initial a s s' :
  Release_execute_step a s = (Ok tt, s') ->
  exists i w1,
    check (heap s a) (world s) = (Ok i, w1) /\
    initial (heap s' a) = i.
Proof.
  intro H. apply Release_execute_step_ok in H. destruct H as (x & E & ->).
  pose proof (Step_execute_pass_cases a (snd (announce a s))) as C.
  destruct (announced a s) as (W & Ch & _).
  destruct (pass (heap (snd (announce a s)) a) (world (snd (announce a s))))
    as [w'|].
  - destruct C as (x' & i & w1 & E' & _ & C1 & I).
    rewrite E in E'. inversion E'; subst x'.
    rewrite Ch, W in C1. exists i, w1. split; [exact C1 | exact I].
  - destruct C as (e & x' & E'). rewrite E in E'. discriminate E'.
Qed.

End Properties.

(** * Properties of the steps of release/fs.py *)

Section FsProperties.

Import Fs.

Context {H : Host}.

#[local] Existing Instance Fs.platform.

(** After [Step.execute] the step object at [a] is still the one
    [Step.__init__] made. *)
Lemma holds_after (a : addr) (st : Step) (s : Sys) r (s' : Sys) :
  holds s a st -> Step_execute a s = (r, s') -> holds s' a st.
Proof.
  intros (A1 & A2 & A3 & A4 & A5 & A6) E.
  apply static_heap_Step_execute in E.
  destruct (E a) as (B1 & B2 & B3 & B4 & B5 & B6).
  unfold holds. repeat split; congruence.
Qed.

(** X12.  [Copy] does not overwrite: when the destination exists,
    [Step.execute] raises a [PreconditionError] that carries
    [{'destination_exists': True}], the action is not called and the
    file system is left as it is. *)
Theorem Copy_refuses_existing_destination
    (a : addr) (src_path dest_path : string) (s : Sys) :
  holds s a (Copy src_path dest_path) ->
  os_path_exists dest_path (world s) = true ->
  exists s',
    Step_execute a s =
      (Raise (PreconditionError (name (Copy src_path dest_path))
                (destination_state true)), s') /\
    world s' = world s /\
    action_invoked (journal s') a = action_invoked (journal s) a.
Proof.
  intros (A1 & A2 & A3 & _) E.
  destruct (@Step_execute_precondition_false _ a s (destination_state true)
              (world s))
    as (s' & X & J & W & _).
  - rewrite A2. cbn. unfold Copy_check. rewrite E. reflexivity.
  - rewrite A3. reflexivity.
  - exists s'. rewrite A1 in X. split; [exact X|]. split; [exact W|].
    rewrite J, action_invoked_app. simpl. apply orb_false_r.
Qed.

(** X13.  [Symlink] does not overwrite: when something exists at the
    path of the link, [Step.execute] raises and leaves the file system as
    it is.  It raises a [PreconditionError] that carries the state
    observed, or, when reading an existing link fails, the
    [ExecutionError] of phase CHECK_INITIAL. *)
Theorem Symlink_refuses_existing_path
    (a : addr) (src_path link_path : string) (s : Sys) :
  holds s a (Symlink src_path link_path) ->
  os_path_exists link_path (world s) = true ->
  exists e s',
    Step_execute a s = (Raise e, s') /\
    world s' = world s /\
    ((exists link,
        e = PreconditionError (name (Symlink src_path link_path))
              (link_state true link)) \/
     (exists tr,
        e = ExecutionError (name (Symlink src_path link_path))
              CHECK_INITIAL tr)).
Proof.
  intros (A1 & A2 & A3 & _) E.
  assert (C : (exists link,
                 check (heap s a) (world s) =
                   (Ok (link_state true link), world s)) \/
              (exists e,
                 check (heap s a) (world s) = (Raise e, world s))).
  { rewrite A2. cbn. unfold link_check. rewrite E.
    destruct (os_path_islink link_path (world s)); [|eauto].
    destruct (os_readlink link_path (world s)); eauto. }
  destruct C as [(link & C) | (e & C)].
  - destruct (@Step_execute_precondition_false _ a s (link_state true link)
                (world s) C)
      as (s' & X & _ & W & _).
    + rewrite A3. reflexivity.
    + rewrite A1 in X. eauto 8.
  - destruct (Step_execute_check_raises _ _ C) as (s' & X & _ & W & _).
    rewrite A1 in X. eauto 8.
Qed.

(** X14.  [Unlink] removes nothing but a link that leads somewhere.  On
    a path where [os.path.exists] is false, which is also the case of a
    link whose target is missing, [Step.execute] returns and leaves the
    file system as it is.  On a path that exists and is not a link it
    raises a [PreconditionError] and leaves the file system as it is. *)
Theorem Unlink_spares_what_is_not_a_link
    (a : addr) (link_path : string) (s : Sys) :
  holds s a (Unlink link_path) ->
  (os_path_exists link_path (world s) = false ->
   exists s', Step_execute a s = (Ok tt, s') /\ world s' = world s)
  /\
  (os_path_exists link_path (world s) = true ->
   os_path_islink link_path (world s) = false ->
   exists s',
     Step_execute a s =
       (Raise (PreconditionError (name (Unlink link_path))
                 (link_state true None)), s') /\
     world s' = world s).
Proof.
  intros (A1 & A2 & A3 & A4 & A5 & _). split.
  - intro E.
    destruct (@Step_execute_succeeds _ a s (link_state false None)
                (world s) (world s) (world s))
      as (s' & X & _ & W & _).
    + rewrite A2. cbn. unfold link_check. rewrite E. reflexivity.
    + rewrite A3. reflexivity.
    + rewrite A5. reflexivity.
    + rewrite A2, A4. cbn. unfold link_check. rewrite E. reflexivity.
    + eauto.
  - intros E L.
    destruct (@Step_execute_precondition_false _ a s (link_state true None)
                (world s))
      as (s' & X & _ & W & _).
    + rewrite A2. cbn. unfold link_check. rewrite E, L. reflexivity.
    + rewrite A3. reflexivity.
    + rewrite A1 in X. eauto.
Qed.

(** X15.  [Unlink] there and back.  On a link to [target] that
    [os.remove] removes, [Step.execute] returns; when [os.symlink] can
    then make the link again, [Step.rollback] makes it with the target
    that the first check recorded and returns, having observed the
    initial state again. *)
Theorem Unlink_round_trip
    (a : addr) (link_path target : string) (s : Sys) (w1 w2 : World) :
  holds s a (Unlink link_path) ->
  os_path_exists link_path (world s) = true ->
  os_path_islink link_path (world s) = true ->
  os_readlink link_path (world s) = Ok target ->
  os_remove link_path (world s) = (Ok tt, w1) ->
  os_path_exists link_path w1 = false ->
  os_symlink target link_path w1 = (Ok tt, w2) ->
  os_path_exists link_path w2 = true ->
  os_path_islink link_path w2 = true ->
  os_readlink link_path w2 = Ok target ->
  exists s1 s2,
    Step_execute a s = (Ok tt, s1) /\ world s1 = w1 /\
    initial (heap s1 a) = link_state true (Some target) /\
    Step_rollback a s1 = (Ok tt, s2) /\ world s2 = w2.
Proof.
  intros Hs E1 E2 E3 E4 E5 E6 E7 E8 E9.
  pose proof Hs as (A1 & A2 & A3 & A4 & A5 & A6).
  destruct (@Step_execute_succeeds _ a s (link_state true (Some target))
              (world s) w1 w1)
    as (s1 & X & _ & W & I).
  - rewrite A2. cbn. unfold link_check. rewrite E1, E2, E3. reflexivity.
  - rewrite A3. reflexivity.
  - rewrite A5. cbn. exact E4.
  - rewrite A2, A4. cbn. unfold link_check. rewrite E5. reflexivity.
  - pose proof (holds_after Hs X) as (B1 & B2 & B3 & B4 & B5 & B6).
    destruct (@Step_rollback_succeeds _ a s1 w2
                (link_state true (Some target)) w2)
      as (s2 & Y & W2).
    + rewrite B6, I, W. cbn. exact E6.
    + rewrite B2. cbn. unfold link_check. rewrite E7, E8, E9. reflexivity.
    + exact I.
    + exists s1, s2. auto.
Qed.

(** X16.  [Symlink] there and back, and a link to a missing source.
    Where nothing exists at the path of the link and [os.symlink] makes
    the link: when the link then leads to the source, [Step.execute]
    returns, and [Step.rollback], when [os.remove] removes the link,
    returns too; when the link leads nowhere, [Step.execute] has made the
    link and raises a [PostconditionError] that carries
    [{'file_exists': False, 'link': None}] and the expected state. *)
Theorem Symlink_round_trip_and_dangling_source
    (a : addr) (src_path link_path : string) (s : Sys) (w1 : World) :
  holds s a (Symlink src_path link_path) ->
  os_path_exists link_path (world s) = false ->
  os_symlink src_path link_path (world s) = (Ok tt, w1) ->
  (forall w2,
     os_path_exists link_path w1 = true ->
     os_path_islink link_path w1 = true ->
     os_readlink link_path w1 = Ok src_path ->
     os_remove link_path w1 = (Ok tt, w2) ->
     os_path_exists link_path w2 = false ->
     exists s1 s2,
       Step_execute a s = (Ok tt, s1) /\ world s1 = w1 /\
       Step_rollback a s1 = (Ok tt, s2) /\ world s2 = w2)
  /\
  (os_path_exists link_path w1 = false ->
   exists s1,
     Step_execute a s =
       (Raise (PostconditionError (name (Symlink src_path link_path))
                 (link_state false None)
                 (link_state true (Some src_path))), s1) /\
     world s1 = w1).
Proof.
  intros Hs E1 E2.
  pose proof Hs as (A1 & A2 & A3 & A4 & A5 & A6).
  split.
  - intros w2 E3 E4 E5 E6 E7.
    destruct (@Step_execute_succeeds _ a s (link_state false None)
                (world s) w1 w1)
      as (s1 & X & _ & W & I).
    + rewrite A2. cbn. unfold link_check. rewrite E1. reflexivity.
    + rewrite A3. reflexivity.
    + rewrite A5. cbn. exact E2.
    + rewrite A2, A4. cbn. unfold link_check. rewrite E3, E4, E5.
      reflexivity.
    + pose proof (holds_after Hs X) as (B1 & B2 & B3 & B4 & B5 & B6).
      destruct (@Step_rollback_succeeds _ a s1 w2 (link_state false None) w2)
        as (s2 & Y & W2).
      * rewrite B6, W. cbn. exact E6.
      * rewrite B2. cbn. unfold link_check. rewrite E7. reflexivity.
      * exact I.
      * exists s1, s2. auto.
  - intro E3.
    destruct (@Step_execute_postcondition_fails _ a s (link_state false None)
                (world s) w1 (link_state false None) w1)
      as (s1 & X & _ & W & _).
    + rewrite A2. cbn. unfold link_check. rewrite E1. reflexivity.
    + rewrite A3. reflexivity.
    + rewrite A5. cbn. exact E2.
    + rewrite A2. cbn. unfold link_check. rewrite E3. reflexivity.
    + rewrite A4. cbn. discriminate.
    + rewrite A1, A4 in X. exists s1. auto.
Qed.

(** X17.  [Copy] and its temporary directory.  When the destination does
    not exist and the temporary directory is made: if the copy and the
    move succeed and the destination then exists, [Step.execute] returns
    in the file system left by the clean-up of the directory; if the copy
    raises, the move is not made, the directory is cleaned up all the
    same, and [Step.execute] raises the [ExecutionError] of phase EXECUTE
    for the exception of the copy. *)
Theorem Copy_cleans_its_temporary_directory
    (a : addr) (src_path dest_path dir_path : string) (s : Sys)
    (w1 : World) :
  holds s a (Copy src_path dest_path) ->
  os_path_exists dest_path (world s) = false ->
  mkdtemp (world s) = (Ok dir_path, w1) ->
  (forall w2 w3 w4,
     shutil_copyfile src_path (os_path_join dir_path "temporary") w1 =
       (Ok tt, w2) ->
     shutil_move (os_path_join dir_path "temporary") dest_path w2 =
       (Ok tt, w3) ->
     cleanup dir_path w3 = (Ok tt, w4) ->
     os_path_exists dest_path w4 = true ->
     exists s1, Step_execute a s = (Ok tt, s1) /\ world s1 = w4)
  /\
  (forall e w2 w3,
     shutil_copyfile src_path (os_path_join dir_path "temporary") w1 =
       (Raise e, w2) ->
     cleanup dir_path w2 = (Ok tt, w3) ->
     exists s1,
       Step_execute a s =
         (Raise (ExecutionError (name (Copy src_path dest_path)) EXECUTE
                   (traceback_format_exc e)), s1) /\
       world s1 = w3).
Proof.
  intros (A1 & A2 & A3 & A4 & A5 & A6) E1 E2. split.
  - intros w2 w3 w4 E3 E4 E5 E6.
    destruct (@Step_execute_succeeds _ a s (destination_state false)
                (world s) w4 w4)
      as (s1 & X & _ & W & _).
    + rewrite A2. cbn. unfold Copy_check. rewrite E1. reflexivity.
    + rewrite A3. reflexivity.
    + rewrite A5. cbn. unfold Copy_action. rewrite E2, E3, E4, E5.
      reflexivity.
    + rewrite A2, A4. cbn. unfold Copy_check. rewrite E6. reflexivity.
    + eauto.
  - intros e w2 w3 E3 E4.
    destruct (@Step_execute_action_raises _ a s (destination_state false)
                (world s) e w3)
      as (s1 & X & _ & W & _).
    + rewrite A2. cbn. unfold Copy_check. rewrite E1. reflexivity.
    + rewrite A3. reflexivity.
    + rewrite A5. cbn. unfold Copy_action. rewrite E2, E3, E4.
      reflexivity.
    + rewrite A1 in X. eauto.
Qed.

(** X18.  A link that [Unlink] removed is not put back once the path is
    taken again.  In a release that starts with [Unlink] on a link, when
    a later step fails with an error that the release handles and
    something is at the path of the link by then (the new link made by a
    [Symlink] that followed, in the usual way of pointing a link at a new
    target), the rollback starts with the [Unlink] step, [os.symlink]
    raises, and the cascade stops there: [Release.execute] raises the
    error of the failing step, no other step is rolled back, and the file
    system is left as it was when the step failed, up to what the failed
    [os.symlink] did. *)
Theorem Unlink_is_not_undone_once_the_path_is_taken
    (nm : string) (a : addr) (pre : list addr) (c : addr) (post : list addr)
    (given : option string) (link_path old : string) (s s2 : Sys)
    (e e_link : exc) (w3 : World) :
  rel s = Release_init nm (a :: pre ++ c :: post) given ->
  holds s a (Unlink link_path) ->
  ~ In a pre ->
  a <> c ->
  os_path_exists link_path (world s) = true ->
  os_path_islink link_path (world s) = true ->
  os_readlink link_path (world s) = Ok old ->
  fails_at s (a :: pre) c e s2 ->
  handled e = true ->
  os_symlink old link_path (world s2) = (Raise e_link, w3) ->
  exists s',
    Release_execute s = (Raise e, s') /\
    world s' = w3 /\
    rollback_calls (journal s') = rollback_calls (journal s) ++ [a].
Proof.
  intros R Ha Np Nc E1 E2 E3 F Hd Es.
  pose proof Ha as (A1 & A2 & A3 & A4 & A5 & A6).
  pose proof F as (s1 & L & E).
  cbn [Release_execute_loop] in L. apply bind_inv in L.
  destruct L as [([] & sa & L1 & L2) | (e0 & _ & Z)]; [|discriminate Z].
  destruct (@Release_execute_step_initial _ a s sa L1) as (i & w1 & C & I).
  rewrite A2 in C. cbn in C. unfold link_check in C.
  rewrite E1, E2, E3 in C. injection C as Hi Hw. subst i w1.
  pose proof (@static_heap_Release_execute_step _ a s (Ok tt) sa L1 a)
    as (_ & _ & _ & _ & _ & X1).
  pose proof (@static_heap_Release_execute_loop _ pre sa (Ok tt) s1 L2 a)
    as (_ & _ & _ & _ & _ & X2).
  pose proof (@Release_execute_loop_other _ a pre sa (Ok tt) s1 Np L2) as I2.
  destruct (announce_heap c s1 a) as (_ & _ & _ & _ & _ & B6 & BI).
  pose proof E as E'. apply only_initial_Step_execute in E'.
  destruct (E' a) as (Q & _). specialize (Q Nc).
  assert (RA : rollback_action (heap s2 a) =
               Unlink_rollback_action link_path).
  { rewrite Q, B6, X2, X1, A6. reflexivity. }
  assert (IN : initial (heap s2 a) = link_state true (Some old)).
  { rewrite Q, BI, I2. exact I. }
  destruct (@handled_failure _ nm (a :: pre) c post given s e s2 R F Hd)
    as (s_entry & X & W & Hp & J & Ex & _).
  destruct (@Release_rollback_action_raises _ s_entry a
              (pre ++ (if appends_step e then [c] else [])) e_link w3)
    as (W3 & Cl).
  - exact Ex.
  - rewrite Hp, W, RA, IN. cbn. exact Es.
  - exists (snd (Release_rollback s_entry)).
    split; [exact X|]. split; [exact W3|].
    destruct (@failure_outcome _ nm (a :: pre) c post given s e s2 R F)
      as (_ & _ & _ & _ & B & _).
    rewrite Cl, J, B. reflexivity.
Qed.

End FsProperties.

(** * Concrete runs *)

Import Demo.

(** C2.  The release of one step whose postcondition fails and whose
    rollback action raises: [Release.execute] raises the
    [PostconditionError], [Release.rollback] calls the step's
    [rollback()], which raises an [ExecutionError] of phase ROLLBACK at
    the rollback action, and the cascade stops there; the only error
    recorded at the end is the [PostconditionError].  The same with a
    step before it whose rollback raises: the later step is not rolled
    back and nothing is recorded for the failure.  In general
    [Release.rollback] leaves the recorded errors as they are, or
    reversed. *)
Theorem rollback_failure_is_not_recorded :
  (let run := Release_execute (fresh_release [failure_postcondition_rollback]) in
   fst run = Raise (PostconditionError "broken" (PyDict []) (PyDict [("a", 1)])) /\
   filter rollback_side (journal (snd run)) =
     [EvReleaseRollback; EvRollback 0; EvCall 0 ROLLBACK] /\
   executed_steps (rel (snd run)) = [0] /\
   exceptions (rel (snd run)) = [PostconditionError "broken" (PyDict []) (PyDict [("a", 1)])])
  /\
  (let run := Release_execute
                (fresh_release [failure_rollback_action; success;
                                failure_precondition]) in
   fst run = Raise (PreconditionError "success" (PyDict [])) /\
   executed_steps (rel (snd run)) = [0; 1] /\
   rollback_calls (journal (snd run)) = [0] /\
   exceptions (rel (snd run)) = [PreconditionError "success" (PyDict [])])
  /\
  (forall (P : Platform) (s : Sys),
     exceptions (rel (snd (Release_rollback s))) = exceptions (rel s) \/
     exceptions (rel (snd (Release_rollback s))) = rev (exceptions (rel s))).
Proof.
  split; [|split].
  - vm_compute. repeat split.
  - vm_compute. repeat split.
  - intros P s. destruct (Release_rollback s) as [r s'] eqn:E.
    apply same_or_reversed_Release_rollback in E. exact E.
Qed.

Lemma execution_error_commits_iff_check_final_witness :
  exists s3,
    Release_execute (fresh_release [failure_action; success]) =
      (Raise (ExecutionError "success" EXECUTE
                "Traceback (most recent call last):"), s3) /\
    List.length (executed_steps (rel s3)) = 0 /\
    execute_calls (journal s3) = [0].
Proof.
  destruct (@execution_error_commits_iff_check_final platform) as [_ H].
  apply (H "test" 0 [1] None (fresh_release [failure_action; success])
           (PyDict []) 0 (OtherException "Exception") 0);
    reflexivity.
Defined.


Lemma precondition_failure_skips_action_witness :
  (exists s',
     Step_execute 0 (fresh_release [failure_precondition]) =
       (Raise (PreconditionError "success" (PyDict [])), s') /\
     journal s' = [EvExecute 0; EvCall 0 CHECK_INITIAL;
                   EvObserved 0 CHECK_INITIAL (PyDict []); EvPrecondition 0] /\
     action_invoked (journal s') 0 = false) /\
  (exists s3,
     Release_execute (fresh_release [success; failure_precondition]) =
       (Raise (PreconditionError "success" (PyDict [])), s3) /\
     executed_steps (rel s3) = [0]).
Proof.
  destruct (@precondition_failure_skips_action platform) as [H1 H2].
  split.
  - apply (H1 0 (fresh_release [failure_precondition]) (PyDict []) 0); reflexivity.
  - destruct (H2 "test" [0] 1 [] None
                (fresh_release [success; failure_precondition])
                (snd (Release_execute_loop [0]
                        (fresh_release [success; failure_precondition])))
                (PyDict []) 0 eq_refl)
      as (s3 & E & X & _).
    + vm_compute. reflexivity.
    + reflexivity.
    + reflexivity.
    + exists s3. split; assumption.
Defined.

Lemma postcondition_failure_commits_step_witness :
  (exists s',
     Step_execute 0 (fresh_release [failure_postcondition]) =
       (Raise (PostconditionError "success" (PyDict []) (PyDict [("a", 1)])), s')) /\
  (exists s_entry,
     Release_execute (fresh_release [success; failure_postcondition]) =
       (Raise (PostconditionError "success" (PyDict []) (PyDict [("a", 1)])),
        snd (Release_rollback s_entry)) /\
     executed_steps (rel s_entry) = [0; 1] /\
     executed_steps (rel (snd (Release_rollback s_entry))) = [0; 1]).
Proof.
  destruct (@postcondition_failure_commits_step platform) as [H1 H2].
  split.
  - apply (H1 0 (fresh_release [failure_postcondition]) (PyDict []) 0 0 (PyDict []) 0);
      try reflexivity.
    discriminate.
  - destruct (H2 "test" [0] 1 [] None
                (fresh_release [success; failure_postcondition])
                (snd (Release_execute_loop [0]
                        (fresh_release [success; failure_postcondition])))
                (PyDict []) 0 0 (PyDict []) 0 eq_refl)
      as (s_entry & E & X1 & _ & X3 & _).
    + vm_compute. reflexivity.
    + vm_compute. reflexivity.
    + vm_compute. reflexivity.
    + vm_compute. reflexivity.
    + vm_compute. reflexivity.
    + vm_compute. discriminate.
    + exists s_entry. repeat split; assumption.
Defined.

Lemma steps_in_order_halt_at_failure_witness :
  exists s3,
    Release_execute (fresh_release [success; failure_action; success]) =
      (Raise (ExecutionError "success" EXECUTE
                "Traceback (most recent call last):"), s3) /\
    execute_calls (journal s3) = [0; 1].
Proof.
  destruct (@steps_in_order_halt_at_failure platform) as [_ H].
  destruct (H "test" [0] 1 [2] None
              (fresh_release [success; failure_action; success])
              (ExecutionError "success" EXECUTE
                 "Traceback (most recent call last):")
              (snd (Step_execute 1
                 (snd (announce 1
                    (snd (Release_execute_loop [0]
                       (fresh_release
                          [success; failure_action; success])))))))
              eq_refl)
    as (s3 & E & C & _).
  - exists (snd (Release_execute_loop [0]
                   (fresh_release [success; failure_action; success]))).
    split; vm_compute; reflexivity.
  - exists s3. split; assumption.
Defined.

(** The two no-op steps of the specification's scenario. *)
Lemma all_steps_pass_witness :
  exists s',
    Release_execute (fresh_release [success; success]) = (Ok tt, s') /\
    executed_steps (rel s') = [0; 1] /\
    List.length (executed_steps (rel s')) = 2 /\
    exceptions (rel s') = [] /\
    rollback_invoked (journal s') = false /\
    rollback_calls (journal s') = [] /\
    execute_calls (journal s') = [0; 1].
Proof.
  apply (@all_steps_pass platform 0 (store [success; success]) "test"
           [0; 1] None).
  reflexivity.
Defined.

(** A precondition predicate that raises a [PreconditionError] of its
    own: the release records the error and enters [Release.rollback],
    which rolls the first step back. *)
Lemma raised_precondition_error_is_handled :
  let s := fresh_release [success; precondition_raises] in
  let run := Release_execute s in
  precondition (heap s 1) (PyDict []) =
    Raise (PreconditionError "raising" (PyDict [])) /\
  fst run = Raise (PreconditionError "raising" (PyDict [])) /\
  exceptions (rel (snd run)) = [PreconditionError "raising" (PyDict [])] /\
  rollback_invoked (journal (snd run)) = true /\
  rollback_calls (journal (snd run)) = [0].
Proof.
  vm_compute. repeat split.
Qed.

Lemma precondition_exception_propagates_witness :
  (exists s',
     Step_execute 0 (fresh_release [precondition_raises_other]) =
       (Raise (OtherException "ValueError"), s')) /\
  (exists s3,
     Release_execute (fresh_release [success; precondition_raises_other]) =
       (Raise (OtherException "ValueError"), s3) /\
     exceptions (rel s3) = [] /\
     executed_steps (rel s3) = [0] /\
     rollback_invoked (journal s3) = false).
Proof.
  destruct (@precondition_exception_propagates platform) as [H1 H2].
  split.
  - destruct (H1 0 (fresh_release [precondition_raises_other]) (PyDict []) 0
                (OtherException "ValueError") eq_refl eq_refl)
      as (s' & E & _).
    exists s'. exact E.
  - apply (H2 "test" [0] 1 [] None
             (fresh_release [success; precondition_raises_other])
             (snd (Release_execute_loop [0]
                     (fresh_release [success; precondition_raises_other])))
             (PyDict []) 0 (OtherException "ValueError") eq_refl).
    + vm_compute. reflexivity.
    + reflexivity.
    + reflexivity.
    + reflexivity.
Defined.

(** A step whose check returns [None] goes through and is committed,
    and its [initial] is [None] still. *)
Lemma executed_step_may_hold_None :
  fst (Release_execute (fresh_release [observes_none])) = Ok tt /\
  executed_steps
    (rel (snd (Release_execute (fresh_release [observes_none])))) = [0] /\
  last_initial
    (journal (snd (Release_execute (fresh_release [observes_none]))))
    0 = Some PyNone /\
  initial (heap (snd (Release_execute (fresh_release [observes_none]))) 0) =
    PyNone /\
  initial (heap (fresh_release [observes_none]) 0) = PyNone.
Proof.
  vm_compute. repeat split.
Qed.

Lemma executed_steps_hold_initial_witness :
  (exists i,
     last_initial
       (journal (snd (Release_execute
                        (fresh_release [success; failure_postcondition]))))
       1 = Some i /\
     initial (heap (snd (Release_execute
                           (fresh_release [success; failure_postcondition])))
                1) = i /\
     (i <> PyNone ->
      initial (heap (snd (Release_execute
                            (fresh_release [success; failure_postcondition])))
                 1) <> PyNone)) /\
  fst (Step_rollback 0 (snd (Step_execute 0 (fresh_release [success])))) =
    Ok tt /\
  fst (Step_rollback 0 (fresh_release [success])) =
    Raise (RollbackPostconditionError "success" (PyDict []) PyNone).
Proof.
  destruct (@executed_steps_hold_initial platform) as (H1 & _ & _ & H4).
  split; [|split].
  - apply (H1 0 (store [success; failure_postcondition]) "test" [0; 1] None
             (fst (Release_execute
                     (fresh_release [success; failure_postcondition])))).
    + vm_compute. reflexivity.
    + vm_compute. right. left. reflexivity.
  - destruct (H4 0 (snd (Step_execute 0 (fresh_release [success]))) 0
                (PyDict []) 0) as (G & _); [reflexivity | reflexivity |].
    apply G. reflexivity.
  - destruct (H4 0 (fresh_release [success]) 0 (PyDict []) 0) as (_ & G);
      [reflexivity | reflexivity |].
    apply G. discriminate.
Defined.

(** ** Runs for the further properties *)

Lemma Step_execute_returns_iff_pass_witness :
  (exists s',
     Step_execute 0 (fresh_release [success]) = (Ok tt, s') /\ world s' = 0)
  /\
  (exists e s',
     Step_execute 0 (fresh_release [failure_postcondition]) = (Raise e, s')).
Proof.
  split.
  - destruct (@Step_execute_returns_iff_pass platform 0
                (fresh_release [success])) as (H & _).
    apply (H 0). reflexivity.
  - destruct (@Step_execute_returns_iff_pass platform 0
                (fresh_release [failure_postcondition])) as (_ & _ & H).
    apply H. reflexivity.
Defined.

Lemma Step_execute_raises_only_witness :
  Step_execute 0 (fresh_release [failure_precondition]) =
    (Raise (PreconditionError "success" (PyDict [])),
     snd (Step_execute 0 (fresh_release [failure_precondition]))) /\
  exists i,
    PreconditionError "success" (PyDict []) =
      PreconditionError (name (heap (fresh_release [failure_precondition]) 0))
        i /\
    initial (heap (snd (Step_execute 0 (fresh_release [failure_precondition])))
               0) = i.
Proof.
  assert (E : Step_execute 0 (fresh_release [failure_precondition]) =
                (Raise (PreconditionError "success" (PyDict [])),
                 snd (Step_execute 0 (fresh_release [failure_precondition]))))
    by (vm_compute; reflexivity).
  split; [exact E|].
  destruct (@Step_execute_raises_only platform 0 _ _ _ E)
    as [(p & tr & Q & _) | [G | [(f & Q & _) | (i & Q)]]].
  - discriminate Q.
  - exact G.
  - discriminate Q.
  - vm_compute in Q. discriminate Q.
Defined.

Lemma Step_rollback_outcomes_witness :
  journal (snd (Step_rollback 0
                  (snd (Step_execute 0 (fresh_release [success]))))) =
    journal (snd (Step_execute 0 (fresh_release [success]))) ++
    [EvRollback 0; EvCall 0 ROLLBACK; EvCall 0 CHECK_ROLLBACK;
     EvObserved 0 CHECK_ROLLBACK (PyDict [])] /\
  ~ (exists s', Step_rollback 0 (fresh_release [success]) = (Ok tt, s')) /\
  (exists s', Step_rollback 0 (fresh_release [observes_none]) = (Ok tt, s')).
Proof.
  split; [|split].
  - destruct (@Step_rollback_outcomes platform 0
                (snd (Step_execute 0 (fresh_release [success]))))
      as (H1 & _ & _).
    apply H1. vm_compute. reflexivity.
  - destruct (@Step_rollback_outcomes platform 0 (fresh_release [success]))
      as (_ & _ & H3).
    destruct (H3 0 (PyDict []) 0) as ((K & _) & _);
      [reflexivity | reflexivity |].
    intro N. apply K in N. discriminate N.
  - destruct (@Step_rollback_outcomes platform 0
                (fresh_release [observes_none]))
      as (_ & _ & H3).
    destruct (H3 0 PyNone 0) as (_ & K); [reflexivity | reflexivity |].
    apply K; reflexivity.
Defined.

Lemma Step_methods_leave_the_rest_witness :
  (rel (snd (Step_execute 1 (fresh_release [success; failure_action]))) =
     rel (fresh_release [success; failure_action]) /\
   heap (snd (Step_execute 1 (fresh_release [success; failure_action]))) 0 =
     heap (fresh_release [success; failure_action]) 0) /\
  console (snd (Step_rollback 0 (fresh_release [failure_rollback_action]))) =
    console (fresh_release [failure_rollback_action]).
Proof.
  split.
  - destruct (@Step_methods_leave_the_rest platform 1
                (fresh_release [success; failure_action])) as (H1 & _).
    destruct (H1 (fst (Step_execute 1 (fresh_release [success; failure_action])))
                 (snd (Step_execute 1 (fresh_release [success; failure_action]))))
      as (R & Hp & _).
    + apply surjective_pairing.
    + split; [exact R|]. apply Hp. discriminate.
  - destruct (@Step_methods_leave_the_rest platform 0
                (fresh_release [failure_rollback_action])) as (_ & H2).
    destruct (H2 (fst (Step_rollback 0 (fresh_release [failure_rollback_action])))
                 (snd (Step_rollback 0 (fresh_release [failure_rollback_action]))))
      as (_ & _ & C).
    + apply surjective_pairing.
    + exact C.
Defined.

Lemma Release_rollback_never_raises_witness :
  forallb has_explain
    (exceptions
       (rel (snd (Release_execute
                    (fresh_release [failure_postcondition_rollback]))))) =
    true /\
  exists s',
    Release_rollback
      (snd (Release_execute (fresh_release [failure_postcondition_rollback]))) =
      (Ok tt, s') /\
    heap s' =
      heap (snd (Release_execute
                   (fresh_release [failure_postcondition_rollback]))) /\
    executed_steps (rel s') = [0].
Proof.
  assert (E : forallb has_explain
    (exceptions
       (rel (snd (Release_execute
                    (fresh_release [failure_postcondition_rollback]))))) =
    true) by (vm_compute; reflexivity).
  split; [exact E|].
  destruct (@Release_rollback_never_raises platform _ E)
    as (s' & R & Hh & _ & X & _).
  exists s'. split; [exact R|]. split; [exact Hh|].
  rewrite X. vm_compute. reflexivity.
Defined.

Lemma Release_execute_raises_what_a_step_raised_witness :
  (exists pre a post s2,
     [0; 1; 2] = pre ++ a :: post /\
     fails_at (fresh_release [success; failure_postcondition; success])
       pre a (PostconditionError "success" (PyDict []) (PyDict [("a", 1)])) s2) /\
  exceptions
    (rel (snd (Release_execute
                 (fresh_release [success; failure_postcondition; success])))) =
    [PostconditionError "success" (PyDict []) (PyDict [("a", 1)])].
Proof.
  apply (@Release_execute_raises_what_a_step_raised platform "test" [0; 1; 2]
           None (fresh_release [success; failure_postcondition; success])
           (Raise (PostconditionError "success" (PyDict []) (PyDict [("a", 1)])))
           (snd (Release_execute
                   (fresh_release [success; failure_postcondition; success])))).
  - reflexivity.
  - vm_compute. reflexivity.
Defined.

Lemma executed_steps_is_initial_segment_witness :
  steps (rel (snd (Release_execute
                     (fresh_release [success; failure_action; success])))) =
    [0; 1; 2] /\
  exists k,
    k <= 3 /\
    executed_steps
      (rel (snd (Release_execute
                   (fresh_release [success; failure_action; success])))) =
      firstn k [0; 1; 2] /\
    (fst (Release_execute (fresh_release [success; failure_action; success])) =
       Ok tt -> k = 3).
Proof.
  apply (@executed_steps_is_initial_segment platform "test" [0; 1; 2] None
           (fresh_release [success; failure_action; success])).
  - reflexivity.
  - apply surjective_pairing.
Defined.

Lemma rollback_only_of_executed_steps_witness :
  rollback_invoked
    (journal (snd (Release_execute
                     (fresh_release [success; success; failure_precondition]))))
    = true /\
  exists m,
    rollback_calls
      (journal (snd (Release_execute
                       (fresh_release
                          [success; success; failure_precondition])))) =
      firstn m
        (executed_steps
           (rel (snd (Release_execute
                        (fresh_release
                           [success; success; failure_precondition]))))).
Proof.
  destruct (@rollback_only_of_executed_steps platform "test" [0; 1; 2] None
              (fresh_release [success; success; failure_precondition])
              (Raise (PreconditionError "success" (PyDict [])))
              (snd (Release_execute
                      (fresh_release
                         [success; success; failure_precondition]))))
    as (H1 & m & H2 & _).
  - reflexivity.
  - vm_compute. reflexivity.
  - split; [exact H1|]. exists m. exact H2.
Defined.

Lemma Release_execute_returns_iff_all_pass_witness :
  (exists s', Release_execute (fresh_release [success; success]) = (Ok tt, s'))
  /\
  ~ (exists s',
       Release_execute (fresh_release [success; failure_postcondition]) =
         (Ok tt, s')).
Proof.
  split.
  - destruct (@Release_execute_returns_iff_all_pass platform
                (fresh_release [success; success])) as ((_ & H) & _).
    apply H. reflexivity.
  - destruct (@Release_execute_returns_iff_all_pass platform
                (fresh_release [success; failure_postcondition]))
      as ((H & _) & _).
    intro N. apply H in N. vm_compute in N. discriminate N.
Defined.

Lemma sink_gets_one_block_per_attempt_witness :
  (exists k,
     execute_calls
       (journal (snd (Release_execute
                        (fresh_release [success; failure_action; success])))) =
       firstn k [0; 1; 2] /\
     release_stdout
       (rel (snd (Release_execute
                    (fresh_release [success; failure_action; success])))) =
       transcript (heap (fresh_release [success; failure_action; success]))
         (firstn k [0; 1; 2])) /\
  (exists before,
     console (snd (Release_execute (fresh_release [success; success]))) =
       String.append before
         (String.append
            (String.append
               (join_lines ["<"; "| Log from stdout and stderr:"; ">"]) nl)
            (String.append
               (release_stdout
                  (rel (snd (Release_execute
                               (fresh_release [success; success])))))
               nl))).
Proof.
  split.
  - destruct (@sink_gets_one_block_per_attempt platform
                (fresh_release [success; failure_action; success])
                (fst (Release_execute
                        (fresh_release [success; failure_action; success])))
                (snd (Release_execute
                        (fresh_release [success; failure_action; success]))))
      as (H1 & _).
    + apply surjective_pairing.
    + exact H1.
  - destruct (@sink_gets_one_block_per_attempt platform
                (fresh_release [success; success]) (Ok tt)
                (snd (Release_execute (fresh_release [success; success]))))
      as (_ & H2).
    + vm_compute. reflexivity.
    + apply H2; reflexivity.
Defined.

Lemma Release_rollback_halts_at_first_failure_witness :
  executed_steps
    (rel (snd (Release_execute
                 (fresh_release [failure_rollback_action; success;
                                 failure_precondition])))) = [0; 1] /\
  world
    (snd (Release_rollback
            (snd (Release_execute
                    (fresh_release [failure_rollback_action; success;
                                    failure_precondition]))))) = 0 /\
  rollback_calls
    (journal
       (snd (Release_rollback
               (snd (Release_execute
                       (fresh_release [failure_rollback_action; success;
                                       failure_precondition])))))) =
    rollback_calls
      (journal (snd (Release_execute
                       (fresh_release [failure_rollback_action; success;
                                       failure_precondition])))) ++ [0].
Proof.
  assert (X : executed_steps
    (rel (snd (Release_execute
                 (fresh_release [failure_rollback_action; success;
                                 failure_precondition])))) = [0; 1])
    by (vm_compute; reflexivity).
  split; [exact X|].
  destruct (@Release_rollback_halts_at_first_failure platform _ 0 [1] X)
    as (H1 & _).
  apply (H1 (OtherException "Exception") 0).
  vm_compute. reflexivity.
Defined.

(** ** Runs of the steps of fs.py *)

Import Fs FsDemo.

Lemma Copy_refuses_existing_destination_witness :
  exists s',
    Step_execute 0
      (fresh_release [("b", File); ("a", File)] [Copy "a" "b"]) =
      (Raise (PreconditionError "copy a to b" (destination_state true)), s') /\
    world s' = [("b", File); ("a", File)].
Proof.
  destruct (@Copy_refuses_existing_destination host 0 "a" "b"
              (fresh_release [("b", File); ("a", File)] [Copy "a" "b"]))
    as (s' & E & W & _).
  - repeat split.
  - reflexivity.
  - exists s'. split; [exact E | exact W].
Defined.

Lemma Symlink_refuses_existing_path_witness :
  exists e s',
    Step_execute 0
      (fresh_release [("current", Link "v1"); ("v1", File)]
         [Symlink "v2" "current"]) = (Raise e, s') /\
    world s' = [("current", Link "v1"); ("v1", File)].
Proof.
  destruct (@Symlink_refuses_existing_path host 0 "v2" "current"
              (fresh_release [("current", Link "v1"); ("v1", File)]
                 [Symlink "v2" "current"]))
    as (e & s' & E & W & _).
  - repeat split.
  - reflexivity.
  - exists e, s'. split; [exact E | exact W].
Defined.

Lemma Unlink_spares_what_is_not_a_link_witness :
  (exists s',
     Step_execute 0
       (fresh_release [("current", Link "gone")] [Unlink "current"]) =
       (Ok tt, s') /\
     world s' = [("current", Link "gone")]) /\
  (exists s',
     Step_execute 0 (fresh_release [("current", File)] [Unlink "current"]) =
       (Raise (PreconditionError "unlink current" (link_state true None)),
        s') /\
     world s' = [("current", File)]).
Proof.
  split.
  - destruct (@Unlink_spares_what_is_not_a_link host 0 "current"
                (fresh_release [("current", Link "gone")] [Unlink "current"]))
      as (H1 & _).
    + repeat split.
    + apply H1. reflexivity.
  - destruct (@Unlink_spares_what_is_not_a_link host 0 "current"
                (fresh_release [("current", File)] [Unlink "current"]))
      as (_ & H2).
    + repeat split.
    + apply H2; reflexivity.
Defined.

Lemma Unlink_round_trip_witness :
  exists s1 s2,
    Step_execute 0
      (fresh_release [("current", Link "v1"); ("v1", File)]
         [Unlink "current"]) = (Ok tt, s1) /\
    world s1 = [("v1", File)] /\
    initial (heap s1 0) = link_state true (Some "v1") /\
    Step_rollback 0 s1 = (Ok tt, s2) /\
    world s2 = [("current", Link "v1"); ("v1", File)].
Proof.
  apply (@Unlink_round_trip host 0 "current" "v1"
           (fresh_release [("current", Link "v1"); ("v1", File)]
              [Unlink "current"])
           [("v1", File)] [("current", Link "v1"); ("v1", File)]);
    try reflexivity.
  repeat split.
Defined.

Lemma Symlink_round_trip_and_dangling_source_witness :
  (exists s1 s2,
     Step_execute 0 (fresh_release [("v2", File)] [Symlink "v2" "current"]) =
       (Ok tt, s1) /\
     world s1 = [("current", Link "v2"); ("v2", File)] /\
     Step_rollback 0 s1 = (Ok tt, s2) /\
     world s2 = [("v2", File)]) /\
  (exists s1,
     Step_execute 0 (fresh_release [] [Symlink "v2" "current"]) =
       (Raise (PostconditionError "link current to v2"
                 (link_state false None) (link_state true (Some "v2"))), s1) /\
     world s1 = [("current", Link "v2")]).
Proof.
  split.
  - destruct (@Symlink_round_trip_and_dangling_source host 0 "v2" "current"
                (fresh_release [("v2", File)] [Symlink "v2" "current"])
                [("current", Link "v2"); ("v2", File)])
      as (H1 & _).
    + repeat split.
    + reflexivity.
    + reflexivity.
    + apply (H1 [("v2", File)]); reflexivity.
  - destruct (@Symlink_round_trip_and_dangling_source host 0 "v2" "current"
                (fresh_release [] [Symlink "v2" "current"])
                [("current", Link "v2")])
      as (_ & H2).
    + repeat split.
    + reflexivity.
    + reflexivity.
    + apply H2. reflexivity.
Defined.

Lemma Copy_cleans_its_temporary_directory_witness :
  (exists s1,
     Step_execute 0 (fresh_release [("a", File)] [Copy "a" "b"]) =
       (Ok tt, s1) /\
     world s1 = [("b", File); ("a", File)]) /\
  (exists s1,
     Step_execute 0 (fresh_release [("x", File)] [Copy "a" "b"]) =
       (Raise (ExecutionError "copy a to b" EXECUTE
                 "Traceback (most recent call last):"), s1) /\
     world s1 = [("x", File)]).
Proof.
  split.
  - destruct (@Copy_cleans_its_temporary_directory host 0 "a" "b"
                "/tmp/tmpdir"
                (fresh_release [("a", File)] [Copy "a" "b"]) [("a", File)])
      as (H1 & _).
    + repeat split.
    + reflexivity.
    + reflexivity.
    + apply (H1 [("/tmp/tmpdir/temporary", File); ("a", File)]
                [("b", File); ("a", File)]
                [("b", File); ("a", File)]); reflexivity.
  - destruct (@Copy_cleans_its_temporary_directory host 0 "a" "b"
                "/tmp/tmpdir"
                (fresh_release [("x", File)] [Copy "a" "b"]) [("x", File)])
      as (_ & H2).
    + repeat split.
    + reflexivity.
    + reflexivity.
    + apply (H2 (OtherException "FileNotFoundError") [("x", File)]
                [("x", File)]); reflexivity.
Defined.

(** The link [current] is pointed from [v1] to [v2], and the step after
    that fails: the release raises, and [current] still leads to
    [v2]. *)
Lemma Unlink_is_not_undone_once_the_path_is_taken_witness :
  exists s',
    Release_execute
      (fresh_release [("current", Link "v1"); ("v1", File); ("v2", File)]
         [Unlink "current"; Symlink "v2" "current"; Copy "v2" "v1"]) =
      (Raise (PreconditionError "copy v2 to v1" (destination_state true)),
       s') /\
    world s' = [("current", Link "v2"); ("v1", File); ("v2", File)] /\
    rollback_calls (journal s') = [0].
Proof.
  apply (@Unlink_is_not_undone_once_the_path_is_taken host "deploy" 0 [1] 2
           [] None "current" "v1"
           (fresh_release [("current", Link "v1"); ("v1", File); ("v2", File)]
              [Unlink "current"; Symlink "v2" "current"; Copy "v2" "v1"])
           (snd (Step_execute 2
              (snd (announce 2
                 (snd (Release_execute_loop [0; 1]
                    (fresh_release
                       [("current", Link "v1"); ("v1", File); ("v2", File)]
                       [Unlink "current"; Symlink "v2" "current";
                        Copy "v2" "v1"])))))))
           (PreconditionError "copy v2 to v1" (destination_state true))
           (OtherException "FileExistsError")
           [("current", Link "v2"); ("v1", File); ("v2", File)]).
  - reflexivity.
  - repeat split.
  - simpl. intros [N|[]]. discriminate N.
  - discriminate.
  - reflexivity.
  - reflexivity.
  - reflexivity.
  - exists (snd (Release_execute_loop [0; 1]
              (fresh_release
                 [("current", Link "v1"); ("v1", File); ("v2", File)]
                 [Unlink "current"; Symlink "v2" "current";
                  Copy "v2" "v1"]))).
    split; vm_compute; reflexivity.
  - reflexivity.
  - vm_compute. reflexivity.
Defined.

(** ** The order of the cascade *)

(** C1.  [Release.rollback] walks [executed_steps] from the first
    committed step to the last, where the last committed step should come
    first.  With three steps of test/core.py, the third failing on its
    precondition, the calls of [rollback()] are on step 0 and then on
    step 1.  With the steps of fs.py that point the link [current] from
    [v1] to [v2], followed by a step that fails: the cascade starts with
    the [Unlink], whose [os.symlink] finds the new link in its way and
    raises; the cascade stops there, and [current] still leads to [v2]
    after the release has failed.  From the state in which the step
    failed, the rollback of the [Symlink] followed by that of the
    [Unlink] both pass their verification and leave the file system as
    it was before the release.  In general the calls of [rollback()]
    made by [Release.rollback] are those of the cascade over
    [executed_steps] in the order of the list. *)
Theorem rollback_runs_first_to_last :
  (let run := Release_execute
                (Demo.fresh_release
                   [Demo.success; Demo.success; Demo.failure_precondition]) in
   fst run = Raise (PreconditionError "success" (Demo.PyDict [])) /\
   executed_steps (rel (snd run)) = [0; 1] /\
   rollback_calls (journal (snd run)) = [0; 1] /\
   rollback_calls (journal (snd run)) <> rev (executed_steps (rel (snd run))))
  /\
  (let run := Release_execute (fresh_release two_versions link_swap) in
   fst run =
     Raise (PreconditionError "copy v2 to v1" (destination_state true)) /\
   executed_steps (rel (snd run)) = [0; 1] /\
   rollback_calls (journal (snd run)) = [0] /\
   world (snd run) = [("current", Link "v2"); ("v1", File); ("v2", File)])
  /\
  (let failed :=
     snd (Step_execute 2
            (snd (announce 2
                    (snd (Release_execute_loop [0; 1]
                            (fresh_release two_versions link_swap)))))) in
   let undone := Step_rollback 0 (snd (Step_rollback 1 failed)) in
   world failed = [("current", Link "v2"); ("v1", File); ("v2", File)] /\
   fst (Step_rollback 1 failed) = Ok tt /\
   fst undone = Ok tt /\
   world (snd undone) = two_versions)
  /\
  (forall (P : Platform) (s : Sys),
     rollback_calls (journal (snd (Release_rollback s))) =
       rollback_calls (journal s) ++
       fst (cascade (executed_steps (rel s))
              (snd (log EvReleaseRollback s)))).
Proof.
  split; [|split; [|split]].
  - vm_compute. repeat split. discriminate.
  - vm_compute. repeat split.
  - vm_compute. repeat split.
  - intros P s. apply Release_rollback_calls.
Qed.
